(** * task-api: the sharded in-memory task store

    A shallow embedding of [internal/models/task.go] and of the sharded
    [storage.MemoryStorage] (FNV-1a shard selection, per-shard maps, atomic
    record counter), together with the properties of the store that the
    specification states.  Further parts follow the store: the store with
    a single map of [internal/storage/memory.go], the rate limiter of
    [internal/middleware/rate_limit.go], the CORS handler and its helpers
    of [internal/middleware/cors.go], and the request logger.

    Conventions of the embedding.
    - Go [int] and [int64] are 64-bit two's-complement integers: values are
      [Z], and every arithmetic result is passed through [wrap_int].
      [uint32] values are [Z] reduced modulo [2^32].
    - Go strings are byte strings: [string] with [String.length] the number
      of bytes, which is what Go's [len] returns.
    - [time.Time] values are compared by their position on the time line;
      [Time] is [Z], the zero value of [time.Time] is [zeroTime].
    - [time.Now()] and [uuid.New().String()] read the environment: the
      operations that call them take the value read as an argument.
    - The iteration order of a Go map is unspecified: every operation that
      ranges over a map takes the order as a [range_order] argument.
    - The operations are modelled for sequential callers; the mutexes and
      the atomicity of the counter accesses do not appear.
    - A run-time panic is a result of its own, [Panic].
    - The platform is a 64-bit one.  An allocation that the runtime does
      not refuse with a panic succeeds: the machine is taken to have the
      memory. *)

From stdpp Require Import base numbers option list strings gmap fin_maps.
From Stdlib Require Import ZArith Lia.

Local Open Scope Z_scope.

(** ** Machine integers *)

Definition int_bits : Z := 64.
Definition MaxInt : Z := 2 ^ (int_bits - 1) - 1.
Definition MinInt : Z := - 2 ^ (int_bits - 1).

(** Two's-complement wrap-around of a 64-bit signed result. *)
Definition wrap_int (z : Z) : Z :=
  (z + 2 ^ (int_bits - 1)) mod 2 ^ int_bits - 2 ^ (int_bits - 1).

Definition is_int (z : Z) : Prop := MinInt ≤ z ≤ MaxInt.

Definition wrap_uint32 (z : Z) : Z := z mod 2 ^ 32.

(** ** Results of a call *)

Inductive validation_error : Type :=
  | EmptyName                      (* "task name cannot be empty" *)
  | NameTooLong                    (* "task name cannot exceed 255 characters" *)
  | InvalidStatus (status : Z).    (* "invalid task status: %d" *)

Inductive error : Type :=
  | ValidationError (e : validation_error) (* "validation failed: %w" *)
  | CapacityExceeded (maxTasks : Z)        (* "maximum tasks limit reached (%d)" *)
  | NotFound (id : string)                 (* "task with ID %s not found" *)
  | NoOpUpdate                             (* "no updates provided" *)
  | UnhealthyNoShards                      (* "... shards are not properly initialized" *)
  | UnhealthyShard (i : nat).              (* "... shard %d is not properly initialized" *)

Inductive panic : Type :=
  | NilDereference     (* method call or field access through a nil pointer *)
  | NilMapWrite        (* assignment to entry in nil map *)
  | DivideByZero       (* integer divide by zero *)
  | IndexOutOfRange    (* index out of range *)
  | SliceBounds        (* slice bounds out of range *)
  | MakeSliceCap.      (* makeslice: cap out of range *)

Inductive result (A : Type) : Type :=
  | Ok (a : A)
  | Err (e : error)
  | Panic (p : panic).
Arguments Ok {A} a.
Arguments Err {A} e.
Arguments Panic {A} p.

(** ** internal/models/task.go *)

Definition Time : Type := Z.
Definition zeroTime : Time := 0.

Module TaskStatus.
Definition t : Type := Z.

Definition TaskIncomplete : t := 0.
Definition TaskCompleted : t := 1.

Definition IsValid (ts : t) : bool :=
  (ts =? TaskIncomplete) || (ts =? TaskCompleted).
End TaskStatus.

Record Task : Type := mkTask {
  ID : string;
  Name : string;
  Status : TaskStatus.t;
  CreatedAt : Time;
  UpdatedAt : Time
}.

Definition set_ID (id : string) (task : Task) : Task :=
  mkTask id (Name task) (Status task) (CreatedAt task) (UpdatedAt task).
Definition set_Name (name : string) (task : Task) : Task :=
  mkTask (ID task) name (Status task) (CreatedAt task) (UpdatedAt task).
Definition set_Status (status : TaskStatus.t) (task : Task) : Task :=
  mkTask (ID task) (Name task) status (CreatedAt task) (UpdatedAt task).
Definition set_UpdatedAt (now : Time) (task : Task) : Task :=
  mkTask (ID task) (Name task) (Status task) (CreatedAt task) now.

(** [len(name)]: the number of bytes of the string. *)
Definition len (s : string) : Z := Z.of_nat (String.length s).

Definition is_empty (s : string) : bool :=
  match s with EmptyString => true | String _ _ => false end.

Module CreateTaskRequest.
Record t : Type := mk { Name : string; Status : TaskStatus.t }.

(** [None] is Go's [nil] error. *)
Definition Validate (req : t) : option validation_error :=
  if is_empty (Name req) then Some EmptyName
  else if 255 <? len (Name req) then Some NameTooLong
  else if negb (TaskStatus.IsValid (Status req)) then Some (InvalidStatus (Status req))
  else None.
End CreateTaskRequest.

Module UpdateTaskRequest.
(** The two optional fields are pointers in Go; [None] is [nil]. *)
Record t : Type := mk { Name : option string; Status : option TaskStatus.t }.

Definition Validate (req : t) : option validation_error :=
  match
    match Name req with
    | Some name =>
        if is_empty name then Some EmptyName
        else if 255 <? len name then Some NameTooLong
        else None
    | None => None
    end
  with
  | Some e => Some e
  | None =>
      match Status req with
      | Some status =>
          if negb (TaskStatus.IsValid status) then Some (InvalidStatus status) else None
      | None => None
      end
  end.

Definition HasUpdates (req : t) : bool :=
  match Name req, Status req with
  | None, None => false
  | _, _ => true
  end.

(** [now] is the value [time.Now()] returns at the start of the call. *)
Definition ApplyTo (now : Time) (req : t) (task : Task) : Task :=
  let task :=
    match Name req with
    | Some name => set_UpdatedAt now (set_Name name task)
    | None => task
    end in
  match Status req with
  | Some status => set_UpdatedAt now (set_Status status task)
  | None => task
  end.
End UpdateTaskRequest.

(** [now] is the value [time.Now()] returns; the [ID] field is left at the
    zero value of its type. *)
Definition NewTask (now : Time) (name : string) (status : TaskStatus.t) : Task :=
  mkTask "" name status now now.

(** ** The sharded store *)

(** The order in which a [for ... range] loop visits the entries of a map:
    some enumeration of the entries, each exactly once. *)
Record range_order : Type := mkOrder {
  enum : gmap string Task → list (string * Task);
  enum_perm : ∀ m, enum m ≡ₚ map_to_list m
}.

Definition canonical_order : range_order :=
  mkOrder map_to_list (λ m, reflexivity (map_to_list m)).

(** [tasks] is [None] for a nil map. *)
Record shard : Type := mkShard { tasks : option (gmap string Task) }.

#[global] Instance result_ret : MRet result := λ A a, Ok a.
#[global] Instance result_bind : MBind result := λ A B f r,
  match r with
  | Ok a => f a
  | Err e => Err e
  | Panic p => Panic p
  end.

(** [allTasks[low:high]]; in the one place the store slices, [high] is at
    most the length, so the bound by the capacity is the bound by the
    length. *)
Definition slice {A : Type} (l : list A) (low high : Z) : result (list A) :=
  if (0 <=? low) && (low <=? high) && (high <=? Z.of_nat (length l))
  then Ok (take (Z.to_nat (high - low)) (drop (Z.to_nat low) l))
  else Panic SliceBounds.

(** [atomic.AddInt64]. *)
Definition AddInt64 (v delta : Z) : Z := wrap_int (v + delta).

Module MemoryStorage.

(** A slot of [shards] is [None] for a nil pointer.  The unused
    [taskPool] field is left out. *)
Record t : Type := mk {
  shards : list (option shard);
  shardCount : Z;
  maxTasks : Z;
  taskCount : Z
}.

Definition set_shards (ss : list (option shard)) (ms : t) : t :=
  mk ss (shardCount ms) (maxTasks ms) (taskCount ms).
Definition set_taskCount (c : Z) (ms : t) : t :=
  mk (shards ms) (shardCount ms) (maxTasks ms) c.

(** [shards[i].tasks = m], through the pointer held in slot [i]. *)
Definition set_tasks (i : nat) (m : gmap string Task) (ms : t) : t :=
  set_shards (<[i := Some (mkShard (Some m))]> (shards ms)) ms.

Definition empty_shard : option shard := Some (mkShard (Some ∅)).

(** [make([]*shard, shardCount)] followed by the loop that fills every
    slot. *)
Definition init_shards (shardCount : nat) : list (option shard) :=
  fold_left (λ shards i, <[i := empty_shard]> shards)
            (seq 0 shardCount) (replicate shardCount None).

Definition NewMemoryStorage (maxTasks : Z) : t :=
  let maxTasks := if maxTasks <=? 0 then 10000 else maxTasks in
  let shardCount :=
    if maxTasks <? 1000 then 8
    else if 100000 <? maxTasks then 64
    else 32 in
  let shards := init_shards (Z.to_nat shardCount) in
  let safeShardCount :=
    if (shardCount <? 0) || (2 ^ 31 - 1 <? shardCount) then 32
    else wrap_uint32 shardCount in
  mk shards safeShardCount maxTasks 0.

(** [uint32(key[i])]; the loop only reads below [len(key)]. *)
Definition key_byte (key : string) (i : nat) : Z :=
  match String.get i key with
  | Some c => Z.of_N (Ascii.N_of_ascii c)
  | None => 0
  end.

(** The body of the loop of [fnv32Hash], run [n] times from index [i]. *)
Fixpoint fnv32_loop (key : string) (i n : nat) (hash : Z) : Z :=
  match n with
  | O => hash
  | S n' =>
      let hash := Z.lxor hash (key_byte key i) in
      let hash := wrap_uint32 (hash * 16777619) in
      fnv32_loop key (S i) n' hash
  end.

Definition fnv32Hash (key : string) : Z :=
  fnv32_loop key 0 (String.length key) 2166136261.

(** The pointer [getShard] returns is represented by the index of the
    slot it was read from. *)
Definition getShard (ms : t) (key : string) : result nat :=
  let hash := fnv32Hash key in
  if shardCount ms =? 0 then Panic DivideByZero
  else
    let shardIndex := Z.to_nat (hash mod shardCount ms) in
    match shards ms !! shardIndex with
    | Some _ => Ok shardIndex
    | None => Panic IndexOutOfRange
    end.

(** Following the pointer held in slot [i] ([shard.mutex], [shard.tasks]). *)
Definition deref (ms : t) (i : nat) : result shard :=
  match shards ms !! i with
  | Some (Some sh) => Ok sh
  | _ => Panic NilDereference
  end.

(** [task, exists := shard.tasks[id]]; a nil map has no entries. *)
Definition lookup_task (sh : shard) (id : string) : option Task :=
  m ← tasks sh; m !! id.

(** [shard := ms.getShard(key)] followed by the first access through the
    pointer, the call that takes the lock of the shard. *)
Definition lock_shard (ms : t) (key : string) : result (nat * shard) :=
  i ← getShard ms key;
  sh ← deref ms i;
  mret (i, sh).

Definition GetByID (ms : t) (id : string) : result Task :=
  '(_, sh) ← lock_shard ms id;
  match lookup_task sh id with
  | None => Err (NotFound id)
  | Some task => Ok task
  end.

Definition Create (ms : t) (uuid : string) (now : Time)
    (req : CreateTaskRequest.t) : t * result Task :=
  match CreateTaskRequest.Validate req with
  | Some err => (ms, Err (ValidationError err))
  | None =>
      let currentCount := taskCount ms in
      if maxTasks ms <=? currentCount
      then (ms, Err (CapacityExceeded (maxTasks ms)))
      else
        let taskID := uuid in
        let task :=
          set_ID taskID
            (NewTask now (CreateTaskRequest.Name req) (CreateTaskRequest.Status req)) in
        match lock_shard ms taskID with
        | Ok (i, sh) =>
            match tasks sh with
            | None => (ms, Panic NilMapWrite)
            | Some m =>
                let ms := set_tasks i (<[taskID := task]> m) ms in
                let ms := set_taskCount (AddInt64 (taskCount ms) 1) ms in
                (ms, Ok task)
            end
        | Err e => (ms, Err e)
        | Panic p => (ms, Panic p)
        end
  end.

Definition Update (ms : t) (now : Time) (id : string)
    (req : UpdateTaskRequest.t) : t * result Task :=
  match UpdateTaskRequest.Validate req with
  | Some err => (ms, Err (ValidationError err))
  | None =>
      if negb (UpdateTaskRequest.HasUpdates req) then (ms, Err NoOpUpdate)
      else
        match lock_shard ms id with
        | Ok (i, sh) =>
            match tasks sh, lookup_task sh id with
            | Some m, Some task =>
                let updatedTask := UpdateTaskRequest.ApplyTo now req task in
                (set_tasks i (<[id := updatedTask]> m) ms, Ok updatedTask)
            | _, _ => (ms, Err (NotFound id))
            end
        | Err e => (ms, Err e)
        | Panic p => (ms, Panic p)
        end
  end.

Definition Delete (ms : t) (id : string) : t * result unit :=
  match lock_shard ms id with
  | Ok (i, sh) =>
      match tasks sh, lookup_task sh id with
      | Some m, Some _ =>
          let ms := set_tasks i (delete id m) ms in
          let ms := set_taskCount (AddInt64 (taskCount ms) (-1)) ms in
          (ms, Ok ())
      | _, _ => (ms, Err (NotFound id))
      end
  | Err e => (ms, Err e)
  | Panic p => (ms, Panic p)
  end.

(** The error [Count] returns is always nil. *)
Definition Count (ms : t) : Z := taskCount ms.

(** The loop of [Clear] over the slots still to visit; [visited] are the
    slots already reset. *)
Fixpoint Clear_loop (visited todo : list (option shard))
    : list (option shard) * result unit :=
  match todo with
  | [] => (visited, Ok ())
  | None :: _ => (visited ++ todo, Panic NilDereference)
  | Some _ :: todo' => Clear_loop (visited ++ [empty_shard]) todo'
  end.

Definition Clear (ms : t) : t * result unit :=
  match Clear_loop [] (shards ms) with
  | (ss, Ok _) => (set_taskCount 0 (set_shards ss ms), Ok ())
  | (ss, r) => (set_shards ss ms, r)
  end.

(** The loop of [HealthCheck] from index [i]. *)
Fixpoint HealthCheck_loop (i : nat) (ss : list (option shard)) : result unit :=
  match ss with
  | [] => Ok ()
  | Some (mkShard (Some _)) :: ss' => HealthCheck_loop (S i) ss'
  | _ :: _ => Err (UnhealthyShard i)
  end.

Definition HealthCheck (ms : t) : result unit :=
  if decide (length (shards ms) = 0%nat) then Err UnhealthyNoShards
  else HealthCheck_loop 0 (shards ms).

(** The tasks a [for _, task := range shard.tasks] loop visits, in the
    order of the visit; ranging over a nil map visits nothing. *)
Definition range_tasks (o : range_order) (sh : shard) : list Task :=
  match tasks sh with
  | Some m => (enum o m).*2
  | None => []
  end.

(** The nested loops shared by the global reads: every shard in turn,
    every task of the shard, [body] applied to the slice built so far. *)
Fixpoint range_shards (o : range_order) (body : list Task → Task → list Task)
    (ss : list (option shard)) (acc : list Task) : result (list Task) :=
  match ss with
  | [] => Ok acc
  | None :: _ => Panic NilDereference
  | Some sh :: ss' =>
      range_shards o body ss' (fold_left body (range_tasks o sh) acc)
  end.

(** [make([]*models.Task, 0, n)] goes through the runtime's [makeslice],
    which panics when the capacity is negative and when the [8 * n] bytes
    of [n] pointers are more than [maxAlloc], the [2^48] bytes of heap
    addresses of the 64-bit platforms. *)
Definition maxAlloc : Z := 2 ^ 48.

Definition make_cap (n : Z) : result (list Task) :=
  if (n <? 0) || (maxAlloc <? 8 * n) then Panic MakeSliceCap else Ok [].

Definition GetAll (o : range_order) (ms : t) : result (list Task) :=
  let currentCount := taskCount ms in
  allTasks ← make_cap currentCount;
  range_shards o (λ allTasks task, allTasks ++ [task]) (shards ms) allTasks.

Definition GetTasksByStatus (o : range_order) (ms : t) (status : TaskStatus.t)
    : result (list Task) :=
  range_shards o
    (λ tasks task, if Status task =? status then tasks ++ [task] else tasks)
    (shards ms) [].

Definition GetTasksCreatedAfter (o : range_order) (ms : t) (after : Time)
    : result (list Task) :=
  range_shards o
    (λ tasks task, if after <? CreatedAt task then tasks ++ [task] else tasks)
    (shards ms) [].

Definition GetTasksPaginated (o : range_order) (ms : t) (offset limit : Z)
    : result (list Task * Z) :=
  allTasks ← make_cap (taskCount ms);
  allTasks ← range_shards o (λ allTasks task, allTasks ++ [task]) (shards ms) allTasks;
  let total := Z.of_nat (length allTasks) in
  if total <=? offset then Ok ([], total)
  else
    let end_ := wrap_int (offset + limit) in
    let end_ := if total <? end_ then total else end_ in
    paginatedTasks ← slice allTasks offset end_;
    Ok (paginatedTasks, total).

(** [StorageStats]. *)
Record StorageStats : Type := mkStats {
  TotalTasks : Z;
  CompletedTasks : Z;
  IncompleteTasks : Z;
  LastID : Z;
  StorageType : string
}.

(** The inner loop of [GetStats] over the tasks of one shard: the two
    counters, incremented with [++] on [int]. *)
Definition GetStats_body (counts : Z * Z) (task : Task) : Z * Z :=
  let '(completedCount, incompleteCount) := counts in
  if Status task =? TaskStatus.TaskCompleted
  then (wrap_int (completedCount + 1), incompleteCount)
  else (completedCount, wrap_int (incompleteCount + 1)).

(** The outer loop of [GetStats] over the shards. *)
Fixpoint GetStats_loop (o : range_order) (ss : list (option shard))
    (counts : Z * Z) : result (Z * Z) :=
  match ss with
  | [] => Ok counts
  | None :: _ => Panic NilDereference
  | Some sh :: ss' =>
      GetStats_loop o ss' (fold_left GetStats_body (range_tasks o sh) counts)
  end.

Definition GetStats (o : range_order) (ms : t) : result StorageStats :=
  '(completedCount, incompleteCount) ← GetStats_loop o (shards ms) (0, 0);
  let currentCount := taskCount ms in
  Ok (mkStats currentCount completedCount incompleteCount 0 "sharded_memory").

Definition GetMaxTasks (ms : t) : Z := maxTasks ms.

End MemoryStorage.

(** ** internal/storage/memory.go: the store with a single map *)

Module Memory.

Record t : Type := mk {
  tasks : option (gmap string Task);
  maxTasks : Z
}.

Definition GetTasksPaginated (o : range_order) (ms : t) (offset limit : Z)
    : result (list Task * Z) :=
  let allTasks :=
    fold_left (λ allTasks task, allTasks ++ [task])
      (match tasks ms with Some m => (enum o m).*2 | None => [] end) [] in
  let total := Z.of_nat (length allTasks) in
  if total <=? offset then Ok ([], total)
  else
    let end_ := wrap_int (offset + limit) in
    let end_ := if total <? end_ then total else end_ in
    paginatedTasks ← slice allTasks offset end_;
    Ok (paginatedTasks, total).

(** The other operations of the store with a single map.  [uuid] is the
    first value [uuid.New().String()] returns in a call of [Create] and
    [more] the values it returns in the iterations of the uniqueness loop;
    [Create] is [None] when the loop is still running after all of them. *)

Definition NewMemoryStorage (maxTasks : Z) : t :=
  let maxTasks := if maxTasks <=? 0 then 10000 else maxTasks in
  mk (Some ∅) maxTasks.

(** [ms.tasks[id]]; a nil map has no entries. *)
Definition lookup_task (ms : t) (id : string) : option Task :=
  m ← tasks ms; m !! id.

(** [len(ms.tasks)]. *)
Definition len_tasks (ms : t) : Z :=
  match tasks ms with Some m => Z.of_nat (size m) | None => 0 end.

Definition GetByID (ms : t) (id : string) : result Task :=
  match lookup_task ms id with
  | None => Err (NotFound id)
  | Some task => Ok task
  end.

(** The loop [for ms.tasks[taskID] != nil { taskID = uuid.New().String() }]. *)
Fixpoint pick_id (ms : t) (taskID : string) (more : list string)
    : option string :=
  match lookup_task ms taskID with
  | None => Some taskID
  | Some _ =>
      match more with
      | [] => None
      | next :: more' => pick_id ms next more'
      end
  end.

Definition Create (ms : t) (uuid : string) (more : list string) (now : Time)
    (req : CreateTaskRequest.t) : option (t * result Task) :=
  match CreateTaskRequest.Validate req with
  | Some err => Some (ms, Err (ValidationError err))
  | None =>
      if maxTasks ms <=? len_tasks ms
      then Some (ms, Err (CapacityExceeded (maxTasks ms)))
      else
        match pick_id ms uuid more with
        | None => None
        | Some taskID =>
            let task :=
              set_ID taskID
                (NewTask now (CreateTaskRequest.Name req)
                   (CreateTaskRequest.Status req)) in
            match tasks ms with
            | None => Some (ms, Panic NilMapWrite)
            | Some m => Some (mk (Some (<[taskID := task]> m)) (maxTasks ms), Ok task)
            end
        end
  end.

Definition Update (ms : t) (now : Time) (id : string)
    (req : UpdateTaskRequest.t) : t * result Task :=
  match UpdateTaskRequest.Validate req with
  | Some err => (ms, Err (ValidationError err))
  | None =>
      if negb (UpdateTaskRequest.HasUpdates req) then (ms, Err NoOpUpdate)
      else
        match tasks ms, lookup_task ms id with
        | Some m, Some task =>
            let updatedTask := UpdateTaskRequest.ApplyTo now req task in
            (mk (Some (<[id := updatedTask]> m)) (maxTasks ms), Ok updatedTask)
        | _, _ => (ms, Err (NotFound id))
        end
  end.

Definition Delete (ms : t) (id : string) : t * result unit :=
  match tasks ms, lookup_task ms id with
  | Some m, Some _ => (mk (Some (delete id m)) (maxTasks ms), Ok ())
  | _, _ => (ms, Err (NotFound id))
  end.

(** The error [Count] returns is always nil. *)
Definition Count (ms : t) : Z := len_tasks ms.

Definition Clear (ms : t) : t := mk (Some ∅) (maxTasks ms).

End Memory.

Import MemoryStorage.

(** ** Notions used to state the properties *)

(** FNV-1a as the specification describes it: start from the offset basis,
    and for every byte of the input xor the byte into the hash, then
    multiply by the prime, on 32 bits. *)
Definition bytes_of (s : string) : list Z :=
  (λ c, Z.of_N (Ascii.N_of_ascii c)) <$> String.list_ascii_of_string s.

Definition fnv1a_32 (bytes : list Z) : Z :=
  fold_left (λ h b, (Z.lxor h b * 16777619) mod 2 ^ 32) bytes 2166136261.

(** The slot of the shard that owns [key]. *)
Definition shard_index (ms : t) (key : string) : nat :=
  Z.to_nat (fnv32Hash key mod shardCount ms).

(** A slot holds a shard whose map is allocated. *)
Definition initialized (s : option shard) : Prop :=
  ∃ m, s = Some (mkShard (Some m)).

(** The map of a slot, empty when the shard or its map is nil. *)
Definition shard_map (s : option shard) : gmap string Task :=
  default ∅ (s ≫= tasks).

(** The record [task] is stored under [key] in the shard of slot [i]. *)
Definition stored (ms : t) (i : nat) (key : string) (task : Task) : Prop :=
  ∃ s, shards ms !! i = Some s ∧ shard_map s !! key = Some task.

(** The number of records held by the shards. *)
Definition num_records (ms : t) : nat :=
  sum_list ((λ s, size (shard_map s)) <$> shards ms).

(** The structure [NewMemoryStorage] sets up. *)
Definition well_formed (ms : t) : Prop :=
  Forall initialized (shards ms)
  ∧ Z.of_nat (length (shards ms)) = shardCount ms
  ∧ 0 < shardCount ms.

(** Every record sits in the shard its key selects, under its own id, and
    the counter is between the number of records and the ceiling. *)
Definition store_ok (ms : t) : Prop :=
  well_formed ms
  ∧ 0 < maxTasks ms ≤ MaxInt
  ∧ Z.of_nat (num_records ms) ≤ taskCount ms ≤ maxTasks ms
  ∧ ∀ i key task, stored ms i key task → ID task = key ∧ i = shard_index ms key.

Definition valid_name (name : string) : Prop :=
  name ≠ "" ∧ len name ≤ 255.

Definition valid_status (status : TaskStatus.t) : Prop :=
  status = TaskStatus.TaskIncomplete ∨ status = TaskStatus.TaskCompleted.

(** The number of characters of a UTF-8 string: the bytes that do not
    continue a character (those outside [0x80..0xBF]). *)
Fixpoint char_count (s : string) : Z :=
  match s with
  | EmptyString => 0
  | String c s' =>
      let b := Z.of_N (Ascii.N_of_ascii c) in
      (if (128 <=? b) && (b <? 192) then 0 else 1) + char_count s'
  end.

(** The invariant of a stored record. *)
Definition record_ok (task : Task) : Prop :=
  valid_name (Name task) ∧ valid_status (Status task)
  ∧ CreatedAt task ≤ UpdatedAt task.

(** The invariant, with the bound that makes it inductive: no stored
    timestamp is later than the last reading [clock] of the clock. *)
Definition records_ok (clock : Time) (ms : t) : Prop :=
  ∀ i key task, stored ms i key task → record_ok task ∧ UpdatedAt task ≤ clock.

(** The calls that change the store. *)
Inductive call : Type :=
  | CallCreate (uuid : string) (req : CreateTaskRequest.t)
  | CallUpdate (id : string) (req : UpdateTaskRequest.t)
  | CallDelete (id : string)
  | CallClear.

(** The store after a call made when the clock reads [now]. *)
Definition exec (ms : t) (now : Time) (c : call) : t :=
  match c with
  | CallCreate uuid req => (Create ms uuid now req).1
  | CallUpdate id req => (Update ms now id req).1
  | CallDelete id => (Delete ms id).1
  | CallClear => (Clear ms).1
  end.

(** The states a store goes through, with the last reading of the clock.
    Comparisons of [time.Now()] values taken in one process use Go's
    monotonic clock: a later reading is never less than an earlier one. *)
Inductive reachable : t → Time → Prop :=
  | reachable_new maxTasks clock :
      is_int maxTasks → reachable (NewMemoryStorage maxTasks) clock
  | reachable_step ms clock now c :
      reachable ms clock → clock ≤ now → reachable (exec ms now c) now.

(** Creating one record per entry of [l], stopping at the first failure. *)
Fixpoint create_all (ms : t) (l : list (string * Time * CreateTaskRequest.t))
    : option t :=
  match l with
  | [] => Some ms
  | (uuid, now, req) :: l' =>
      match Create ms uuid now req with
      | (ms', Ok _) => create_all ms' l'
      | _ => None
      end
  end.

(** The record [Create] builds. *)
Definition created (uuid : string) (now : Time) (req : CreateTaskRequest.t) : Task :=
  mkTask uuid (CreateTaskRequest.Name req) (CreateTaskRequest.Status req) now now.

(** The invariant of the store together with the invariant of its records. *)
Definition inv (clock : Time) (ms : t) : Prop :=
  store_ok ms ∧ records_ok clock ms.

(** The records in the order a global read visits them. *)
Definition visited (o : range_order) (ss : list (option shard)) : list Task :=
  mjoin ((λ s, from_option (range_tasks o) [] s) <$> ss).

(** The ceiling and the number of shards [NewMemoryStorage] chooses. *)
Definition ceiling_of (maxTasks : Z) : Z :=
  if maxTasks <=? 0 then 10000 else maxTasks.

Definition shard_count_of (ceiling : Z) : Z :=
  if ceiling <? 1000 then 8 else if 100000 <? ceiling then 64 else 32.

(** The page the specification describes: the records of [allTasks] at the
    positions from [offset] up to, and without, [min (offset + limit) T]. *)
Definition page (allTasks : list Task) (offset limit : Z) : list Task :=
  take (Z.to_nat limit) (drop (Z.to_nat offset) allTasks).

(** ** Example stores *)

Definition req_A : CreateTaskRequest.t :=
  CreateTaskRequest.mk "A" TaskStatus.TaskIncomplete.
Definition req_B : CreateTaskRequest.t :=
  CreateTaskRequest.mk "B" TaskStatus.TaskCompleted.
Definition req_C : CreateTaskRequest.t :=
  CreateTaskRequest.mk "C" TaskStatus.TaskIncomplete.
Definition req_empty_name : CreateTaskRequest.t :=
  CreateTaskRequest.mk "" TaskStatus.TaskIncomplete.

(** A store of ceiling 2 after the creation of "A" and of "B". *)
Definition store_A : t := (Create (NewMemoryStorage 2) "id-A" 5 req_A).1.
Definition store_AB : t := (Create store_A "id-B" 6 req_B).1.

(** The same two records in the store with a single map. *)
Definition store_AB_single : Memory.t :=
  Memory.mk (Some (<["id-A" := created "id-A" 5 req_A]>
                     (<["id-B" := created "id-B" 6 req_B]> ∅))) 2.

(** The two records in a store with a single map that has room for more. *)
Definition store_AB_roomy : Memory.t :=
  Memory.mk (Memory.tasks store_AB_single) 5.

(** The largest capacity [make_cap] accepts: [2^45] pointers. *)
Definition max_cap : Z := maxAlloc `div` 8.

(** ** Notions for the further properties *)

(** The records of a list that [GetStats] counts as completed, and the
    others. *)
Definition count_completed (l : list Task) : nat :=
  length (filter (λ task, Status task = TaskStatus.TaskCompleted) l).

Definition count_not_completed (l : list Task) : nat :=
  length (filter (λ task, Status task ≠ TaskStatus.TaskCompleted) l).

(** ** internal/middleware/rate_limit.go

    A [time.Duration] is an [int64] count of nanoseconds; a [Time] is here
    a position on the time line in nanoseconds.  The request context enters
    through the two values the limiter reads from it: the client IP
    ([getClientIP(c)]) and the [X-API-Key] header.  The records are held by
    pointer in Go and updated in place; no record is shared between two
    keys, so the maps hold them by value.  The cleanup goroutine is
    modelled by its body, [cleanup], run at a given time. *)

Definition Duration : Type := Z.
Definition Nanosecond : Duration := 1.
Definition Second : Duration := 1000000000.
Definition Minute : Duration := 60 * Second.

(** [t.Sub(u)]: the difference, saturated to the range of [Duration]. *)
Definition Sub (t u : Time) : Duration := Z.max MinInt (Z.min MaxInt (t - u)).

Module RateLimitConfig.
Record t : Type := mk {
  Enabled : bool;
  PerIP : Z;
  PerAPIKey : Z;
  CleanupInterval : Duration;
  WindowSize : Duration
}.
End RateLimitConfig.

Definition DefaultRateLimitConfig : RateLimitConfig.t :=
  RateLimitConfig.mk true 100 1000 (wrap_int (5 * Minute)) (wrap_int (1 * Minute)).

Module RequestRecord.
Record t : Type := mk {
  Count : Z;
  FirstSeen : Time;
  LastSeen : Time
}.
End RequestRecord.

Module RateLimiter.

Record t : Type := mk {
  config : RateLimitConfig.t;
  ipRecords : gmap string RequestRecord.t;
  keyRecords : gmap string RequestRecord.t
}.

Definition NewRateLimiter (config : RateLimitConfig.t) : t := mk config ∅ ∅.

(** [checkLimit]: the map after the call and the answer. *)
Definition checkLimit (rl : t) (identifier : string) (limit : Z) (now : Time)
    (records : gmap string RequestRecord.t)
    : gmap string RequestRecord.t * bool :=
  match records !! identifier with
  | None => (<[identifier := RequestRecord.mk 1 now now]> records, true)
  | Some record =>
      if RateLimitConfig.WindowSize (config rl)
         <? Sub now (RequestRecord.FirstSeen record)
      then (<[identifier := RequestRecord.mk 1 now now]> records, true)
      else if limit <=? RequestRecord.Count record then (records, false)
      else
        (<[identifier :=
             RequestRecord.mk (wrap_int (RequestRecord.Count record + 1))
               (RequestRecord.FirstSeen record) now]> records, true)
  end.

(** The body shared by [Allow] and [allowWithCustomLimit]: the limit of the
    IP check is the only difference. *)
Definition allow_with (rl : t) (ipLimit : Z) (clientIP apiKey : string)
    (now : Time) : t * bool :=
  let '(ips, ok) := checkLimit rl clientIP ipLimit now (ipRecords rl) in
  let rl := mk (config rl) ips (keyRecords rl) in
  if negb ok then (rl, false)
  else if negb (is_empty apiKey) then
    let '(keys, ok) :=
      checkLimit rl apiKey (RateLimitConfig.PerAPIKey (config rl)) now
        (keyRecords rl) in
    let rl := mk (config rl) (ipRecords rl) keys in
    if negb ok then (rl, false) else (rl, true)
  else (rl, true).

Definition Allow (rl : t) (clientIP apiKey : string) (now : Time) : t * bool :=
  allow_with rl (RateLimitConfig.PerIP (config rl)) clientIP apiKey now.

Definition allowWithCustomLimit (rl : t) (clientIP apiKey : string)
    (customLimit : Z) (now : Time) : t * bool :=
  allow_with rl customLimit clientIP apiKey now.

(** The records one loop of [cleanup] keeps. *)
Definition cleanup_map (now : Time) (expiry : Duration)
    (records : gmap string RequestRecord.t) : gmap string RequestRecord.t :=
  filter (λ kr, ¬ (expiry < Sub now (RequestRecord.LastSeen kr.2))) records.

Definition cleanup (rl : t) (now : Time) : t :=
  let expiry := wrap_int (RateLimitConfig.WindowSize (config rl) * 2) in
  mk (config rl)
     (cleanup_map now expiry (ipRecords rl))
     (cleanup_map now expiry (keyRecords rl)).

End RateLimiter.

Definition getCustomLimit (path method : string)
    (baseConfig : RateLimitConfig.t) : Z :=
  if bool_decide (path = "/health" ∨ path = "/api/v1/health")
  then wrap_int (RateLimitConfig.PerIP baseConfig * 5)
  else if bool_decide (method = "GET") then RateLimitConfig.PerIP baseConfig
  else if bool_decide (method = "POST" ∨ method = "PUT" ∨ method = "DELETE")
  then Z.quot (RateLimitConfig.PerIP baseConfig) 2
  else RateLimitConfig.PerIP baseConfig.

(** The answers of successive [Allow] calls of one client, one per reading
    of the clock in [times]. *)
Fixpoint allow_all (rl : RateLimiter.t) (clientIP apiKey : string)
    (times : list Time) : RateLimiter.t * list bool :=
  match times with
  | [] => (rl, [])
  | now :: times' =>
      let '(rl, ok) := RateLimiter.Allow rl clientIP apiKey now in
      let '(rl, oks) := allow_all rl clientIP apiKey times' in
      (rl, ok :: oks)
  end.

(** Successive [checkLimit] calls for one identifier. *)
Fixpoint check_all (rl : RateLimiter.t) (identifier : string) (limit : Z)
    (times : list Time) (records : gmap string RequestRecord.t)
    : gmap string RequestRecord.t * list bool :=
  match times with
  | [] => (records, [])
  | now :: times' =>
      let '(records, ok) := RateLimiter.checkLimit rl identifier limit now records in
      let '(records, oks) := check_all rl identifier limit times' records in
      (records, ok :: oks)
  end.

(** Every record was first seen no later than it was last seen, and last
    seen no later than [clock]. *)
Definition records_wf (clock : Time) (records : gmap string RequestRecord.t)
    : Prop :=
  ∀ k r, records !! k = Some r →
    RequestRecord.FirstSeen r ≤ RequestRecord.LastSeen r
    ∧ RequestRecord.LastSeen r ≤ clock.

(** A limiter with a window of one minute, two requests per IP and one per
    API key. *)
Definition limiter_2 : RateLimiter.t :=
  RateLimiter.NewRateLimiter (RateLimitConfig.mk true 2 1 (5 * Minute) Minute).

(** The answers of successive [Allow] calls, one per request: the client
    IP, the API key and the reading of the clock. *)
Fixpoint allow_seq (rl : RateLimiter.t) (reqs : list (string * string * Time))
    : RateLimiter.t * list bool :=
  match reqs with
  | [] => (rl, [])
  | (clientIP, apiKey, now) :: reqs' =>
      let '(rl, ok) := RateLimiter.Allow rl clientIP apiKey now in
      let '(rl, oks) := allow_seq rl reqs' in
      (rl, ok :: oks)
  end.

(** [cleaned] is [records] without some records that [cleanup] found
    expired at the time [tc] for the window [W]. *)
Definition hides (W : Duration) (tc : Time)
    (cleaned records : gmap string RequestRecord.t) : Prop :=
  ∀ k, cleaned !! k = records !! k
       ∨ (cleaned !! k = None
          ∧ ∃ r, records !! k = Some r
              ∧ RequestRecord.FirstSeen r ≤ RequestRecord.LastSeen r
              ∧ W * 2 < Sub tc (RequestRecord.LastSeen r)).

(** The records of all the shards in one map. *)
Definition flatten (ms : t) : gmap string Task :=
  ⋃ (shard_map <$> shards ms).

(** The store with a single map that holds the records and the ceiling of
    a sharded store. *)
Definition single (ms : t) : Memory.t :=
  Memory.mk (Some (flatten ms)) (maxTasks ms).

(** ** internal/middleware/cors.go

    The handler that [CORSWithConfig] returns reads the [Origin] header
    and the method of the request; its effect is the sequence of its
    [c.Header] calls, each a header name and a value, and how it ends:
    with [c.Next()] or with [c.AbortWithStatus]. *)

Module CORSConfig.
Record t : Type := mk {
  AllowOrigins : list string;
  AllowMethods : list string;
  AllowHeaders : list string;
  ExposeHeaders : list string;
  AllowCredentials : bool;
  MaxAge : Z
}.
End CORSConfig.

Fixpoint isOriginAllowed (origin : string) (allowedOrigins : list string)
    : bool :=
  match allowedOrigins with
  | [] => false
  | allowed :: allowedOrigins' =>
      if bool_decide (allowed = "*" ∨ allowed = origin) then true
      else isOriginAllowed origin allowedOrigins'
  end.

(** The loop of [joinStrings] reads [slice[i]] for [i] from [1] to
    [len(slice) - 1]. *)
Definition joinStrings (slice : list string) (sep : string) : string :=
  match slice with
  | [] => ""
  | first :: _ =>
      fold_left
        (λ result i, result +:+ (sep +:+ default "" (slice !! i)))
        (seq 1 (length slice - 1)) first
  end.

(** [string(rune('0' + d))]. *)
Definition digit (d : Z) : string :=
  String (Ascii.ascii_of_N (Z.to_N (48 + d))) "".

(** The loop [for i > 0] of [formatInt].  An iteration divides [i] by ten,
    and [i] is below [2^63]: the loop is given [fuel] iterations, and
    [formatInt] gives it 63. *)
Fixpoint formatInt_loop (fuel : nat) (i : Z) (result : string)
    : option string :=
  if 0 <? i then
    match fuel with
    | O => None
    | S fuel' =>
        formatInt_loop fuel' (Z.quot i 10) (digit (Z.rem i 10) +:+ result)
    end
  else Some result.

Definition formatInt (i : Z) : option string :=
  if i =? 0 then Some "0"
  else
    let negative := i <? 0 in
    let i := if negative then wrap_int (- i) else i in
    result ← formatInt_loop 63 i "";
    Some (if negative then "-" +:+ result else result).

Inductive outcome : Type :=
  | Next
  | AbortWithStatus (code : Z).

Definition CORSWithConfig (config : CORSConfig.t) (origin method : string)
    : option (list (string * string) * outcome) :=
  let allowOrigin :=
    if (length (CORSConfig.AllowOrigins config) =? 1)%nat
       && bool_decide (CORSConfig.AllowOrigins config !! 0%nat = Some "*")
    then [("Access-Control-Allow-Origin", "*")]
    else if isOriginAllowed origin (CORSConfig.AllowOrigins config)
    then [("Access-Control-Allow-Origin", origin)]
    else [] in
  let allowMethods :=
    if (0 <? length (CORSConfig.AllowMethods config))%nat
    then [("Access-Control-Allow-Methods",
           joinStrings (CORSConfig.AllowMethods config) ", ")]
    else [] in
  let allowHeaders :=
    if (0 <? length (CORSConfig.AllowHeaders config))%nat
    then [("Access-Control-Allow-Headers",
           joinStrings (CORSConfig.AllowHeaders config) ", ")]
    else [] in
  let exposeHeaders :=
    if (0 <? length (CORSConfig.ExposeHeaders config))%nat
    then [("Access-Control-Expose-Headers",
           joinStrings (CORSConfig.ExposeHeaders config) ", ")]
    else [] in
  let allowCredentials :=
    if CORSConfig.AllowCredentials config
    then [("Access-Control-Allow-Credentials", "true")]
    else [] in
  maxAge ←
    (if 0 <? CORSConfig.MaxAge config
     then s ← formatInt (CORSConfig.MaxAge config);
          Some [("Access-Control-Max-Age", s)]
     else Some []);
  Some (allowOrigin ++ allowMethods ++ allowHeaders ++ exposeHeaders
          ++ allowCredentials ++ maxAge,
        if bool_decide (method = "OPTIONS") then AbortWithStatus 204
        else Next).

(** [RestrictiveCORS] passes this configuration to [CORSWithConfig]. *)
Definition RestrictiveCORS_config (allowedOrigins : list string)
    : CORSConfig.t :=
  CORSConfig.mk allowedOrigins
    ["GET"; "POST"; "PUT"; "DELETE"; "OPTIONS"]
    ["Origin"; "Content-Type"; "Authorization"; "Accept"]
    ["Content-Length"; "X-Total-Count"]
    true 3600.

(** The value of a decimal numeral: an optional minus sign and then one
    digit or more, read in base ten. *)
Definition digit_value (a : Ascii.ascii) : option Z :=
  let n := Z.of_N (Ascii.N_of_ascii a) in
  if (48 <=? n) && (n <=? 57) then Some (n - 48) else None.

Fixpoint digits_value (acc : Z) (s : string) : option Z :=
  match s with
  | EmptyString => Some acc
  | String a s' => d ← digit_value a; digits_value (10 * acc + d) s'
  end.

Definition numeral_value (s : string) : option Z :=
  match s with
  | EmptyString => None
  | String a s' =>
      if bool_decide (String a EmptyString = "-")
      then (if bool_decide (s' = EmptyString) then None
            else Z.opp <$> digits_value 0 s')
      else digits_value 0 s
  end.

(** ** The request logger of package middleware *)

Inductive LogLevel : Type :=
  | LogLevelDebug
  | LogLevelInfo
  | LogLevelWarn
  | LogLevelError.

(** The values [iota] gives the levels. *)
Definition LogLevel_int (l : LogLevel) : Z :=
  match l with
  | LogLevelDebug => 0
  | LogLevelInfo => 1
  | LogLevelWarn => 2
  | LogLevelError => 3
  end.

Definition getLogLevelFromStatus (statusCode : Z) : LogLevel :=
  if 500 <=? statusCode then LogLevelError
  else if 400 <=? statusCode then LogLevelWarn
  else if 300 <=? statusCode then LogLevelInfo
  else LogLevelDebug.

Module LoggerConfig.
Record t : Type := mk {
  TimeFormat : string;
  LogLevel : LogLevel;
  SkipPaths : list string;
  EnableColor : bool
}.
End LoggerConfig.

(** The loop over [config.SkipPaths] at the start of the handler. *)
Fixpoint skips (path : string) (skipPaths : list string) : bool :=
  match skipPaths with
  | [] => false
  | skipPath :: skipPaths' =>
      if bool_decide (path = skipPath) then true else skips path skipPaths'
  end.

(** Whether the handler of [LoggerWithConfig] reaches its
    [config.Output.Write] for a request of this path that the later
    handlers answered with this status. *)
Definition LoggerWithConfig_writes (config : LoggerConfig.t) (path : string)
    (statusCode : Z) : bool :=
  if skips path (LoggerConfig.SkipPaths config) then false
  else
    let logLevel := getLogLevelFromStatus statusCode in
    if LogLevel_int logLevel <? LogLevel_int (LoggerConfig.LogLevel config)
    then false
    else true.

(** The configurations of [ProductionLogger] and [DevelopmentLogger];
    [time.RFC3339] is the layout below. *)
Definition ProductionLogger_config : LoggerConfig.t :=
  LoggerConfig.mk "2006-01-02T15:04:05Z07:00" LogLevelInfo
    ["/health"; "/metrics"] false.

Definition DevelopmentLogger_config : LoggerConfig.t :=
  LoggerConfig.mk "2006/01/02 - 15:04:05" LogLevelDebug [] true.

(** * Properties *)

(** The four parts of [store_ok]. *)
Ltac split_store_ok := split; [|split; [|split]].

(** ** Facts on machine integers *)

Lemma two_pow_63 : 2 ^ (int_bits - 1) = 9223372036854775808.
Proof. reflexivity. Qed.

Lemma two_pow_64 : 2 ^ int_bits = 18446744073709551616.
Proof. reflexivity. Qed.

Lemma wrap_int_id z : is_int z → wrap_int z = z.
Proof.
  unfold is_int, MinInt, MaxInt, wrap_int.
  rewrite two_pow_63, two_pow_64. intros Hz.
  rewrite Z.mod_small; lia.
Qed.

Lemma wrap_int_is_int z : is_int (wrap_int z).
Proof.
  unfold is_int, MinInt, MaxInt, wrap_int.
  rewrite two_pow_63, two_pow_64.
  pose proof (Z.mod_pos_bound (z + 9223372036854775808) 18446744073709551616).
  lia.
Qed.

(** ** Shard selection *)

Lemma key_byte_cons c key i : key_byte (String c key) (S i) = key_byte key i.
Proof. reflexivity. Qed.

Lemma fnv32_loop_cons c key i n hash :
  fnv32_loop (String c key) (S i) n hash = fnv32_loop key i n hash.
Proof.
  revert i hash. induction n as [|n IH]; intros i hash; simpl; [done|].
  by rewrite IH.
Qed.

Lemma fnv32_loop_fold key hash :
  fnv32_loop key 0 (String.length key) hash
  = fold_left (λ h b, (Z.lxor h b * 16777619) mod 2 ^ 32) (bytes_of key) hash.
Proof.
  revert hash. induction key as [|c key IH]; intros hash; [done|].
  cbn [String.length fnv32_loop]. rewrite fnv32_loop_cons, IH. reflexivity.
Qed.

Lemma fnv32Hash_bound key : 0 ≤ fnv32Hash key < 2 ^ 32.
Proof.
  unfold fnv32Hash.
  assert (H : ∀ n i h, 0 ≤ h < 2 ^ 32 → 0 ≤ fnv32_loop key i n h < 2 ^ 32).
  { induction n as [|n IH]; intros i h Hh; simpl; [done|].
    apply IH. unfold wrap_uint32. apply Z.mod_pos_bound. lia. }
  apply H. lia.
Qed.

Lemma shard_index_lt ms key :
  0 < shardCount ms → Z.of_nat (shard_index ms key) < shardCount ms.
Proof.
  intros Hc. unfold shard_index.
  pose proof (Z.mod_pos_bound (fnv32Hash key) (shardCount ms) Hc). lia.
Qed.

Lemma getShard_well_formed ms key :
  well_formed ms → getShard ms key = Ok (shard_index ms key).
Proof.
  intros (_ & Hlen & Hpos). unfold getShard.
  destruct (Z.eqb_spec (shardCount ms) 0) as [?|_]; [lia|].
  fold (shard_index ms key).
  pose proof (shard_index_lt ms key Hpos) as Hlt.
  destruct (shards ms !! shard_index ms key) eqn:E; [done|].
  apply lookup_ge_None in E. lia.
Qed.

Lemma getShard_inv ms key i :
  getShard ms key = Ok i →
  i = shard_index ms key ∧ (i < length (shards ms))%nat ∧ shardCount ms ≠ 0.
Proof.
  unfold getShard. destruct (Z.eqb_spec (shardCount ms) 0) as [?|Hne]; [done|].
  fold (shard_index ms key).
  destruct (shards ms !! shard_index ms key) eqn:E; [|done].
  intros [= <-]. split_and!; [done| |done]. by eapply lookup_lt_Some.
Qed.

Lemma lock_shard_Ok ms key i sh :
  lock_shard ms key = Ok (i, sh) ↔
  getShard ms key = Ok i ∧ shards ms !! i = Some (Some sh).
Proof.
  unfold lock_shard, deref. destruct (getShard ms key) as [j| |]; simpl.
  - destruct (shards ms !! j) as [[sh'|]|] eqn:E; simpl; split.
    + intros [= -> ->]. done.
    + intros [[= ->] Hs]. rewrite E in Hs. by injection Hs as ->.
    + done.
    + intros [[= ->] Hs]. by rewrite E in Hs.
    + done.
    + intros [[= ->] Hs]. by rewrite E in Hs.
  - split; [done|]. by intros [? _].
  - split; [done|]. by intros [? _].
Qed.

Lemma lock_shard_not_Err ms key e : lock_shard ms key ≠ Err e.
Proof.
  unfold lock_shard, getShard, deref.
  destruct (shardCount ms =? 0); [done|].
  destruct (shards ms !! _) as [?|] eqn:E; simpl; [|done].
  rewrite E. by destruct o.
Qed.

Lemma lock_shard_well_formed ms key :
  well_formed ms →
  ∃ m, lock_shard ms key = Ok (shard_index ms key, mkShard (Some m))
       ∧ shards ms !! shard_index ms key = Some (Some (mkShard (Some m))).
Proof.
  intros Hwf. pose proof (getShard_well_formed ms key Hwf) as Hg.
  destruct (getShard_inv _ _ _ Hg) as (_ & Hlt & _).
  destruct Hwf as (Hall & _ & _).
  destruct (lookup_lt_is_Some_2 _ _ Hlt) as [s Hs].
  destruct (proj1 (Forall_lookup _ _) Hall _ _ Hs) as [m ->].
  exists m. split; [|done]. by apply lock_shard_Ok.
Qed.

(** ** The shards after a write *)

Lemma shard_map_Some m : shard_map (Some (mkShard (Some m))) = m.
Proof. reflexivity. Qed.

Lemma stored_set_tasks ms i m j key task :
  stored (set_tasks i m ms) j key task ↔
  (j = i ∧ (i < length (shards ms))%nat ∧ m !! key = Some task)
  ∨ (j ≠ i ∧ stored ms j key task).
Proof.
  unfold stored, set_tasks; simpl. destruct (decide (j = i)) as [->|Hne].
  - split.
    + intros (s & Hs & Hk). left.
      assert (Hlt : (i < length (shards ms))%nat).
      { apply lookup_lt_Some in Hs. by rewrite length_insert in Hs. }
      rewrite list_lookup_insert_eq in Hs by done. injection Hs as <-. done.
    + intros [(_ & Hlt & Hk)|[? _]]; [|done].
      eexists. by rewrite list_lookup_insert_eq.
  - rewrite list_lookup_insert_ne by done. split; [by right|].
    by intros [[? _]|[_ ?]].
Qed.

Lemma stored_set_taskCount ms c j key task :
  stored (set_taskCount c ms) j key task ↔ stored ms j key task.
Proof. reflexivity. Qed.

Lemma sum_list_insert (l : list nat) i x y :
  l !! i = Some x → (sum_list (<[i:=y]> l) + x = sum_list l + y)%nat.
Proof.
  revert i. induction l as [|a l IH]; intros [|i] Hi; simplify_eq/=; [lia|].
  specialize (IH _ Hi). lia.
Qed.

Lemma num_records_set_tasks ms i s m :
  shards ms !! i = Some s →
  (num_records (set_tasks i m ms) + size (shard_map s)
   = num_records ms + size m)%nat.
Proof.
  intros Hs. unfold num_records, set_tasks; simpl.
  rewrite list_fmap_insert. apply sum_list_insert.
  by rewrite list_lookup_fmap, Hs.
Qed.

Lemma well_formed_set_tasks ms i m :
  well_formed ms → well_formed (set_tasks i m ms).
Proof.
  intros (Hall & Hlen & Hpos). unfold well_formed, set_tasks; simpl.
  rewrite length_insert. split_and!; [|done..].
  apply Forall_insert; [done|]. by exists m.
Qed.

Lemma shard_index_set_tasks ms i m key :
  shard_index (set_tasks i m ms) key = shard_index ms key.
Proof. reflexivity. Qed.

(** ** The outcomes of [Create], [Update] and [Delete] *)

Lemma Create_invalid ms uuid now req e :
  CreateTaskRequest.Validate req = Some e →
  Create ms uuid now req = (ms, Err (ValidationError e)).
Proof. intros H. unfold Create. by rewrite H. Qed.

Lemma Create_full ms uuid now req :
  CreateTaskRequest.Validate req = None → maxTasks ms ≤ taskCount ms →
  Create ms uuid now req = (ms, Err (CapacityExceeded (maxTasks ms))).
Proof.
  intros Hv Hfull. unfold Create. rewrite Hv.
  by destruct (Z.leb_spec (maxTasks ms) (taskCount ms)); [|lia].
Qed.

Lemma Create_Ok ms uuid now req i m :
  CreateTaskRequest.Validate req = None → taskCount ms < maxTasks ms →
  lock_shard ms uuid = Ok (i, mkShard (Some m)) →
  Create ms uuid now req
  = (set_taskCount (AddInt64 (taskCount ms) 1)
       (set_tasks i (<[uuid := created uuid now req]> m) ms),
     Ok (created uuid now req)).
Proof.
  intros Hv Hroom Hl. unfold Create. rewrite Hv.
  destruct (Z.leb_spec (maxTasks ms) (taskCount ms)); [lia|].
  by rewrite Hl.
Qed.

Lemma Create_Ok_inv ms uuid now req ms' task :
  Create ms uuid now req = (ms', Ok task) →
  CreateTaskRequest.Validate req = None ∧ taskCount ms < maxTasks ms
  ∧ task = created uuid now req
  ∧ ∃ i m, lock_shard ms uuid = Ok (i, mkShard (Some m))
           ∧ ms' = set_taskCount (AddInt64 (taskCount ms) 1)
                     (set_tasks i (<[uuid := task]> m) ms).
Proof.
  unfold Create. destruct (CreateTaskRequest.Validate req); [done|].
  destruct (Z.leb_spec (maxTasks ms) (taskCount ms)); [done|].
  destruct (lock_shard ms uuid) as [[i [[m|]]]| |] eqn:Hl; simpl; try done.
  intros [= <- <-]. split_and!; try done. by exists i, m.
Qed.

Lemma Create_Err_inv ms uuid now req ms' e :
  Create ms uuid now req = (ms', Err e) →
  ms' = ms
  ∧ ((∃ ve, CreateTaskRequest.Validate req = Some ve ∧ e = ValidationError ve)
     ∨ (CreateTaskRequest.Validate req = None ∧ maxTasks ms ≤ taskCount ms
        ∧ e = CapacityExceeded (maxTasks ms))).
Proof.
  unfold Create. destruct (CreateTaskRequest.Validate req) as [ve|] eqn:Hv.
  { intros [= <- <-]. split; [done|]. left. by exists ve. }
  destruct (Z.leb_spec (maxTasks ms) (taskCount ms)).
  { intros [= <- <-]. split; [done|]. by right. }
  destruct (lock_shard ms uuid) as [[i [[m|]]]|e'|] eqn:Hl; simpl; try done.
  by destruct (lock_shard_not_Err ms uuid e').
Qed.

Lemma Update_invalid ms now id req e :
  UpdateTaskRequest.Validate req = Some e →
  Update ms now id req = (ms, Err (ValidationError e)).
Proof. intros H. unfold Update. by rewrite H. Qed.

Lemma Update_empty ms now id req :
  UpdateTaskRequest.HasUpdates req = false →
  Update ms now id req = (ms, Err NoOpUpdate).
Proof.
  intros H. unfold Update.
  destruct req as [[name|] [status|]]; try done.
Qed.

Lemma Update_Ok ms now id req i m task :
  UpdateTaskRequest.Validate req = None →
  UpdateTaskRequest.HasUpdates req = true →
  lock_shard ms id = Ok (i, mkShard (Some m)) → m !! id = Some task →
  Update ms now id req
  = (set_tasks i (<[id := UpdateTaskRequest.ApplyTo now req task]> m) ms,
     Ok (UpdateTaskRequest.ApplyTo now req task)).
Proof.
  intros Hv Hu Hl Hk. unfold Update. rewrite Hv, Hu, Hl. simpl.
  unfold lookup_task; simpl. by rewrite Hk.
Qed.

Lemma Update_absent ms now id req i sh :
  UpdateTaskRequest.Validate req = None →
  UpdateTaskRequest.HasUpdates req = true →
  lock_shard ms id = Ok (i, sh) → lookup_task sh id = None →
  Update ms now id req = (ms, Err (NotFound id)).
Proof.
  intros Hv Hu Hl Hk. unfold Update. rewrite Hv, Hu, Hl. simpl.
  rewrite Hk. by destruct (tasks sh).
Qed.

Lemma Update_Ok_inv ms now id req ms' task' :
  Update ms now id req = (ms', Ok task') →
  UpdateTaskRequest.Validate req = None
  ∧ UpdateTaskRequest.HasUpdates req = true
  ∧ ∃ i m task, lock_shard ms id = Ok (i, mkShard (Some m))
       ∧ m !! id = Some task
       ∧ task' = UpdateTaskRequest.ApplyTo now req task
       ∧ ms' = set_tasks i (<[id := task']> m) ms.
Proof.
  unfold Update. destruct (UpdateTaskRequest.Validate req); [done|].
  destruct (UpdateTaskRequest.HasUpdates req); [|done]. simpl.
  destruct (lock_shard ms id) as [[i [[m|]]]| |] eqn:Hl; simpl; try done.
  unfold lookup_task; simpl. destruct (m !! id) as [task|] eqn:Hk; [|done].
  intros [= <- <-]. split_and!; try done. by exists i, m, task.
Qed.

Lemma Update_Err_inv ms now id req ms' e :
  Update ms now id req = (ms', Err e) →
  ms' = ms
  ∧ ((∃ ve, UpdateTaskRequest.Validate req = Some ve ∧ e = ValidationError ve)
     ∨ (UpdateTaskRequest.Validate req = None
        ∧ UpdateTaskRequest.HasUpdates req = false ∧ e = NoOpUpdate)
     ∨ (UpdateTaskRequest.Validate req = None
        ∧ UpdateTaskRequest.HasUpdates req = true ∧ e = NotFound id
        ∧ ∃ i sh, lock_shard ms id = Ok (i, sh) ∧ lookup_task sh id = None)).
Proof.
  unfold Update. destruct (UpdateTaskRequest.Validate req) as [ve|] eqn:Hv.
  { intros [= <- <-]. split; [done|]. left. by exists ve. }
  destruct (UpdateTaskRequest.HasUpdates req); simpl.
  2:{ intros [= <- <-]. split; [done|]. right. by left. }
  destruct (lock_shard ms id) as [[i sh]|e'|] eqn:Hl; simpl; try done.
  2:{ by destruct (lock_shard_not_Err ms id e'). }
  destruct sh as [[m|]]; unfold lookup_task; simpl.
  - destruct (m !! id) eqn:Hk; [done|]. intros [= <- <-]. split; [done|].
    right. right. split_and!; try done. eexists i, _. split; [done|].
    unfold lookup_task; simpl. done.
  - intros [= <- <-]. split; [done|].
    right. right. split_and!; try done. by eexists i, _.
Qed.

Lemma Delete_Ok ms id i m task :
  lock_shard ms id = Ok (i, mkShard (Some m)) → m !! id = Some task →
  Delete ms id
  = (set_taskCount (AddInt64 (taskCount ms) (-1)) (set_tasks i (delete id m) ms),
     Ok ()).
Proof.
  intros Hl Hk. unfold Delete. rewrite Hl. simpl.
  unfold lookup_task; simpl. by rewrite Hk.
Qed.

Lemma Delete_Ok_inv ms id ms' u :
  Delete ms id = (ms', Ok u) →
  ∃ i m task, lock_shard ms id = Ok (i, mkShard (Some m))
    ∧ m !! id = Some task
    ∧ ms' = set_taskCount (AddInt64 (taskCount ms) (-1))
              (set_tasks i (delete id m) ms).
Proof.
  unfold Delete.
  destruct (lock_shard ms id) as [[i [[m|]]]| |] eqn:Hl; simpl; try done.
  unfold lookup_task; simpl. destruct (m !! id) as [task|] eqn:Hk; [|done].
  intros [= <-]. by exists i, m, task.
Qed.

Lemma Delete_Err_inv ms id ms' e :
  Delete ms id = (ms', Err e) →
  ms' = ms ∧ e = NotFound id
  ∧ ∃ i sh, lock_shard ms id = Ok (i, sh) ∧ lookup_task sh id = None.
Proof.
  unfold Delete.
  destruct (lock_shard ms id) as [[i sh]|e'|] eqn:Hl; simpl; try done.
  2:{ by destruct (lock_shard_not_Err ms id e'). }
  destruct sh as [[m|]]; unfold lookup_task; simpl.
  - destruct (m !! id) eqn:Hk; [done|]. intros [= <- <-].
    split_and!; try done. eexists i, _. split; [done|].
    unfold lookup_task; simpl. done.
  - intros [= <- <-]. split_and!; try done. by eexists i, _.
Qed.

Lemma GetByID_Ok ms id i m task :
  lock_shard ms id = Ok (i, mkShard (Some m)) → m !! id = Some task →
  GetByID ms id = Ok task.
Proof.
  intros Hl Hk. unfold GetByID. rewrite Hl. simpl.
  unfold lookup_task; simpl. by rewrite Hk.
Qed.

Lemma GetByID_Ok_inv ms id task :
  GetByID ms id = Ok task →
  ∃ i m, lock_shard ms id = Ok (i, mkShard (Some m)) ∧ m !! id = Some task.
Proof.
  unfold GetByID.
  destruct (lock_shard ms id) as [[i [[m|]]]| |] eqn:Hl; simpl; try done.
  unfold lookup_task; simpl. destruct (m !! id) eqn:Hk; [|done].
  intros [= <-]. by exists i, m.
Qed.

(** ** Validation *)

Lemma is_empty_true name : is_empty name = true ↔ name = "".
Proof. by destruct name. Qed.

Lemma IsValid_true status :
  TaskStatus.IsValid status = true ↔ valid_status status.
Proof.
  unfold TaskStatus.IsValid, valid_status. rewrite orb_true_iff.
  by rewrite !Z.eqb_eq.
Qed.

Lemma name_check_None name :
  (if is_empty name then Some EmptyName
   else if 255 <? len name then Some NameTooLong else None) = None
  ↔ valid_name name.
Proof.
  unfold valid_name. destruct name as [|c name]; simpl.
  { split; [done|]. by intros [? _]. }
  destruct (Z.ltb_spec 255 (len (String c name))).
  - split; [done|]. intros [_ ?]. lia.
  - split; [|done]. intros _. split; [done|lia].
Qed.

Lemma status_check_None status :
  (if negb (TaskStatus.IsValid status) then Some (InvalidStatus status) else None)
  = None ↔ valid_status status.
Proof.
  rewrite <- IsValid_true. by destruct (TaskStatus.IsValid status).
Qed.

Lemma char_count_le_len s : char_count s ≤ len s.
Proof.
  unfold len. induction s as [|c s IH]; [done|].
  cbn [char_count String.length]. case_match; lia.
Qed.

Lemma CreateTaskRequest_Validate_None req :
  CreateTaskRequest.Validate req = None ↔
  valid_name (CreateTaskRequest.Name req)
  ∧ valid_status (CreateTaskRequest.Status req).
Proof.
  rewrite <- name_check_None, <- status_check_None.
  unfold CreateTaskRequest.Validate.
  destruct (is_empty _); [by split; [|intros [? _]]|].
  destruct (255 <? _); [by split; [|intros [? _]]|].
  destruct (negb _); [by split; [|intros [_ ?]]|done].
Qed.

Lemma UpdateTaskRequest_Validate_None req :
  UpdateTaskRequest.Validate req = None ↔
  (∀ name, UpdateTaskRequest.Name req = Some name → valid_name name)
  ∧ (∀ status, UpdateTaskRequest.Status req = Some status → valid_status status).
Proof.
  unfold UpdateTaskRequest.Validate.
  destruct req as [name status]; simpl.
  assert (Hn : (∀ n, name = Some n → valid_name n) ↔
               match name with
               | Some n => if is_empty n then Some EmptyName
                           else if 255 <? len n then Some NameTooLong else None
               | None => None
               end = None).
  { destruct name as [n|]; [|done]. rewrite name_check_None.
    split; [intros H; by apply H|by intros H ? [= <-]]. }
  assert (Hs : (∀ st, status = Some st → valid_status st) ↔
               match status with
               | Some st => if negb (TaskStatus.IsValid st)
                            then Some (InvalidStatus st) else None
               | None => None
               end = None).
  { destruct status as [st|]; [|done]. rewrite status_check_None.
    split; [intros H; by apply H|by intros H ? [= <-]]. }
  rewrite Hn, Hs.
  destruct (match name with Some _ => _ | None => _ end).
  - split; [done|]. by intros [? _].
  - split; [done|]. by intros [_ ?].
Qed.

Lemma ApplyTo_ID now req task :
  ID (UpdateTaskRequest.ApplyTo now req task) = ID task.
Proof. by destruct req as [[?|] [?|]]. Qed.

Lemma ApplyTo_CreatedAt now req task :
  CreatedAt (UpdateTaskRequest.ApplyTo now req task) = CreatedAt task.
Proof. by destruct req as [[?|] [?|]]. Qed.

Lemma ApplyTo_Name now req task :
  Name (UpdateTaskRequest.ApplyTo now req task)
  = default (Name task) (UpdateTaskRequest.Name req).
Proof. by destruct req as [[?|] [?|]]. Qed.

Lemma ApplyTo_Status now req task :
  Status (UpdateTaskRequest.ApplyTo now req task)
  = default (Status task) (UpdateTaskRequest.Status req).
Proof. by destruct req as [[?|] [?|]]. Qed.

Lemma ApplyTo_UpdatedAt now req task :
  UpdatedAt (UpdateTaskRequest.ApplyTo now req task)
  = if UpdateTaskRequest.HasUpdates req then now else UpdatedAt task.
Proof. by destruct req as [[?|] [?|]]. Qed.

(** ** The invariant of the store *)

Lemma lock_shard_slot ms key i sh :
  lock_shard ms key = Ok (i, sh) →
  i = shard_index ms key ∧ shards ms !! i = Some (Some sh).
Proof.
  intros [Hg Hs]%lock_shard_Ok. by destruct (getShard_inv _ _ _ Hg) as (-> & _ & _).
Qed.

Lemma stored_slot ms i m key task :
  shards ms !! i = Some (Some (mkShard (Some m))) → m !! key = Some task →
  stored ms i key task.
Proof. intros Hs Hk. eexists. split; [done|]. by rewrite shard_map_Some. Qed.

Lemma num_records_nonneg_counter ms : store_ok ms → 0 ≤ taskCount ms.
Proof. intros (_ & _ & Hc & _). lia. Qed.

Lemma store_ok_is_int_counter ms : store_ok ms → is_int (taskCount ms).
Proof.
  intros (_ & Hmax & Hc & _). unfold is_int, MinInt, MaxInt in *.
  rewrite two_pow_63 in *. lia.
Qed.

Lemma store_ok_insert ms i m key task :
  store_ok ms →
  shards ms !! i = Some (Some (mkShard (Some m))) → i = shard_index ms key →
  ID task = key → taskCount ms < maxTasks ms →
  store_ok (set_taskCount (AddInt64 (taskCount ms) 1)
              (set_tasks i (<[key := task]> m) ms)).
Proof.
  intros Hok Hs Hi Hid Hroom.
  pose proof (store_ok_is_int_counter _ Hok) as Hint.
  destruct Hok as (Hwf & Hmax & Hcnt & Hpl).
  assert (Hadd : AddInt64 (taskCount ms) 1 = taskCount ms + 1).
  { apply wrap_int_id. unfold is_int, MinInt, MaxInt in *.
    rewrite two_pow_63 in *. lia. }
  split_store_ok.
  - by apply (well_formed_set_tasks ms).
  - done.
  - simpl. rewrite Hadd.
    pose proof (num_records_set_tasks ms i _ (<[key := task]> m) Hs) as Hn.
    rewrite shard_map_Some, map_size_insert in Hn.
    unfold num_records in *; simpl in *.
    destruct (m !! key); simpl in Hn; lia.
  - intros j k t [(-> & _ & Hk)|[Hne Hst]]%stored_set_tasks.
    + apply lookup_insert_Some in Hk as [[<- <-]|[_ Hk]]; [done|].
      apply Hpl. by eapply stored_slot.
    + by apply Hpl.
Qed.

Lemma store_ok_replace ms i m key task old :
  store_ok ms →
  shards ms !! i = Some (Some (mkShard (Some m))) → i = shard_index ms key →
  m !! key = Some old → ID task = key →
  store_ok (set_tasks i (<[key := task]> m) ms).
Proof.
  intros (Hwf & Hmax & Hcnt & Hpl) Hs Hi Hold Hid. split_store_ok.
  - by apply well_formed_set_tasks.
  - done.
  - pose proof (num_records_set_tasks ms i _ (<[key := task]> m) Hs) as Hn.
    rewrite shard_map_Some, map_size_insert, Hold in Hn. simpl in *. lia.
  - intros j k t [(-> & _ & Hk)|[Hne Hst]]%stored_set_tasks.
    + apply lookup_insert_Some in Hk as [[<- <-]|[_ Hk]]; [done|].
      apply Hpl. by eapply stored_slot.
    + by apply Hpl.
Qed.

Lemma store_ok_delete ms i m key old :
  store_ok ms →
  shards ms !! i = Some (Some (mkShard (Some m))) → m !! key = Some old →
  store_ok (set_taskCount (AddInt64 (taskCount ms) (-1))
              (set_tasks i (delete key m) ms)).
Proof.
  intros Hok Hs Hold.
  pose proof (store_ok_is_int_counter _ Hok) as Hint.
  destruct Hok as (Hwf & Hmax & Hcnt & Hpl).
  pose proof (num_records_set_tasks ms i _ (delete key m) Hs) as Hn.
  rewrite shard_map_Some, map_size_delete, Hold in Hn.
  assert (size m ≠ 0%nat) as Hsz by (by eapply map_size_ne_0_lookup_2).
  assert (Hadd : AddInt64 (taskCount ms) (-1) = taskCount ms - 1).
  { apply wrap_int_id. unfold is_int, MinInt, MaxInt in *.
    rewrite two_pow_63 in *. simpl in Hn. lia. }
  split_store_ok.
  - by apply (well_formed_set_tasks ms).
  - done.
  - simpl. rewrite Hadd. unfold num_records in *; simpl in *. lia.
  - intros j k t [(-> & _ & Hk)|[Hne Hst]]%stored_set_tasks.
    + apply lookup_delete_Some in Hk as [_ Hk].
      apply Hpl. by eapply stored_slot.
    + by apply Hpl.
Qed.

(** ** Construction and [Clear] *)

Lemma init_loop_lookup (x : option shard) k a l j :
  fold_left (λ shards i, <[i := x]> shards) (seq a k) l !! j
  = if decide ((a ≤ j < a + k)%nat ∧ (j < length l)%nat) then Some x else l !! j.
Proof.
  revert a l. induction k as [|k IH]; intros a l; simpl.
  { case_decide; [lia|done]. }
  rewrite IH, length_insert, list_lookup_insert.
  repeat case_decide; try done; lia.
Qed.

Lemma init_shards_replicate n : init_shards n = replicate n empty_shard.
Proof.
  apply list_eq. intros j. unfold init_shards.
  rewrite init_loop_lookup, length_replicate.
  case_decide as Hj.
  - symmetry. apply lookup_replicate_2. lia.
  - destruct (decide (j < n)%nat); [lia|].
    rewrite !(proj1 (lookup_replicate_None _ _ _)); [done|lia..].
Qed.

Lemma shard_count_of_cases c :
  shard_count_of c = 8 ∨ shard_count_of c = 32 ∨ shard_count_of c = 64.
Proof. unfold shard_count_of. repeat case_match; auto. Qed.

Lemma NewMemoryStorage_eq maxTasks :
  NewMemoryStorage maxTasks
  = mk (replicate (Z.to_nat (shard_count_of (ceiling_of maxTasks))) empty_shard)
       (shard_count_of (ceiling_of maxTasks)) (ceiling_of maxTasks) 0.
Proof.
  unfold NewMemoryStorage. fold (ceiling_of maxTasks).
  fold (shard_count_of (ceiling_of maxTasks)).
  rewrite init_shards_replicate. f_equal.
  destruct (shard_count_of_cases (ceiling_of maxTasks)) as [->|[->| ->]];
    reflexivity.
Qed.

Lemma initialized_empty_shard : initialized empty_shard.
Proof. by exists ∅. Qed.

Lemma stored_replicate_empty ms n i key task :
  shards ms = replicate n empty_shard → ¬ stored ms i key task.
Proof.
  intros Hs (s & Hi & Hk). rewrite Hs in Hi.
  apply lookup_replicate in Hi as [-> _].
  unfold empty_shard in Hk. rewrite shard_map_Some in Hk. by rewrite lookup_empty in Hk.
Qed.

Lemma num_records_replicate_empty ms n :
  shards ms = replicate n empty_shard → num_records ms = 0%nat.
Proof.
  intros Hs. unfold num_records. rewrite Hs. clear Hs.
  rewrite fmap_replicate, sum_list_replicate.
  unfold empty_shard. rewrite shard_map_Some, map_size_empty. lia.
Qed.

Lemma store_ok_all_empty ms n :
  shards ms = replicate n empty_shard → Z.of_nat n = shardCount ms →
  0 < shardCount ms → 0 < maxTasks ms ≤ MaxInt → taskCount ms = 0 →
  store_ok ms.
Proof.
  intros Hs Hn Hpos Hmax Hc. split_store_ok.
  - split_and!; [|by rewrite Hs, length_replicate|done].
    rewrite Hs. apply Forall_replicate, initialized_empty_shard.
  - done.
  - rewrite (num_records_replicate_empty ms n Hs), Hc. lia.
  - intros i key task Hst. by destruct (stored_replicate_empty ms n i key task).
Qed.

Lemma store_ok_NewMemoryStorage maxTasks :
  is_int maxTasks → store_ok (NewMemoryStorage maxTasks).
Proof.
  intros Hint. rewrite NewMemoryStorage_eq.
  eapply store_ok_all_empty; simpl; try done.
  - destruct (shard_count_of_cases (ceiling_of maxTasks)) as [->|[->| ->]]; done.
  - destruct (shard_count_of_cases (ceiling_of maxTasks)) as [->|[->| ->]]; done.
  - unfold ceiling_of, is_int, MinInt, MaxInt in *. rewrite two_pow_63 in *.
    case_match; lia.
Qed.

Lemma Clear_loop_Ok visited todo :
  Forall is_Some todo →
  Clear_loop visited todo
  = (visited ++ replicate (length todo) empty_shard, Ok ()).
Proof.
  intros Hall. revert visited.
  induction Hall as [|s todo [sh ->] _ IH]; intros visited; simpl.
  { by rewrite app_nil_r. }
  rewrite IH. by rewrite <- app_assoc.
Qed.

Lemma Clear_well_formed ms :
  well_formed ms →
  Clear ms
  = (mk (replicate (length (shards ms)) empty_shard)
        (shardCount ms) (maxTasks ms) 0, Ok ()).
Proof.
  intros (Hall & _ & _). unfold Clear. rewrite Clear_loop_Ok; [done|].
  eapply Forall_impl; [done|]. intros ? [m ->]. done.
Qed.

Lemma store_ok_Clear ms : store_ok ms → store_ok (Clear ms).1.
Proof.
  intros (Hwf & Hmax & _ & _). rewrite (Clear_well_formed ms Hwf); simpl.
  destruct Hwf as (_ & Hlen & Hpos).
  by eapply store_ok_all_empty.
Qed.

(** ** Every call preserves the invariant *)

Lemma Create_fst ms uuid now req ms' r :
  Create ms uuid now req = (ms', r) → (∃ task, r = Ok task) ∨ ms' = ms.
Proof.
  unfold Create. repeat case_match; intros [= <- <-]; eauto.
Qed.

Lemma Update_fst ms now id req ms' r :
  Update ms now id req = (ms', r) → (∃ task, r = Ok task) ∨ ms' = ms.
Proof.
  unfold Update. repeat case_match; intros [= <- <-]; eauto.
Qed.

Lemma Delete_fst ms id ms' r :
  Delete ms id = (ms', r) → r = Ok () ∨ ms' = ms.
Proof.
  unfold Delete. repeat case_match; intros [= <- <-]; eauto.
Qed.

Lemma records_ok_mono clock now ms :
  records_ok clock ms → clock ≤ now → records_ok now ms.
Proof.
  intros H Hle i key task Hst. destruct (H _ _ _ Hst). split; [done|lia].
Qed.

Lemma record_ok_created uuid now req :
  CreateTaskRequest.Validate req = None → record_ok (created uuid now req).
Proof.
  intros [Hn Hs]%CreateTaskRequest_Validate_None.
  unfold record_ok; simpl. split_and!; [done..|lia].
Qed.

Lemma record_ok_ApplyTo clock now req task :
  UpdateTaskRequest.Validate req = None →
  record_ok task → UpdatedAt task ≤ clock → clock ≤ now →
  record_ok (UpdateTaskRequest.ApplyTo now req task)
  ∧ UpdatedAt (UpdateTaskRequest.ApplyTo now req task) ≤ now.
Proof.
  intros [Hn Hs]%UpdateTaskRequest_Validate_None (Hname & Hstatus & Hle) Hc Hnow.
  unfold record_ok.
  rewrite ApplyTo_Name, ApplyTo_Status, ApplyTo_CreatedAt, ApplyTo_UpdatedAt.
  split_and!.
  - destruct (UpdateTaskRequest.Name req); simpl; auto.
  - destruct (UpdateTaskRequest.Status req); simpl; auto.
  - case_match; lia.
  - case_match; lia.
Qed.

Lemma inv_Create ms clock now uuid req :
  inv clock ms → clock ≤ now → inv now (Create ms uuid now req).1.
Proof.
  intros [Hok Hrec] Hle.
  destruct (Create ms uuid now req) as [ms' r] eqn:E; simpl.
  destruct (Create_fst _ _ _ _ _ _ E) as [[task ->]| ->];
    [|by split; [|eapply records_ok_mono]].
  apply Create_Ok_inv in E as (Hv & Hroom & -> & i & m & Hl & ->).
  apply lock_shard_slot in Hl as [Hi Hs]. split.
  - by apply store_ok_insert.
  - intros j k t [(-> & _ & Hk)|[Hne Hst]]%stored_set_tasks.
    + apply lookup_insert_Some in Hk as [[<- <-]|[_ Hk]].
      * split; [by apply record_ok_created|]. simpl. lia.
      * eapply (records_ok_mono clock); [done..|]. by eapply stored_slot.
    + by eapply (records_ok_mono clock).
Qed.

Lemma inv_Update ms clock now id req :
  inv clock ms → clock ≤ now → inv now (Update ms now id req).1.
Proof.
  intros [Hok Hrec] Hle.
  destruct (Update ms now id req) as [ms' r] eqn:E; simpl.
  destruct (Update_fst _ _ _ _ _ _ E) as [[task' ->]| ->];
    [|by split; [|eapply records_ok_mono]].
  apply Update_Ok_inv in E as (Hv & Hu & i & m & task & Hl & Hk & -> & ->).
  apply lock_shard_slot in Hl as [Hi Hs].
  pose proof (stored_slot _ _ _ _ _ Hs Hk) as Hst.
  destruct (Hrec _ _ _ Hst) as [Hr Hup].
  destruct Hok as (Hwf & Hmax & Hcnt & Hpl).
  destruct (Hpl _ _ _ Hst) as [Hid _]. split.
  - eapply store_ok_replace; try done. by rewrite ApplyTo_ID.
  - intros j k t [(-> & _ & Hk')|[Hne Hst']]%stored_set_tasks.
    + apply lookup_insert_Some in Hk' as [[<- <-]|[_ Hk']].
      * by eapply record_ok_ApplyTo.
      * eapply (records_ok_mono clock); [done..|]. by eapply stored_slot.
    + by eapply (records_ok_mono clock).
Qed.

Lemma inv_Delete ms clock now id :
  inv clock ms → clock ≤ now → inv now (Delete ms id).1.
Proof.
  intros [Hok Hrec] Hle.
  destruct (Delete ms id) as [ms' r] eqn:E; simpl.
  destruct (Delete_fst _ _ _ _ E) as [->| ->];
    [|by split; [|eapply records_ok_mono]].
  apply Delete_Ok_inv in E as (i & m & task & Hl & Hk & ->).
  apply lock_shard_slot in Hl as [Hi Hs]. split.
  - by eapply store_ok_delete.
  - intros j k t [(-> & _ & Hk')|[Hne Hst']]%stored_set_tasks.
    + apply lookup_delete_Some in Hk' as [_ Hk'].
      eapply (records_ok_mono clock); [done..|]. by eapply stored_slot.
    + by eapply (records_ok_mono clock).
Qed.

Lemma inv_Clear ms clock now :
  inv clock ms → inv now (Clear ms).1.
Proof.
  intros [Hok Hrec]. split; [by apply store_ok_Clear|].
  destruct Hok as (Hwf & _). rewrite (Clear_well_formed ms Hwf); simpl.
  intros i key task Hst.
  exfalso. eapply stored_replicate_empty; [|exact Hst]. reflexivity.
Qed.

Lemma inv_exec ms clock now c :
  inv clock ms → clock ≤ now → inv now (exec ms now c).
Proof.
  intros Hinv Hle. destruct c as [uuid req|id req|id|]; simpl.
  - by eapply inv_Create.
  - by eapply inv_Update.
  - by eapply inv_Delete.
  - by eapply inv_Clear.
Qed.

Lemma inv_NewMemoryStorage maxTasks clock :
  is_int maxTasks → inv clock (NewMemoryStorage maxTasks).
Proof.
  intros Hint. split; [by apply store_ok_NewMemoryStorage|].
  intros i key task Hst. rewrite NewMemoryStorage_eq in Hst.
  exfalso. eapply stored_replicate_empty; [|exact Hst]. reflexivity.
Qed.

Lemma reachable_inv ms clock : reachable ms clock → inv clock ms.
Proof.
  induction 1 as [maxTasks clock Hint|ms clock now c _ IH Hle].
  - by apply inv_NewMemoryStorage.
  - by eapply inv_exec.
Qed.

(** ** The global reads *)

Lemma fold_append (l acc : list Task) :
  fold_left (λ allTasks task, allTasks ++ [task]) l acc = acc ++ l.
Proof.
  revert acc. induction l as [|x l IH]; intros acc; simpl.
  - by rewrite app_nil_r.
  - by rewrite IH, <- app_assoc.
Qed.

Lemma fold_append_if (P : Task → Prop) `{!∀ x, Decision (P x)}
    (b : Task → bool) (l acc : list Task) :
  (∀ x, b x = true ↔ P x) →
  fold_left (λ tasks task, if b task then tasks ++ [task] else tasks) l acc
  = acc ++ filter P l.
Proof.
  intros Hb. revert acc. induction l as [|x l IH]; intros acc; simpl.
  - by rewrite app_nil_r.
  - rewrite IH, filter_cons. specialize (Hb x).
    destruct (b x), (decide (P x)) as [HP|HP]; try done.
    + by rewrite <- app_assoc.
    + by destruct HP; apply Hb.
    + by apply Hb in HP.
Qed.

Lemma range_shards_Ok o body ss acc :
  Forall is_Some ss →
  range_shards o body ss acc = Ok (fold_left body (visited o ss) acc).
Proof.
  intros Hall. revert acc.
  induction Hall as [|s ss [sh ->] _ IH]; intros acc; [done|].
  simpl. rewrite IH. unfold visited; simpl. by rewrite fold_left_app.
Qed.

Lemma range_shards_Ok_inv o body ss acc l :
  range_shards o body ss acc = Ok l →
  Forall is_Some ss ∧ l = fold_left body (visited o ss) acc.
Proof.
  revert acc. induction ss as [|[sh|] ss IH]; intros acc; simpl.
  - intros [= <-]. done.
  - intros [Hall ->]%IH. split; [by constructor|].
    unfold visited; simpl. by rewrite fold_left_app.
  - done.
Qed.

Lemma well_formed_is_Some ms : well_formed ms → Forall is_Some (shards ms).
Proof.
  intros (Hall & _). eapply Forall_impl; [done|]. by intros ? [m ->].
Qed.

Lemma length_range_tasks o s :
  length (from_option (range_tasks o) [] s) = size (shard_map s).
Proof.
  destruct s as [[[m|]]|]; simpl; try done.
  unfold range_tasks; simpl.
  by rewrite length_fmap, (enum_perm o m), length_map_to_list.
Qed.

Lemma length_visited o ms : length (visited o (shards ms)) = num_records ms.
Proof.
  unfold visited, num_records.
  induction (shards ms) as [|s ss IH]; [done|]; csimpl.
  by rewrite length_app, length_range_tasks, IH.
Qed.

Lemma elem_of_range_tasks o s task :
  task ∈ from_option (range_tasks o) [] s ↔ ∃ key, shard_map s !! key = Some task.
Proof.
  destruct s as [[[m|]]|]; simpl.
  2-3: rewrite elem_of_nil; split; [done|]; intros [key Hk];
       unfold shard_map in Hk; simpl in Hk; by rewrite lookup_empty in Hk.
  unfold range_tasks; simpl. rewrite shard_map_Some.
  rewrite list_elem_of_fmap. split.
  - intros ([key t] & -> & Hin). rewrite (enum_perm o m) in Hin.
    apply elem_of_map_to_list in Hin. by exists key.
  - intros [key Hk]. exists (key, task). split; [done|].
    rewrite (enum_perm o m). by apply elem_of_map_to_list.
Qed.

Lemma elem_of_visited o ms task :
  task ∈ visited o (shards ms) ↔ ∃ i key, stored ms i key task.
Proof.
  unfold visited, stored. rewrite list_elem_of_join. split.
  - intros (l & Hin & (s & -> & Hs)%list_elem_of_fmap).
    apply elem_of_range_tasks in Hin as [key Hk].
    apply list_elem_of_lookup in Hs as [i Hi]. by exists i, key, s.
  - intros (i & key & s & Hi & Hk). eexists. split.
    + apply elem_of_range_tasks. by exists key.
    + apply list_elem_of_fmap. exists s. split; [done|].
      by eapply list_elem_of_lookup_2.
Qed.

Lemma visited_perm o1 o2 ss : visited o1 ss ≡ₚ visited o2 ss.
Proof.
  unfold visited. induction ss as [|s ss IH]; [done|]; simpl.
  apply Permutation_app; [|done].
  destruct s as [[[m|]]|]; simpl; try done.
  unfold range_tasks; simpl.
  by rewrite (enum_perm o1 m), (enum_perm o2 m).
Qed.

Lemma max_cap_eq : max_cap = 35184372088832.
Proof. reflexivity. Qed.

Lemma make_cap_Ok n : 0 ≤ n ≤ max_cap → make_cap n = Ok [].
Proof.
  unfold make_cap, max_cap, maxAlloc. intros Hn.
  change (2 ^ 48 `div` 8) with 35184372088832 in Hn.
  change (2 ^ 48) with 281474976710656.
  destruct (Z.ltb_spec n 0); [lia|].
  destruct (Z.ltb_spec 281474976710656 (8 * n)); [lia|]. done.
Qed.

Lemma make_cap_Panic n :
  n < 0 ∨ max_cap < n → make_cap n = Panic MakeSliceCap.
Proof.
  unfold make_cap, max_cap, maxAlloc. intros Hn.
  change (2 ^ 48 `div` 8) with 35184372088832 in Hn.
  change (2 ^ 48) with 281474976710656.
  destruct (Z.ltb_spec n 0); [done|].
  destruct (Z.ltb_spec 281474976710656 (8 * n)); [done|lia].
Qed.

Lemma GetAll_Ok o ms :
  well_formed ms → 0 ≤ taskCount ms ≤ max_cap →
  GetAll o ms = Ok (visited o (shards ms)).
Proof.
  intros Hwf Hc. unfold GetAll. rewrite make_cap_Ok by done. simpl.
  rewrite range_shards_Ok by by apply well_formed_is_Some.
  by rewrite fold_append.
Qed.

Lemma GetAll_Panic o ms :
  taskCount ms < 0 ∨ max_cap < taskCount ms →
  GetAll o ms = Panic MakeSliceCap.
Proof. intros Hc. unfold GetAll. by rewrite make_cap_Panic. Qed.

Lemma GetTasksByStatus_Ok o ms status :
  well_formed ms →
  GetTasksByStatus o ms status
  = Ok (filter (λ task, Status task = status) (visited o (shards ms))).
Proof.
  intros Hwf. unfold GetTasksByStatus.
  rewrite range_shards_Ok by by apply well_formed_is_Some.
  rewrite (fold_append_if (λ task, Status task = status)); [done|].
  intros x. apply Z.eqb_eq.
Qed.

Lemma GetTasksByStatus_Ok_inv o ms status l :
  GetTasksByStatus o ms status = Ok l →
  l = filter (λ task, Status task = status) (visited o (shards ms)).
Proof.
  unfold GetTasksByStatus. intros [_ ->]%range_shards_Ok_inv.
  rewrite (fold_append_if (λ task, Status task = status)); [done|].
  intros x. apply Z.eqb_eq.
Qed.

Lemma length_filter_status (l : list Task) :
  Forall (λ task, valid_status (Status task)) l →
  (length (filter (λ task, Status task = TaskStatus.TaskIncomplete) l)
   + length (filter (λ task, Status task = TaskStatus.TaskCompleted) l)
   = length l)%nat.
Proof.
  induction 1 as [|x l Hx _ IH]; [done|].
  rewrite !filter_cons.
  destruct Hx as [Hx|Hx]; rewrite Hx;
    repeat case_decide; try done; simpl; lia.
Qed.

Lemma getShard_set_tasks ms i m key :
  getShard (set_tasks i m ms) key = getShard ms key.
Proof.
  unfold getShard; simpl. destruct (shardCount ms =? 0); [done|].
  rewrite list_lookup_insert. case_decide as Hi; [|done].
  destruct Hi as [<- Hlt]. by destruct (lookup_lt_is_Some_2 _ _ Hlt) as [s ->].
Qed.

Lemma lock_shard_set_tasks ms key i sh m :
  lock_shard ms key = Ok (i, sh) →
  lock_shard (set_tasks i m ms) key = Ok (i, mkShard (Some m)).
Proof.
  intros [Hg Hs]%lock_shard_Ok. apply lock_shard_Ok.
  rewrite getShard_set_tasks. split; [done|]. simpl.
  apply list_lookup_insert_eq. by eapply lookup_lt_Some.
Qed.

Lemma GetByID_absent ms id i sh :
  lock_shard ms id = Ok (i, sh) → lookup_task sh id = None →
  GetByID ms id = Err (NotFound id).
Proof. intros Hl Hk. unfold GetByID. rewrite Hl. simpl. by rewrite Hk. Qed.

Lemma GetByID_Err_inv ms id e :
  GetByID ms id = Err e →
  e = NotFound id ∧ ∃ i sh, lock_shard ms id = Ok (i, sh) ∧ lookup_task sh id = None.
Proof.
  unfold GetByID. destruct (lock_shard ms id) as [[i sh]|e'|] eqn:Hl; simpl.
  - destruct (lookup_task sh id) eqn:Hk; [done|]. intros [= <-].
    split; [done|]. by exists i, sh.
  - by destruct (lock_shard_not_Err ms id e').
  - done.
Qed.

(** ** Atomicity on error *)

(** C9. Whenever [Create], [Update] or [Delete] returns an error, the store
    is unchanged: the store after the call is the store before it, so the
    records of every shard and the value of [Count] are the same; and the
    error is a validation error, the capacity error, the error of an empty
    update or the error of an absent id. *)
Theorem error_leaves_store_unchanged :
  (∀ ms uuid now req ms' e,
     Create ms uuid now req = (ms', Err e) →
     ms' = ms ∧ shards ms' = shards ms ∧ Count ms' = Count ms
     ∧ ((∃ ve, e = ValidationError ve) ∨ e = CapacityExceeded (maxTasks ms)))
  ∧ (∀ ms now id req ms' e,
     Update ms now id req = (ms', Err e) →
     ms' = ms ∧ shards ms' = shards ms ∧ Count ms' = Count ms
     ∧ ((∃ ve, e = ValidationError ve) ∨ e = NoOpUpdate ∨ e = NotFound id))
  ∧ (∀ ms id ms' e,
     Delete ms id = (ms', Err e) →
     ms' = ms ∧ shards ms' = shards ms ∧ Count ms' = Count ms
     ∧ e = NotFound id).
Proof.
  split_and!.
  - intros ms uuid now req ms' e [-> He]%Create_Err_inv. split_and!; try done.
    destruct He as [(ve & _ & ->)|(_ & _ & ->)]; eauto.
  - intros ms now id req ms' e [-> He]%Update_Err_inv. split_and!; try done.
    destruct He as [(ve & _ & ->)|[(_ & _ & ->)|(_ & _ & -> & _)]]; eauto.
  - by intros ms id ms' e (-> & -> & _)%Delete_Err_inv.
Qed.

Lemma error_leaves_store_unchanged_witness :
  (Create store_AB "id-C" 7 req_C).1 = store_AB
  ∧ (Create store_A "id-C" 7 req_empty_name).1 = store_A
  ∧ (Update store_AB 7 "id-C" (UpdateTaskRequest.mk (Some "C") None)).1 = store_AB
  ∧ (Delete store_AB "id-C").1 = store_AB.
Proof.
  destruct error_leaves_store_unchanged as (HC & HU & HD). split_and!.
  - refine (proj1 (HC store_AB "id-C" 7 req_C _ (CapacityExceeded 2) _)).
    vm_compute. reflexivity.
  - refine (proj1 (HC store_A "id-C" 7 req_empty_name _
                      (ValidationError EmptyName) _)).
    vm_compute. reflexivity.
  - refine (proj1 (HU store_AB 7 "id-C" (UpdateTaskRequest.mk (Some "C") None)
                      _ (NotFound "id-C") _)).
    vm_compute. reflexivity.
  - refine (proj1 (HD store_AB "id-C" _ (NotFound "id-C") _)).
    vm_compute. reflexivity.
Defined.

(** ** Error precedence *)

(** C10. [Create] validates before it looks at the capacity: an invalid
    request is answered with the validation error whatever the counter is,
    so also against a full store.  [Update] validates first, then checks
    that a field is supplied, then looks the id up: an invalid field is
    answered with the validation error and an empty update with
    [NoOpUpdate] whether the id exists or not, and [NotFound] is returned
    exactly for a valid update with a field supplied on an absent id. *)
Theorem error_precedence :
  (∀ ms uuid now req ve,
     CreateTaskRequest.Validate req = Some ve →
     Create ms uuid now req = (ms, Err (ValidationError ve)))
  ∧ (∀ ms now id req ve,
     UpdateTaskRequest.Validate req = Some ve →
     Update ms now id req = (ms, Err (ValidationError ve)))
  ∧ (∀ ms now id req,
     UpdateTaskRequest.HasUpdates req = false →
     Update ms now id req = (ms, Err NoOpUpdate))
  ∧ (∀ ms now id req ms' id',
     Update ms now id req = (ms', Err (NotFound id')) →
     UpdateTaskRequest.Validate req = None
     ∧ UpdateTaskRequest.HasUpdates req = true
     ∧ id' = id ∧ GetByID ms id = Err (NotFound id))
  ∧ (∀ ms now id req,
     UpdateTaskRequest.Validate req = None →
     UpdateTaskRequest.HasUpdates req = true →
     GetByID ms id = Err (NotFound id) →
     Update ms now id req = (ms, Err (NotFound id))).
Proof.
  split_and!.
  - intros. by apply Create_invalid.
  - intros. by apply Update_invalid.
  - intros. by apply Update_empty.
  - intros ms now id req ms' id' [-> He]%Update_Err_inv.
    destruct He as [(ve & _ & ?)|[(_ & _ & ?)|(Hv & Hu & [= ->] & i & sh & Hl & Hk)]];
      try done.
    split_and!; try done. by eapply GetByID_absent.
  - intros ms now id req Hv Hu (_ & i & sh & Hl & Hk)%GetByID_Err_inv.
    by eapply Update_absent.
Qed.

Lemma error_precedence_witness :
  Create store_AB "id-C" 7 req_empty_name
    = (store_AB, Err (ValidationError EmptyName))
  ∧ Update store_AB 7 "id-C" (UpdateTaskRequest.mk (Some "") None)
    = (store_AB, Err (ValidationError EmptyName))
  ∧ Update store_AB 7 "id-C" (UpdateTaskRequest.mk None None)
    = (store_AB, Err NoOpUpdate)
  ∧ GetByID store_AB "id-C" = Err (NotFound "id-C")
  ∧ Update store_AB 7 "id-C" (UpdateTaskRequest.mk None (Some 1))
    = (store_AB, Err (NotFound "id-C")).
Proof.
  destruct error_precedence as (H1 & H2 & H3 & H4 & H5). split_and!.
  - apply H1. reflexivity.
  - apply H2. reflexivity.
  - apply H3. reflexivity.
  - refine (proj2 (proj2 (proj2
      (H4 store_AB 7 "id-C" (UpdateTaskRequest.mk None (Some 1))
          store_AB "id-C" _)))).
    vm_compute. reflexivity.
  - apply H5; [reflexivity..|]. vm_compute. reflexivity.
Defined.

(** ** Round trip *)

(** C2. For a valid input (name non-empty and of at most 255 bytes, status
    one of the two valid values) and a clock that does not read the zero
    time, a successful [Create] followed by [GetByID] on the returned id
    yields the record [Create] returned: its name and status are the ones
    supplied and both timestamps are the reading of the clock, which is not
    the zero value.  On a well-formed store below its ceiling such a
    [Create] does succeed. *)
Theorem create_get_round_trip ms uuid now req :
  valid_name (CreateTaskRequest.Name req) →
  valid_status (CreateTaskRequest.Status req) →
  now ≠ zeroTime →
  (∀ ms' task,
     Create ms uuid now req = (ms', Ok task) →
     ∃ got, GetByID ms' (ID task) = Ok got
       ∧ got = task
       ∧ Name got = CreateTaskRequest.Name req
       ∧ Status got = CreateTaskRequest.Status req
       ∧ CreatedAt got = now ∧ UpdatedAt got = now
       ∧ CreatedAt got ≠ zeroTime ∧ UpdatedAt got ≠ zeroTime)
  ∧ (well_formed ms → Count ms < maxTasks ms →
     ∃ ms' task, Create ms uuid now req = (ms', Ok task) ∧ ID task = uuid).
Proof.
  intros Hn Hs Hnow. split.
  - intros ms' task (_ & _ & -> & i & m & Hl & ->)%Create_Ok_inv.
    exists (created uuid now req). split_and!; try done.
    eapply GetByID_Ok.
    + apply (lock_shard_set_tasks _ _ _ _ _ Hl).
    + simpl. apply lookup_insert_eq.
  - intros Hwf Hroom.
    destruct (lock_shard_well_formed ms uuid Hwf) as (m & Hl & _).
    eexists _, (created uuid now req). split; [|done].
    apply Create_Ok; [|done..]. by apply CreateTaskRequest_Validate_None.
Qed.

Lemma create_get_round_trip_witness :
  ∃ got, GetByID store_AB "id-B" = Ok got
    ∧ Name got = "B" ∧ Status got = TaskStatus.TaskCompleted
    ∧ CreatedAt got ≠ zeroTime ∧ UpdatedAt got ≠ zeroTime.
Proof.
  assert (Hn : valid_name (CreateTaskRequest.Name req_B)).
  { split; [discriminate|]. vm_compute. discriminate. }
  assert (Hs : valid_status (CreateTaskRequest.Status req_B)).
  { right. reflexivity. }
  assert (Hnow : (6 : Time) ≠ zeroTime) by discriminate.
  destruct (create_get_round_trip store_A "id-B" 6 req_B Hn Hs Hnow) as [H _].
  destruct (H store_AB (created "id-B" 6 req_B)) as (got & Hg & _ & ? & ? & _ & _ & ? & ?).
  { vm_compute. reflexivity. }
  exists got. split_and!; done.
Defined.

(** ** Update *)

Lemma reachable_stored_GetByID ms clock id task :
  reachable ms clock → GetByID ms id = Ok task →
  stored ms (shard_index ms id) id task
  ∧ ID task = id ∧ record_ok task ∧ UpdatedAt task ≤ clock.
Proof.
  intros [Hok Hrec]%reachable_inv (i & m & Hl & Hk)%GetByID_Ok_inv.
  apply lock_shard_slot in Hl as [-> Hs].
  pose proof (stored_slot _ _ _ _ _ Hs Hk) as Hst.
  destruct Hok as (_ & _ & _ & Hpl).
  destruct (Hpl _ _ _ Hst) as [? _]. destruct (Hrec _ _ _ Hst). done.
Qed.

(** C3. For a record that exists in a reachable store, and a clock that
    does not go back: a valid [Update] with a field supplied succeeds, is
    what [GetByID] returns afterwards, and sets the fields supplied;
    whatever the request, after the call the record under that id has its
    status unchanged when no status is supplied, its name unchanged when no
    name is supplied, the same id and [created_at], and an [updated_at]
    that is not less than the one before.  A valid
    [Update] with a field supplied on an id that does not exist returns
    [NotFound], and an [Update] with neither field supplied returns
    [NoOpUpdate]. *)
Theorem update_semantics :
  (∀ ms clock now id req old,
     reachable ms clock → clock ≤ now → GetByID ms id = Ok old →
     (UpdateTaskRequest.Validate req = None →
      UpdateTaskRequest.HasUpdates req = true →
      ∃ ms' new, Update ms now id req = (ms', Ok new)
        ∧ GetByID ms' id = Ok new
        ∧ Name new = default (Name old) (UpdateTaskRequest.Name req)
        ∧ Status new = default (Status old) (UpdateTaskRequest.Status req)
        ∧ UpdatedAt new = now)
     ∧ (∃ cur, GetByID (Update ms now id req).1 id = Ok cur
        ∧ (UpdateTaskRequest.Status req = None → Status cur = Status old)
        ∧ (UpdateTaskRequest.Name req = None → Name cur = Name old)
        ∧ ID cur = ID old ∧ CreatedAt cur = CreatedAt old
        ∧ UpdatedAt old ≤ UpdatedAt cur))
  ∧ (∀ ms now id req,
     GetByID ms id = Err (NotFound id) →
     UpdateTaskRequest.Validate req = None →
     UpdateTaskRequest.HasUpdates req = true →
     Update ms now id req = (ms, Err (NotFound id)))
  ∧ (∀ ms now id,
     Update ms now id (UpdateTaskRequest.mk None None) = (ms, Err NoOpUpdate)).
Proof.
  split_and!.
  - intros ms clock now id req old Hreach Hle Hget.
    destruct (reachable_stored_GetByID _ _ _ _ Hreach Hget) as (_ & _ & _ & Hup).
    pose proof Hget as (i & m & Hl & Hk)%GetByID_Ok_inv.
    assert (Hsucc : UpdateTaskRequest.Validate req = None →
              UpdateTaskRequest.HasUpdates req = true →
              Update ms now id req
              = (set_tasks i (<[id := UpdateTaskRequest.ApplyTo now req old]> m) ms,
                 Ok (UpdateTaskRequest.ApplyTo now req old))
              ∧ GetByID (set_tasks i (<[id := UpdateTaskRequest.ApplyTo now req old]> m) ms) id
                = Ok (UpdateTaskRequest.ApplyTo now req old)).
    { intros Hv Hu. split; [by eapply Update_Ok|].
      eapply GetByID_Ok; [by eapply lock_shard_set_tasks|].
      apply lookup_insert_eq. }
    split.
    + intros Hv Hu. destruct (Hsucc Hv Hu) as [HU HG].
      eexists _, _. split; [exact HU|]. split; [exact HG|].
      rewrite ApplyTo_Name, ApplyTo_Status, ApplyTo_UpdatedAt, Hu.
      by split_and!.
    + destruct (Update ms now id req) as [ms' r] eqn:E.
      destruct (Update_fst _ _ _ _ _ _ E) as [[new ->]| ->]; simpl.
      * pose proof E as (Hv & Hu & _)%Update_Ok_inv.
        destruct (Hsucc Hv Hu) as [HU HG].
        injection HU as -> ->. eexists. split; [exact HG|].
        rewrite ApplyTo_ID, ApplyTo_CreatedAt, ApplyTo_UpdatedAt, Hu.
        rewrite ApplyTo_Name, ApplyTo_Status.
        split_and!; [by intros ->|by intros ->|done..|lia].
      * exists old. split_and!; [done..|lia].
  - intros ms now id req (_ & i & sh & Hl & Hk)%GetByID_Err_inv Hv Hu.
    by eapply Update_absent.
  - intros. by apply Update_empty.
Qed.

Lemma reachable_store_A : reachable store_A 5.
Proof.
  apply (reachable_step (NewMemoryStorage 2) 0 5 (CallCreate "id-A" req_A)).
  - apply reachable_new. vm_compute. split; discriminate.
  - vm_compute. discriminate.
Defined.

Lemma reachable_store_AB : reachable store_AB 6.
Proof.
  apply (reachable_step store_A 5 6 (CallCreate "id-B" req_B)).
  - exact reachable_store_A.
  - vm_compute. discriminate.
Defined.

Lemma update_semantics_witness :
  (∃ ms' new,
     Update store_AB 9 "id-A" (UpdateTaskRequest.mk (Some "A2") None) = (ms', Ok new)
     ∧ Status new = TaskStatus.TaskIncomplete ∧ UpdatedAt new = 9)
  ∧ Update store_AB 9 "id-C" (UpdateTaskRequest.mk (Some "C") None)
    = (store_AB, Err (NotFound "id-C")).
Proof.
  destruct update_semantics as (H1 & H2 & _). split.
  - destruct (H1 store_AB 6 9 "id-A" (UpdateTaskRequest.mk (Some "A2") None)
                 (created "id-A" 5 req_A) reachable_store_AB) as [H _].
    + vm_compute. discriminate.
    + vm_compute. reflexivity.
    + destruct H as (ms' & new & HU & _ & _ & Hs & Ht); [reflexivity..|].
      exists ms', new. split_and!; [exact HU|exact Hs|exact Ht].
  - apply H2; [|reflexivity..]. vm_compute. reflexivity.
Defined.

(** ** Shard selection *)

Lemma reachable_stored_found ms clock i key task :
  reachable ms clock → stored ms i key task →
  i = shard_index ms key
  ∧ ∃ m, lock_shard ms key = Ok (i, mkShard (Some m)) ∧ m !! key = Some task.
Proof.
  intros [Hok _]%reachable_inv Hst.
  destruct Hok as (Hwf & _ & _ & Hpl).
  destruct (Hpl _ _ _ Hst) as [_ ->]. split; [done|].
  destruct (lock_shard_well_formed ms key Hwf) as (m & Hl & Hs).
  exists m. split; [done|].
  destruct Hst as (s & Hs' & Hk). rewrite Hs in Hs'. injection Hs' as <-.
  by rewrite shard_map_Some in Hk.
Qed.

(** C7. [fnv32Hash] is the FNV-1a hash on 32 bits of the bytes of the id
    (offset basis 2166136261, prime 16777619, xor then multiply for every
    byte), and [getShard] selects the slot [hash mod shardCount].  The slot
    depends on the id and the number of shards only, and is less than the
    number of shards.  So the record a successful [Create] inserts is found
    by [GetByID], [Update] and [Delete] on the same id, and in every
    reachable store every record sits in the shard its id selects, where
    the three calls find it. *)
Theorem shard_selection :
  (∀ key, fnv32Hash key = fnv1a_32 (bytes_of key))
  ∧ (∀ ms key i,
     0 < shardCount ms → getShard ms key = Ok i →
     Z.of_nat i = fnv32Hash key mod shardCount ms ∧ Z.of_nat i < shardCount ms)
  ∧ (∀ ms key, well_formed ms → getShard ms key = Ok (shard_index ms key))
  ∧ (∀ ms1 ms2 key,
     shardCount ms1 = shardCount ms2 →
     length (shards ms1) = length (shards ms2) →
     getShard ms1 key = getShard ms2 key)
  ∧ (∀ ms uuid now req ms' task,
     Create ms uuid now req = (ms', Ok task) →
     GetByID ms' (ID task) = Ok task
     ∧ (∀ now' upd, UpdateTaskRequest.Validate upd = None →
          UpdateTaskRequest.HasUpdates upd = true →
          ∃ ms'' task', Update ms' now' (ID task) upd = (ms'', Ok task'))
     ∧ (∃ ms'', Delete ms' (ID task) = (ms'', Ok ())))
  ∧ (∀ ms clock i key task,
     reachable ms clock → stored ms i key task →
     i = shard_index ms key
     ∧ GetByID ms key = Ok task
     ∧ (∀ now' upd, UpdateTaskRequest.Validate upd = None →
          UpdateTaskRequest.HasUpdates upd = true →
          ∃ ms'' task', Update ms now' key upd = (ms'', Ok task'))
     ∧ (∃ ms'', Delete ms key = (ms'', Ok ()))).
Proof.
  split_and!.
  - intros key. unfold fnv32Hash, fnv1a_32. apply fnv32_loop_fold.
  - intros ms key i Hpos (-> & _ & _)%getShard_inv.
    pose proof (shard_index_lt ms key Hpos) as Hlt. split; [|done].
    unfold shard_index in *.
    pose proof (Z.mod_pos_bound (fnv32Hash key) (shardCount ms) Hpos). lia.
  - intros. by apply getShard_well_formed.
  - intros ms1 ms2 key Hc Hlen. unfold getShard. rewrite Hc.
    destruct (shardCount ms2 =? 0); [done|].
    destruct (decide (Z.to_nat (fnv32Hash key mod shardCount ms2)
                      < length (shards ms1))%nat) as [Hlt|Hge].
    + pose proof Hlt as Hlt2. rewrite Hlen in Hlt2.
      destruct (lookup_lt_is_Some_2 _ _ Hlt) as [? ->].
      by destruct (lookup_lt_is_Some_2 _ _ Hlt2) as [? ->].
    + rewrite !(proj2 (lookup_ge_None _ _)); [done|lia..].
  - intros ms uuid now req ms' task (_ & _ & -> & i & m & Hl & ->)%Create_Ok_inv.
    pose proof (lock_shard_set_tasks _ _ _ _
                  (<[uuid := created uuid now req]> m) Hl) as Hl'.
    simpl. split_and!.
    + eapply GetByID_Ok; [exact Hl'|]. apply lookup_insert_eq.
    + intros now' upd Hv Hu. eexists _, _.
      eapply Update_Ok; [done..|exact Hl'|]. apply lookup_insert_eq.
    + eexists. eapply Delete_Ok; [exact Hl'|]. apply lookup_insert_eq.
  - intros ms clock i key task Hreach Hst.
    destruct (reachable_stored_found _ _ _ _ _ Hreach Hst) as (-> & m & Hl & Hk).
    split_and!; [done|..].
    + by eapply GetByID_Ok.
    + intros now' upd Hv Hu. eexists _, _. by eapply Update_Ok.
    + eexists. by eapply Delete_Ok.
Qed.

Lemma shard_selection_witness :
  getShard store_AB "id-A" = Ok 2%nat
  ∧ GetByID store_AB "id-B" = Ok (created "id-B" 6 req_B)
  ∧ GetByID store_AB "id-A" = Ok (created "id-A" 5 req_A).
Proof.
  destruct shard_selection as (_ & _ & H3 & _ & H5 & H6). split_and!.
  - rewrite H3; [vm_compute; reflexivity|].
    split_and!; [|vm_compute; reflexivity..].
    vm_compute. repeat constructor; by eexists.
  - refine (proj1 (H5 store_A "id-B" 6 req_B store_AB
                      (created "id-B" 6 req_B) _)).
    vm_compute. reflexivity.
  - refine (proj1 (proj2 (H6 store_AB 6 2%nat "id-A" (created "id-A" 5 req_A)
                             reachable_store_AB _))).
    eexists. split; vm_compute; reflexivity.
Defined.

(** ** Construction *)

Lemma HealthCheck_loop_Ok i ss :
  HealthCheck_loop i ss = Ok () ↔ Forall initialized ss.
Proof.
  revert i. induction ss as [|s ss IH]; intros i; simpl.
  { split; [by constructor|done]. }
  destruct s as [[[m|]]|].
  - rewrite IH. split.
    + intros H. constructor; [by exists m|done].
    + by inversion 1.
  - split; [done|]. inversion 1 as [|?? [m' Hm]]. discriminate Hm.
  - split; [done|]. inversion 1 as [|?? [m' Hm]]. discriminate Hm.
Qed.

Lemma HealthCheck_Ok ms :
  HealthCheck ms = Ok () ↔ shards ms ≠ [] ∧ Forall initialized (shards ms).
Proof.
  unfold HealthCheck. case_decide as Hlen.
  - apply nil_length_inv in Hlen. split; [done|]. by intros [? _].
  - rewrite HealthCheck_loop_Ok. split; [|by intros [_ ?]].
    intros H. split; [|done]. by intros Hnil; rewrite Hnil in Hlen.
Qed.

Lemma exec_shardCount ms now c :
  shardCount (exec ms now c) = shardCount ms
  ∧ maxTasks (exec ms now c) = maxTasks ms.
Proof.
  destruct c as [uuid req|id req|id|]; simpl.
  - destruct (Create ms uuid now req) as [ms' r] eqn:E.
    destruct (Create_fst _ _ _ _ _ _ E) as [[task ->]| ->]; [|done].
    by apply Create_Ok_inv in E as (_ & _ & _ & i & m & _ & ->).
  - destruct (Update ms now id req) as [ms' r] eqn:E.
    destruct (Update_fst _ _ _ _ _ _ E) as [[task ->]| ->]; [|done].
    by apply Update_Ok_inv in E as (_ & _ & i & m & task' & _ & _ & _ & ->).
  - destruct (Delete ms id) as [ms' r] eqn:E.
    destruct (Delete_fst _ _ _ _ E) as [->| ->]; [|done].
    by apply Delete_Ok_inv in E as (i & m & task' & _ & _ & ->).
  - unfold Clear. by destruct (Clear_loop [] (shards ms)) as [ss [[]| |]].
Qed.

(** C8. [NewMemoryStorage n] uses the ceiling 10000 when [n <= 0] and [n]
    otherwise.  The number of shards follows from the ceiling: 8 below
    1000, 64 above 100000, 32 otherwise; no call changes it afterwards.
    Every shard starts with an allocated, empty map, the counter starts at
    zero, and [HealthCheck] on the new store reports no error. *)
Theorem construction :
  (∀ n,
     let ms := NewMemoryStorage n in
     (n ≤ 0 → maxTasks ms = 10000)
     ∧ (0 < n → maxTasks ms = n)
     ∧ (maxTasks ms < 1000 → shardCount ms = 8)
     ∧ (1000 ≤ maxTasks ms ≤ 100000 → shardCount ms = 32)
     ∧ (100000 < maxTasks ms → shardCount ms = 64)
     ∧ Z.of_nat (length (shards ms)) = shardCount ms
     ∧ Forall (λ s, s = Some (mkShard (Some ∅))) (shards ms)
     ∧ Count ms = 0
     ∧ HealthCheck ms = Ok ())
  ∧ (∀ ms now c, shardCount (exec ms now c) = shardCount ms).
Proof.
  split; [|intros; by apply exec_shardCount].
  intros n ms. subst ms. rewrite NewMemoryStorage_eq; simpl.
  unfold ceiling_of, shard_count_of.
  split_and!.
  - intros. case_match; lia.
  - intros. case_match; lia.
  - intros. repeat case_match; lia.
  - intros. repeat case_match; lia.
  - intros. repeat case_match; lia.
  - repeat case_match; by rewrite length_replicate.
  - by apply Forall_replicate.
  - done.
  - apply HealthCheck_Ok; simpl. split.
    + repeat case_match; done.
    + apply Forall_replicate, initialized_empty_shard.
Qed.

Lemma construction_witness :
  maxTasks (NewMemoryStorage 0) = 10000
  ∧ shardCount (NewMemoryStorage 0) = 32
  ∧ shardCount (NewMemoryStorage 999) = 8
  ∧ shardCount (NewMemoryStorage 1000) = 32
  ∧ shardCount (NewMemoryStorage 100000) = 32
  ∧ shardCount (NewMemoryStorage 100001) = 64
  ∧ HealthCheck (NewMemoryStorage (-5)) = Ok ().
Proof.
  destruct construction as [H _].
  destruct (H 0) as (Hdefault & _ & _ & Hmid0 & _).
  destruct (H 999) as (_ & _ & Hlow & _).
  destruct (H 1000) as (_ & _ & _ & Hmid1 & _).
  destruct (H 100000) as (_ & _ & _ & Hmid2 & _).
  destruct (H 100001) as (_ & _ & _ & _ & Hhigh & _).
  destruct (H (-5)) as (_ & _ & _ & _ & _ & _ & _ & _ & Hhealthy).
  split_and!.
  - apply Hdefault. vm_compute. discriminate.
  - apply Hmid0. vm_compute. split; discriminate.
  - apply Hlow. vm_compute. reflexivity.
  - apply Hmid1. vm_compute. split; discriminate.
  - apply Hmid2. vm_compute. split; discriminate.
  - apply Hhigh. vm_compute. reflexivity.
  - exact Hhealthy.
Defined.

(** ** Capacity *)

Lemma Create_store_ok ms uuid now req :
  store_ok ms → CreateTaskRequest.Validate req = None →
  taskCount ms < maxTasks ms →
  ∃ ms', Create ms uuid now req = (ms', Ok (created uuid now req))
    ∧ store_ok ms' ∧ maxTasks ms' = maxTasks ms
    ∧ taskCount ms' = taskCount ms + 1
    ∧ stored ms' (shard_index ms' uuid) uuid (created uuid now req).
Proof.
  intros Hok Hv Hroom.
  pose proof (store_ok_is_int_counter _ Hok) as Hint.
  pose proof Hok as (Hwf & Hmax & Hcnt & _).
  destruct (lock_shard_well_formed ms uuid Hwf) as (m & Hl & Hs).
  eexists. split; [by apply Create_Ok|]. split_and!.
  - by apply store_ok_insert.
  - done.
  - simpl. apply wrap_int_id. unfold is_int, MinInt, MaxInt in *.
    rewrite two_pow_63 in *. lia.
  - apply stored_set_taskCount, stored_set_tasks. left.
    split_and!; [done| |apply lookup_insert_eq]. by eapply lookup_lt_Some.
Qed.

Lemma create_all_store_ok l ms :
  store_ok ms →
  Forall (λ x, CreateTaskRequest.Validate x.2 = None) l →
  taskCount ms + Z.of_nat (length l) ≤ maxTasks ms →
  ∃ ms', create_all ms l = Some ms'
    ∧ store_ok ms' ∧ maxTasks ms' = maxTasks ms
    ∧ taskCount ms' = taskCount ms + Z.of_nat (length l)
    ∧ (l ≠ [] → ∃ i key task, stored ms' i key task).
Proof.
  intros Hok Hall. revert ms Hok.
  induction Hall as [|[[uuid now] req] l Hv _ IH]; intros ms Hok Hlen.
  { exists ms. simpl. split_and!; try done. lia. }
  simpl in Hv, Hlen.
  destruct (Create_store_ok ms uuid now req Hok Hv) as (ms1 & HC & Hok1 & Hm1 & Hc1 & Hst1);
    [lia|].
  destruct (IH ms1 Hok1) as (ms' & Hall' & Hok' & Hm' & Hc' & Hst'); [lia|].
  exists ms'. simpl. rewrite HC. split_and!; try done; [congruence|lia|].
  intros _. destruct l as [|x l].
  - simpl in Hall'. injection Hall' as <-. eauto.
  - by apply Hst'.
Qed.

Lemma stored_Delete_Ok ms i key task :
  store_ok ms → stored ms i key task →
  ∃ ms', Delete ms key = (ms', Ok ()).
Proof.
  intros (Hwf & _ & _ & Hpl) Hst.
  destruct (Hpl _ _ _ Hst) as [_ ->].
  destruct (lock_shard_well_formed ms key Hwf) as (m & Hl & Hs).
  destruct Hst as (s & Hs' & Hk). rewrite Hs in Hs'. injection Hs' as <-.
  rewrite shard_map_Some in Hk. eexists. by eapply Delete_Ok.
Qed.

(** C1. [Create] with a valid request returns [CapacityExceeded] exactly
    when the counter is at or above the ceiling, and no [Create] returns it
    while the counter is below.  On a store constructed with a ceiling
    [k > 0], [k] valid creations in a row all succeed and leave the counter
    at [k]; the next valid creation fails with [CapacityExceeded] and
    leaves the store as it is; some record can then be deleted, and after
    any successful [Delete] a valid creation succeeds again. *)
Theorem capacity_enforcement :
  (∀ ms uuid now req,
     CreateTaskRequest.Validate req = None →
     (Create ms uuid now req).2 = Err (CapacityExceeded (maxTasks ms))
     ↔ maxTasks ms ≤ Count ms)
  ∧ (∀ ms uuid now req k,
     (Create ms uuid now req).2 = Err (CapacityExceeded k) →
     k = maxTasks ms ∧ maxTasks ms ≤ Count ms)
  ∧ (∀ k l,
     0 < k ≤ MaxInt → Z.of_nat (length l) = k →
     Forall (λ x, CreateTaskRequest.Validate x.2 = None) l →
     ∃ ms_k, create_all (NewMemoryStorage k) l = Some ms_k
       ∧ maxTasks ms_k = k ∧ Count ms_k = k
       ∧ (∀ uuid now req,
            CreateTaskRequest.Validate req = None →
            Create ms_k uuid now req = (ms_k, Err (CapacityExceeded k)))
       ∧ (∃ id ms', Delete ms_k id = (ms', Ok ()))
       ∧ (∀ id ms',
            Delete ms_k id = (ms', Ok ()) →
            Count ms' = k - 1
            ∧ ∀ uuid now req,
                CreateTaskRequest.Validate req = None →
                ∃ ms'' task, Create ms' uuid now req = (ms'', Ok task)
                  ∧ Count ms'' = k)).
Proof.
  split_and!.
  - intros ms uuid now req Hv. unfold Count. split.
    + destruct (Create ms uuid now req) as [ms' r] eqn:E; simpl. intros ->.
      apply Create_Err_inv in E as [_ [(ve & Hv' & _)|(_ & ? & _)]];
        [congruence|done].
    + intros Hfull. by rewrite Create_full.
  - intros ms uuid now req k.
    destruct (Create ms uuid now req) as [ms' r] eqn:E; simpl. intros ->.
    apply Create_Err_inv in E as [_ [(ve & _ & [=])|(_ & ? & [= ->])]]. done.
  - intros k l Hk Hlen Hall.
    assert (Hint : is_int k).
    { unfold is_int, MinInt, MaxInt in *. rewrite two_pow_63 in *. lia. }
    pose proof (store_ok_NewMemoryStorage k Hint) as Hok0.
    assert (Hmax0 : maxTasks (NewMemoryStorage k) = k).
    { rewrite NewMemoryStorage_eq; simpl. unfold ceiling_of. case_match; lia. }
    assert (Hc0 : taskCount (NewMemoryStorage k) = 0).
    { by rewrite NewMemoryStorage_eq. }
    destruct (create_all_store_ok l _ Hok0 Hall)
      as (ms_k & HA & Hok & Hmax & Hc & Hst); [lia|].
    rewrite Hmax0 in Hmax. rewrite Hc0 in Hc.
    exists ms_k. unfold Count. split_and!; [done|done|lia|..].
    + intros uuid now req Hv. rewrite <- Hmax. apply Create_full; [done|lia].
    + destruct Hst as (i & key & task & Hst).
      { intros ->. simpl in Hlen. lia. }
      destruct (stored_Delete_Ok ms_k i key task Hok Hst) as [ms' HD].
      by exists key, ms'.
    + intros id ms' (i & m & task & Hl & Hkey & ->)%Delete_Ok_inv.
      apply lock_shard_slot in Hl as [_ Hs].
      pose proof (store_ok_delete _ _ _ _ _ Hok Hs Hkey) as Hok'.
      assert (Hdec : AddInt64 (taskCount ms_k) (-1) = k - 1).
      { unfold AddInt64. rewrite wrap_int_id; [lia|].
        unfold is_int, MinInt, MaxInt in *. rewrite two_pow_63 in *. lia. }
      simpl. split; [done|]. intros uuid now req Hv.
      destruct (Create_store_ok _ uuid now req Hok' Hv)
        as (ms'' & HC & _ & _ & Hc'' & _).
      { simpl. lia. }
      exists ms'', (created uuid now req). split; [done|].
      rewrite Hc''. simpl. lia.
Qed.

Lemma capacity_enforcement_witness :
  (Create store_AB "id-C" 7 req_C).2 = Err (CapacityExceeded 2)
  ∧ ∃ ms_k, create_all (NewMemoryStorage 2) [("id-A", 5, req_A); ("id-B", 6, req_B)]
            = Some ms_k
      ∧ Create ms_k "id-C" 7 req_C = (ms_k, Err (CapacityExceeded 2))
      ∧ ∃ ms' ms'' task,
          Delete ms_k "id-A" = (ms', Ok ())
          ∧ Create ms' "id-C" 8 req_C = (ms'', Ok task) ∧ Count ms'' = 2.
Proof.
  destruct capacity_enforcement as (H1 & _ & H3). split.
  - apply (H1 store_AB "id-C" 7 req_C); [reflexivity|]. vm_compute. discriminate.
  - destruct (H3 2 [("id-A", 5, req_A); ("id-B", 6, req_B)])
      as (ms_k & HA & _ & _ & Hfull & _ & Hdel).
    + vm_compute. split; [reflexivity|discriminate].
    + reflexivity.
    + repeat constructor.
    + exists ms_k. split; [done|]. split; [by apply Hfull|].
      assert (ms_k = store_AB) as ->.
      { apply (inj Some). rewrite <- HA. vm_compute. reflexivity. }
      destruct (Hdel "id-A" (Delete store_AB "id-A").1) as [_ Hcreate].
      { vm_compute. reflexivity. }
      destruct (Hcreate "id-C" 8 req_C eq_refl) as (ms'' & task & HC & Hcount).
      exists (Delete store_AB "id-A").1, ms'', task. split_and!; [|done..].
      vm_compute. reflexivity.
Defined.

(** ** The invariant of the stored records *)

(** C6. In every state reachable from a new store by [Create], [Update],
    [Delete] and [Clear] under a clock that does not go back, every stored
    record has a non-empty name of at most 255 bytes, so of at most 255
    characters, a status that is [TaskIncomplete] or [TaskCompleted], and
    an [updated_at] that is not less than its [created_at]; so has every
    record [GetByID] returns.  The new store satisfies the invariant and
    every call preserves it. *)
Theorem stored_record_invariant :
  (∀ n clock, is_int n → inv clock (NewMemoryStorage n))
  ∧ (∀ ms clock now c, inv clock ms → clock ≤ now → inv now (exec ms now c))
  ∧ (∀ ms clock i key task,
     reachable ms clock → stored ms i key task →
     Name task ≠ "" ∧ len (Name task) ≤ 255 ∧ char_count (Name task) ≤ 255
     ∧ (Status task = TaskStatus.TaskIncomplete
        ∨ Status task = TaskStatus.TaskCompleted)
     ∧ CreatedAt task ≤ UpdatedAt task)
  ∧ (∀ ms clock id task,
     reachable ms clock → GetByID ms id = Ok task →
     Name task ≠ "" ∧ len (Name task) ≤ 255 ∧ char_count (Name task) ≤ 255
     ∧ (Status task = TaskStatus.TaskIncomplete
        ∨ Status task = TaskStatus.TaskCompleted)
     ∧ CreatedAt task ≤ UpdatedAt task).
Proof.
  split_and!.
  - intros. by apply inv_NewMemoryStorage.
  - intros. by eapply inv_exec.
  - intros ms clock i key task [_ Hrec]%reachable_inv Hst.
    destruct (Hrec _ _ _ Hst) as [([? ?] & ? & ?) _].
    pose proof (char_count_le_len (Name task)). split_and!; [done..|lia|done|done].
  - intros ms clock id task Hreach Hget.
    destruct (reachable_stored_GetByID _ _ _ _ Hreach Hget)
      as (_ & _ & ([? ?] & ? & ?) & _).
    pose proof (char_count_le_len (Name task)). split_and!; [done..|lia|done|done].
Qed.

Lemma stored_record_invariant_witness :
  Name (created "id-B" 6 req_B) ≠ ""
  ∧ len (Name (created "id-B" 6 req_B)) ≤ 255
  ∧ CreatedAt (created "id-B" 6 req_B) ≤ UpdatedAt (created "id-B" 6 req_B).
Proof.
  destruct stored_record_invariant as (_ & _ & _ & H).
  destruct (H store_AB 6 "id-B" (created "id-B" 6 req_B) reachable_store_AB)
    as (Hn & Hl & _ & _ & Ht).
  { vm_compute. reflexivity. }
  split_and!; [exact Hn|exact Hl|exact Ht].
Defined.

(** ** The status filter *)

Lemma reachable_visited_valid_status o ms clock :
  reachable ms clock →
  Forall (λ task, valid_status (Status task)) (visited o (shards ms)).
Proof.
  intros [_ Hrec]%reachable_inv. apply Forall_forall.
  intros task (i & key & Hst)%elem_of_visited.
  by destruct (Hrec _ _ _ Hst) as [(_ & ? & _) _].
Qed.

(** C5. Every record [GetTasksByStatus s] returns has the status [s].  In
    every reachable store the filter returns a result, and the number of
    records returned for [TaskIncomplete] plus the number returned for
    [TaskCompleted] is the number of records stored.  [GetAll] returns a
    result when the counter, which is the capacity it asks [make] for, is
    at most [max_cap], and the sum is then the number of records [GetAll]
    returns, whatever order each of the three calls visits the maps in;
    with a counter above [max_cap] the call of [make] panics and [GetAll]
    returns nothing. *)
Theorem status_filter :
  (∀ o ms status l,
     GetTasksByStatus o ms status = Ok l →
     Forall (λ task, Status task = status) l)
  ∧ (∀ ms clock o status,
     reachable ms clock → ∃ l, GetTasksByStatus o ms status = Ok l)
  ∧ (∀ ms clock o1 o2 o3,
     reachable ms clock →
     ∃ incomplete completed,
       GetTasksByStatus o1 ms TaskStatus.TaskIncomplete = Ok incomplete
       ∧ GetTasksByStatus o2 ms TaskStatus.TaskCompleted = Ok completed
       ∧ (length incomplete + length completed = num_records ms)%nat
       ∧ (Count ms ≤ max_cap →
          ∃ all,
            GetAll o3 ms = Ok all
            ∧ (length incomplete + length completed = length all)%nat)
       ∧ (max_cap < Count ms → GetAll o3 ms = Panic MakeSliceCap)).
Proof.
  split_and!.
  - intros o ms status l ->%GetTasksByStatus_Ok_inv.
    apply Forall_forall. by intros task [? _]%list_elem_of_filter.
  - intros ms clock o status [[Hwf _] _]%reachable_inv.
    eexists. by apply GetTasksByStatus_Ok.
  - intros ms clock o1 o2 o3 Hreach.
    pose proof Hreach as [Hok _]%reachable_inv.
    pose proof (num_records_nonneg_counter _ Hok) as Hc.
    destruct Hok as [Hwf _].
    assert (Hsum :
      (length (filter (λ task, Status task = TaskStatus.TaskIncomplete)
                 (visited o1 (shards ms)))
       + length (filter (λ task, Status task = TaskStatus.TaskCompleted)
                   (visited o2 (shards ms)))
       = length (visited o3 (shards ms)))%nat).
    { rewrite (visited_perm o1 o3), (visited_perm o2 o3).
      apply length_filter_status. by eapply reachable_visited_valid_status. }
    eexists _, _. split_and!.
    + by apply GetTasksByStatus_Ok.
    + by apply GetTasksByStatus_Ok.
    + rewrite Hsum. apply length_visited.
    + intros Hcap. exists (visited o3 (shards ms)). split; [|exact Hsum].
      apply GetAll_Ok; [done|]. unfold Count in Hcap. lia.
    + intros Hcap. apply GetAll_Panic. by right.
Qed.

Lemma status_filter_witness :
  ∃ incomplete completed all,
    GetTasksByStatus canonical_order store_AB TaskStatus.TaskIncomplete
      = Ok incomplete
    ∧ Forall (λ task, Status task = TaskStatus.TaskIncomplete) incomplete
    ∧ GetTasksByStatus canonical_order store_AB TaskStatus.TaskCompleted
      = Ok completed
    ∧ GetAll canonical_order store_AB = Ok all
    ∧ (length incomplete + length completed = length all)%nat.
Proof.
  destruct status_filter as (H1 & _ & H3).
  destruct (H3 store_AB 6 canonical_order canonical_order canonical_order
               reachable_store_AB) as (inc & comp & Hi & Hc & _ & Ha & _).
  destruct Ha as (all & Ha & Hlen); [vm_compute; discriminate|].
  exists inc, comp, all. split_and!; [exact Hi| |exact Hc|exact Ha|exact Hlen].
  exact (H1 _ _ _ _ Hi).
Defined.

(** ** Pagination *)

Lemma length_page allTasks offset limit :
  0 ≤ offset → 0 < limit →
  Z.of_nat (length (page allTasks offset limit))
  = Z.min limit (Z.max 0 (Z.of_nat (length allTasks) - offset)).
Proof.
  intros Ho Hl. unfold page. rewrite length_take, length_drop. lia.
Qed.

(** The part of [GetTasksPaginated] that follows the collection of
    [allTasks], when [offset + limit] does not overflow. *)
Lemma paginate_in_range (allTasks : list Task) offset limit :
  0 ≤ offset → 0 < limit → offset + limit ≤ MaxInt →
  (let total := Z.of_nat (length allTasks) in
   if total <=? offset then Ok ([], total)
   else
     let end_ := wrap_int (offset + limit) in
     let end_ := if total <? end_ then total else end_ in
     paginatedTasks ← slice allTasks offset end_;
     Ok (paginatedTasks, total))
  = Ok (page allTasks offset limit, Z.of_nat (length allTasks)).
Proof.
  intros Ho Hl Hmax. cbv zeta. unfold page.
  destruct (Z.leb_spec (Z.of_nat (length allTasks)) offset) as [Hge|Hlt].
  { rewrite drop_ge by lia. by rewrite take_nil. }
  rewrite wrap_int_id.
  2:{ unfold is_int, MinInt, MaxInt in *. rewrite two_pow_63 in *. lia. }
  unfold slice.
  destruct (Z.ltb_spec (Z.of_nat (length allTasks)) (offset + limit)) as [Hclamp|Hfit].
  - rewrite (proj2 (Z.leb_le 0 offset)), (proj2 (Z.leb_le offset _)),
      (proj2 (Z.leb_le (Z.of_nat (length allTasks)) _)) by lia.
    simpl. do 2 f_equal.
    rewrite !take_ge; [done|rewrite length_drop; lia..].
  - rewrite (proj2 (Z.leb_le 0 offset)), (proj2 (Z.leb_le offset _)),
      (proj2 (Z.leb_le (offset + limit) _)) by lia.
    simpl. do 3 f_equal. lia.
Qed.

(** The same part when [offset + limit] overflows and [offset] is below the
    total: the wrapped [end] is negative and the slice expression panics. *)
Lemma paginate_overflow (allTasks : list Task) offset limit :
  0 ≤ offset ≤ MaxInt → offset < Z.of_nat (length allTasks) →
  limit ≤ MaxInt → MaxInt < offset + limit →
  (let total := Z.of_nat (length allTasks) in
   if total <=? offset then Ok ([], total)
   else
     let end_ := wrap_int (offset + limit) in
     let end_ := if total <? end_ then total else end_ in
     paginatedTasks ← slice allTasks offset end_;
     Ok (paginatedTasks, total))
  = Panic SliceBounds.
Proof.
  intros Ho Hlt Hl Hover. cbv zeta.
  destruct (Z.leb_spec (Z.of_nat (length allTasks)) offset); [lia|].
  assert (Hw : wrap_int (offset + limit) = offset + limit - 2 ^ int_bits).
  { unfold wrap_int, MaxInt in *. rewrite two_pow_63, two_pow_64 in *.
    rewrite <- (Z.mod_add _ (-1)) by lia. rewrite Z.mod_small; lia. }
  assert (Hneg : wrap_int (offset + limit) < 0).
  { rewrite Hw. unfold MaxInt in *. rewrite two_pow_63, two_pow_64 in *.
    pose proof (Nat2Z.is_nonneg (length allTasks)). lia. }
  destruct (Z.ltb_spec (Z.of_nat (length allTasks)) (wrap_int (offset + limit)));
    [lia|].
  unfold slice.
  rewrite (proj2 (Z.leb_le 0 offset)) by lia.
  rewrite (proj2 (Z.leb_gt offset (wrap_int (offset + limit)))) by lia.
  done.
Qed.

Lemma GetTasksPaginated_collect o ms :
  well_formed ms → 0 ≤ taskCount ms ≤ max_cap →
  (allTasks ← make_cap (taskCount ms);
   range_shards o (λ allTasks task, allTasks ++ [task]) (shards ms) allTasks)
  = Ok (visited o (shards ms)).
Proof. apply GetAll_Ok. Qed.

(** Pagination is as the specification describes it whenever
    [offset + limit] fits the type [int]. *)
Lemma GetTasksPaginated_in_range o ms offset limit :
  well_formed ms → 0 ≤ taskCount ms ≤ max_cap →
  0 ≤ offset → 0 < limit → offset + limit ≤ MaxInt →
  GetTasksPaginated o ms offset limit
  = Ok (page (visited o (shards ms)) offset limit, Z.of_nat (num_records ms))
  ∧ Z.of_nat (length (page (visited o (shards ms)) offset limit))
    = Z.min limit (Z.max 0 (Z.of_nat (num_records ms) - offset)).
Proof.
  intros Hwf Hc Ho Hl Hmax. rewrite <- (length_visited o ms). split.
  - unfold GetTasksPaginated.
    pose proof (GetTasksPaginated_collect o ms Hwf Hc) as Hcol.
    destruct (make_cap (taskCount ms)) as [acc| |]; simpl in *; try done.
    rewrite Hcol. simpl. by apply paginate_in_range.
  - by apply length_page.
Qed.

Lemma GetTasksPaginated_overflow o ms offset limit :
  well_formed ms → 0 ≤ taskCount ms ≤ max_cap →
  0 ≤ offset ≤ MaxInt → offset < Z.of_nat (num_records ms) →
  limit ≤ MaxInt → MaxInt < offset + limit →
  GetTasksPaginated o ms offset limit = Panic SliceBounds.
Proof.
  intros Hwf Hc Ho Hlt Hl Hover. rewrite <- (length_visited o ms) in Hlt.
  unfold GetTasksPaginated.
  pose proof (GetTasksPaginated_collect o ms Hwf Hc) as Hcol.
  destruct (make_cap (taskCount ms)) as [acc| |]; simpl in *; try done.
  rewrite Hcol. simpl. by apply paginate_overflow.
Qed.

(** C4, at an input where the contract fails.  The store holds two
    records; for [offset = 1] and [limit = MaxInt] the contract asks for
    [min limit (max 0 (2 - 1)) = 1] record and the total 2.  The sum
    [offset + limit] wraps around to a negative [end], the test
    [end > total] does not clamp it, and the slice expression
    [allTasks[offset:end]] panics, in the sharded store and in the store
    with a single map alike. *)
Theorem GetTasksPaginated_overflow_panics :
  0 ≤ 1 ∧ 0 < MaxInt ∧ is_int MaxInt
  ∧ num_records store_AB = 2%nat
  ∧ Z.min MaxInt (Z.max 0 (Z.of_nat (num_records store_AB) - 1)) = 1
  ∧ GetTasksPaginated canonical_order store_AB 1 MaxInt = Panic SliceBounds
  ∧ Memory.GetTasksPaginated canonical_order store_AB_single 1 MaxInt
    = Panic SliceBounds
  ∧ ∃ task, GetTasksPaginated canonical_order store_AB 1 1 = Ok ([task], 2).
Proof.
  split_and!; try (vm_compute; (reflexivity || discriminate)).
  - vm_compute. split; discriminate.
  - eexists. vm_compute. reflexivity.
Qed.

(** * Further properties of the sharded store *)

(** ** Frame of a write to one shard *)

Lemma GetByID_set_tasks ms i m m' id :
  shards ms !! i = Some (Some (mkShard (Some m))) →
  m' !! id = m !! id →
  GetByID (set_tasks i m' ms) id = GetByID ms id.
Proof.
  intros Hs Hk. unfold GetByID, lock_shard. rewrite getShard_set_tasks.
  destruct (getShard ms id) as [j| |]; simpl; [|done..].
  unfold deref; simpl. rewrite list_lookup_insert.
  case_decide as Hj.
  - destruct Hj as [<- _]. rewrite Hs. simpl. unfold lookup_task; simpl.
    by rewrite Hk.
  - done.
Qed.

Lemma GetByID_set_taskCount ms c id :
  GetByID (set_taskCount c ms) id = GetByID ms id.
Proof. reflexivity. Qed.

Lemma store_ok_sub_1 ms :
  store_ok ms → (0 < num_records ms)%nat →
  AddInt64 (taskCount ms) (-1) = taskCount ms - 1.
Proof.
  intros Hok Hpos. pose proof (store_ok_is_int_counter _ Hok) as Hint.
  destruct Hok as (_ & _ & Hc & _).
  apply wrap_int_id. unfold is_int, MinInt, MaxInt in *.
  rewrite two_pow_63 in *. lia.
Qed.

Lemma store_ok_add_1 ms :
  store_ok ms → taskCount ms < maxTasks ms →
  AddInt64 (taskCount ms) 1 = taskCount ms + 1.
Proof.
  intros Hok Hroom. pose proof (store_ok_is_int_counter _ Hok) as Hint.
  destruct Hok as (_ & Hmax & _ & _).
  apply wrap_int_id. unfold is_int, MinInt, MaxInt in *.
  rewrite two_pow_63 in *. lia.
Qed.

(** ** Delete *)

Lemma Delete_removes_one_facts :
  ∀ ms id,
    store_ok ms →
    ((∃ ms', Delete ms id = (ms', Ok ())) ↔ (∃ task, GetByID ms id = Ok task))
    ∧ ∀ ms',
        Delete ms id = (ms', Ok ()) →
        GetByID ms' id = Err (NotFound id)
        ∧ Delete ms' id = (ms', Err (NotFound id))
        ∧ (∀ id', id' ≠ id → GetByID ms' id' = GetByID ms id')
        ∧ Count ms' = Count ms - 1
        ∧ Z.of_nat (num_records ms') = Z.of_nat (num_records ms) - 1
        ∧ store_ok ms'.
Proof.
  intros ms id Hok. split.
  - split.
    + intros [ms' (i & m & task & Hl & Hk & _)%Delete_Ok_inv].
      exists task. by eapply GetByID_Ok.
    + intros [task (i & m & Hl & Hk)%GetByID_Ok_inv].
      eexists. by eapply Delete_Ok.
  - intros ms' (i & m & task & Hl & Hk & ->)%Delete_Ok_inv.
    pose proof (lock_shard_set_tasks _ _ _ _ (delete id m) Hl) as Hl'.
    apply lock_shard_slot in Hl as [Hi Hs].
    pose proof (num_records_set_tasks ms i _ (delete id m) Hs) as Hn.
    rewrite shard_map_Some, map_size_delete, Hk in Hn.
    assert (size m ≠ 0%nat) as Hsz by (by eapply map_size_ne_0_lookup_2).
    simpl in Hn.
    split_and!.
    + eapply GetByID_absent; [exact Hl'|]. unfold lookup_task; simpl.
      apply lookup_delete_eq.
    + set (ms1 := set_taskCount _ _).
      assert (Hl1 : lock_shard ms1 id = Ok (i, mkShard (Some (delete id m))))
        by exact Hl'.
      unfold Delete. rewrite Hl1. simpl. unfold lookup_task; simpl.
      by rewrite lookup_delete_eq.
    + intros id' Hne. rewrite GetByID_set_taskCount.
      eapply GetByID_set_tasks; [done|]. by apply lookup_delete_ne.
    + unfold Count; simpl. apply store_ok_sub_1; [done|lia].
    + unfold num_records in *; simpl in *. lia.
    + by eapply store_ok_delete.
Qed.

Lemma Create_frame_facts :
  (∀ ms uuid now req ms' task,
     Create ms uuid now req = (ms', Ok task) →
     ∀ id, id ≠ uuid → GetByID ms' id = GetByID ms id)
  ∧ (∀ ms uuid now req ms' task,
     store_ok ms →
     Create ms uuid now req = (ms', Ok task) →
     Count ms' = Count ms + 1
     ∧ (GetByID ms uuid = Err (NotFound uuid) →
        Z.of_nat (num_records ms') = Z.of_nat (num_records ms) + 1)
     ∧ (∀ old, GetByID ms uuid = Ok old →
        GetByID ms' uuid = Ok task
        ∧ num_records ms' = num_records ms
        ∧ Z.of_nat (num_records ms') < Count ms')).
Proof.
  split.
  - intros ms uuid now req ms' task (_ & _ & _ & i & m & Hl & ->)%Create_Ok_inv.
    intros id Hne. apply lock_shard_slot in Hl as [_ Hs].
    rewrite GetByID_set_taskCount.
    eapply GetByID_set_tasks; [done|]. by apply lookup_insert_ne.
  - intros ms uuid now req ms' task Hok
      (_ & Hroom & _ & i & m & Hl & ->)%Create_Ok_inv.
    pose proof (lock_shard_set_tasks _ _ _ _ (<[uuid := task]> m) Hl) as Hl'.
    pose proof Hl as [_ Hs]%lock_shard_slot.
    pose proof (num_records_set_tasks ms i _ (<[uuid := task]> m) Hs) as Hn.
    rewrite shard_map_Some, map_size_insert in Hn.
    pose proof (store_ok_add_1 ms Hok Hroom) as Hadd.
    assert (Hrec : num_records (set_taskCount (AddInt64 (taskCount ms) 1)
                     (set_tasks i (<[uuid := task]> m) ms))
                   = num_records (set_tasks i (<[uuid := task]> m) ms))
      by reflexivity.
    split_and!.
    + unfold Count; simpl. exact Hadd.
    + intros (_ & j & sh & Hl2 & Hk)%GetByID_Err_inv.
      rewrite Hl in Hl2. injection Hl2 as <- <-.
      unfold lookup_task in Hk; simpl in Hk. rewrite Hk in Hn. simpl in Hn.
      rewrite Hrec. lia.
    + intros old (j & m2 & Hl2 & Hk)%GetByID_Ok_inv.
      rewrite Hl in Hl2. injection Hl2 as <- <-.
      rewrite Hk in Hn. simpl in Hn.
      destruct Hok as (_ & _ & Hcnt & _).
      split_and!.
      * eapply GetByID_Ok; [exact Hl'|]. apply lookup_insert_eq.
      * rewrite Hrec. lia.
      * rewrite Hrec. unfold Count; simpl. rewrite Hadd. lia.
Qed.

Lemma ApplyTo_idempotent now req task :
  UpdateTaskRequest.ApplyTo now req (UpdateTaskRequest.ApplyTo now req task)
  = UpdateTaskRequest.ApplyTo now req task.
Proof. by destruct req as [[?|] [?|]]. Qed.

Lemma Update_frame_facts :
  ∀ ms now id req ms' task,
    Update ms now id req = (ms', Ok task) →
    (∀ id', id' ≠ id → GetByID ms' id' = GetByID ms id')
    ∧ Count ms' = Count ms
    ∧ num_records ms' = num_records ms
    ∧ Update ms' now id req = (ms', Ok task).
Proof.
  intros ms now id req ms' task
    (Hv & Hu & i & m & old & Hl & Hk & -> & ->)%Update_Ok_inv.
  pose proof (lock_shard_set_tasks _ _ _ _
                (<[id := UpdateTaskRequest.ApplyTo now req old]> m) Hl) as Hl'.
  pose proof Hl as [_ Hs]%lock_shard_slot.
  split_and!.
  - intros id' Hne. eapply GetByID_set_tasks; [done|].
    by apply lookup_insert_ne.
  - done.
  - pose proof (num_records_set_tasks ms i _
                  (<[id := UpdateTaskRequest.ApplyTo now req old]> m) Hs) as Hn.
    rewrite shard_map_Some, map_size_insert, Hk in Hn. simpl in Hn. lia.
  - rewrite (Update_Ok _ now id req _ _ _ Hv Hu Hl' (lookup_insert_eq _ _ _)).
    rewrite ApplyTo_idempotent. f_equal.
    unfold set_tasks, set_shards; simpl.
    by rewrite list_insert_insert_eq, insert_insert_eq.
Qed.

(** X1. On a store that satisfies its invariant, [Delete] succeeds exactly
    on the ids [GetByID] finds.  After a successful [Delete] the id is not
    found any more, a second [Delete] of it returns [NotFound], every other
    id reads as before, and the counter and the number of records are one
    less. *)
Theorem Delete_removes_one :
  ∀ ms id,
    store_ok ms →
    ((∃ ms', Delete ms id = (ms', Ok ())) ↔ (∃ task, GetByID ms id = Ok task))
    ∧ ∀ ms',
        Delete ms id = (ms', Ok ()) →
        GetByID ms' id = Err (NotFound id)
        ∧ Delete ms' id = (ms', Err (NotFound id))
        ∧ (∀ id', id' ≠ id → GetByID ms' id' = GetByID ms id')
        ∧ Count ms' = Count ms - 1
        ∧ Z.of_nat (num_records ms') = Z.of_nat (num_records ms) - 1
        ∧ store_ok ms'.
Proof. exact Delete_removes_one_facts. Qed.

Lemma store_ok_store_AB : store_ok store_AB.
Proof. exact (proj1 (reachable_inv _ _ reachable_store_AB)). Defined.

Lemma Delete_removes_one_witness :
  ∃ ms', Delete store_AB "id-A" = (ms', Ok ())
    ∧ GetByID ms' "id-A" = Err (NotFound "id-A")
    ∧ GetByID ms' "id-B" = GetByID store_AB "id-B"
    ∧ Count ms' = 1.
Proof.
  destruct (Delete_removes_one store_AB "id-A" store_ok_store_AB) as [_ H].
  destruct (H (Delete store_AB "id-A").1) as (Hg & _ & Hf & Hc & _).
  { vm_compute. reflexivity. }
  exists (Delete store_AB "id-A").1. split_and!.
  - vm_compute. reflexivity.
  - exact Hg.
  - apply Hf. discriminate.
  - exact Hc.
Defined.

(** ** Clear *)

Lemma visited_replicate_empty o n : visited o (replicate n empty_shard) = [].
Proof.
  unfold visited. induction n as [|n IH]; [done|]. csimpl. rewrite IH.
  unfold range_tasks; simpl.
  pose proof (enum_perm o ∅) as Hp. rewrite map_to_list_empty in Hp.
  apply Permutation_nil_r in Hp. by rewrite Hp.
Qed.

(** X2. [Clear] succeeds whenever no slot of [shards] is a nil pointer, and
    leaves every shard with an allocated, empty map (also the shards whose
    map was nil) and the counter at zero.  On a store that satisfies its
    invariant, after [Clear] no id is found, [GetAll] is empty, the store is
    healthy, and the ceiling and the number of shards are the ones before. *)
Theorem Clear_empties_store :
  (∀ ms,
     Forall is_Some (shards ms) →
     Clear ms
     = (mk (replicate (length (shards ms)) empty_shard)
           (shardCount ms) (maxTasks ms) 0, Ok ()))
  ∧ (∀ ms,
     store_ok ms →
     ∃ ms', Clear ms = (ms', Ok ())
       ∧ Count ms' = 0
       ∧ (∀ id, GetByID ms' id = Err (NotFound id))
       ∧ (∀ o, GetAll o ms' = Ok [])
       ∧ HealthCheck ms' = Ok ()
       ∧ maxTasks ms' = maxTasks ms ∧ shardCount ms' = shardCount ms
       ∧ store_ok ms').
Proof.
  split.
  - intros ms Hall. unfold Clear. by rewrite Clear_loop_Ok.
  - intros ms Hok. pose proof (store_ok_Clear ms Hok) as Hok'.
    destruct Hok as (Hwf & _). rewrite (Clear_well_formed ms Hwf) in *.
    simpl in Hok'. eexists. split; [done|].
    pose proof Hok' as (Hwf' & _).
    split_and!; try done.
    + intros id.
      destruct (lock_shard_well_formed _ id Hwf') as (m & Hl & Hs).
      simpl in Hs. apply lookup_replicate in Hs as [[= ->] _].
      eapply GetByID_absent; [exact Hl|]. unfold lookup_task; simpl.
      apply lookup_empty.
    + intros o. rewrite GetAll_Ok; [|done|rewrite max_cap_eq; simpl; lia].
      simpl.
      by rewrite visited_replicate_empty.
    + apply HealthCheck_Ok. destruct Hwf' as (Hall & Hlen & Hpos).
      split; [|done]. intros Hnil. rewrite Hnil in Hlen. simpl in *. lia.
Qed.

Lemma Clear_empties_store_witness :
  ∃ ms', Clear store_AB = (ms', Ok ())
    ∧ Count ms' = 0
    ∧ GetByID ms' "id-A" = Err (NotFound "id-A")
    ∧ GetAll canonical_order ms' = Ok [].
Proof.
  destruct Clear_empties_store as [_ H].
  destruct (H store_AB store_ok_store_AB)
    as (ms' & HC & Hc & Hg & Ha & _).
  exists ms'. split_and!; [exact HC|exact Hc|apply Hg|apply Ha].
Defined.

(** ** Create and Update leave the other records alone *)

(** X3. A successful [Create] leaves every other id as it was: [GetByID] on
    an id different from the new one returns what it returned before.  On
    a store that satisfies its invariant the counter grows by one; the
    number of records grows by one when the new id was absent, and stays
    the same when the id was already stored: the old record is overwritten
    and the counter then exceeds the number of records. *)
Theorem Create_frame :
  (∀ ms uuid now req ms' task,
     Create ms uuid now req = (ms', Ok task) →
     ∀ id, id ≠ uuid → GetByID ms' id = GetByID ms id)
  ∧ (∀ ms uuid now req ms' task,
     store_ok ms →
     Create ms uuid now req = (ms', Ok task) →
     Count ms' = Count ms + 1
     ∧ (GetByID ms uuid = Err (NotFound uuid) →
        Z.of_nat (num_records ms') = Z.of_nat (num_records ms) + 1)
     ∧ (∀ old, GetByID ms uuid = Ok old →
        GetByID ms' uuid = Ok task
        ∧ num_records ms' = num_records ms
        ∧ Z.of_nat (num_records ms') < Count ms')).
Proof. exact Create_frame_facts. Qed.

Lemma store_ok_store_A : store_ok store_A.
Proof. exact (proj1 (reachable_inv _ _ reachable_store_A)). Defined.

Lemma Create_frame_witness :
  GetByID store_AB "id-A" = GetByID store_A "id-A"
  ∧ Count (Create store_A "id-A" 7 req_C).1 = 2
  ∧ num_records (Create store_A "id-A" 7 req_C).1 = 1%nat.
Proof.
  destruct Create_frame as [H1 H2]. split_and!.
  - refine (H1 store_A "id-B" 6 req_B store_AB (created "id-B" 6 req_B) _
               "id-A" _); [vm_compute; reflexivity|discriminate].
  - refine (proj1 (H2 store_A "id-A" 7 req_C _ (created "id-A" 7 req_C)
                      store_ok_store_A _)).
    vm_compute. reflexivity.
  - destruct (H2 store_A "id-A" 7 req_C (Create store_A "id-A" 7 req_C).1
                 (created "id-A" 7 req_C) store_ok_store_A)
      as (_ & _ & H).
    { vm_compute. reflexivity. }
    destruct (H (created "id-A" 5 req_A)) as (_ & Hn & _).
    { vm_compute. reflexivity. }
    rewrite Hn. vm_compute. reflexivity.
Defined.

(** X4. A successful [Update] changes the record of its id only: every
    other id reads as before, and the counter and the number of records
    are unchanged.  Repeating the same update at the same reading of the
    clock changes nothing more. *)
Theorem Update_frame :
  ∀ ms now id req ms' task,
    Update ms now id req = (ms', Ok task) →
    (∀ id', id' ≠ id → GetByID ms' id' = GetByID ms id')
    ∧ Count ms' = Count ms
    ∧ num_records ms' = num_records ms
    ∧ Update ms' now id req = (ms', Ok task).
Proof. exact Update_frame_facts. Qed.

Lemma Update_frame_witness :
  ∃ ms' task,
    Update store_AB 9 "id-A" (UpdateTaskRequest.mk None (Some 1)) = (ms', Ok task)
    ∧ GetByID ms' "id-B" = GetByID store_AB "id-B"
    ∧ Count ms' = Count store_AB.
Proof.
  destruct (Update_frame store_AB 9 "id-A" (UpdateTaskRequest.mk None (Some 1))
              (Update store_AB 9 "id-A" (UpdateTaskRequest.mk None (Some 1))).1
              (UpdateTaskRequest.ApplyTo 9 (UpdateTaskRequest.mk None (Some 1))
                 (created "id-A" 5 req_A)))
    as (Hf & Hc & _).
  { vm_compute. reflexivity. }
  eexists _, _. split_and!.
  - vm_compute. reflexivity.
  - apply Hf. discriminate.
  - exact Hc.
Defined.

(** ** The counter and the records *)

(** X5. In every reachable store the number of records is at most the
    counter, and the counter is between zero and the ceiling.  A call keeps
    the counter equal to the number of records as long as no [Create] is
    given an id that is already stored; the new store starts with both at
    zero; and when the counter is no more than [max_cap], the largest
    capacity [make] accepts, [GetAll] returns as many records as the
    shards hold. *)
Theorem counter_tracks_records :
  (∀ ms clock,
     reachable ms clock →
     0 ≤ Z.of_nat (num_records ms) ≤ Count ms ∧ Count ms ≤ GetMaxTasks ms)
  ∧ (∀ n, num_records (NewMemoryStorage n) = 0%nat ∧ Count (NewMemoryStorage n) = 0)
  ∧ (∀ ms now c,
     store_ok ms → Z.of_nat (num_records ms) = Count ms →
     (∀ uuid req, c = CallCreate uuid req → GetByID ms uuid = Err (NotFound uuid)) →
     Z.of_nat (num_records (exec ms now c)) = Count (exec ms now c))
  ∧ (∀ ms clock o,
     reachable ms clock →
     Count ms ≤ max_cap →
     ∃ all, GetAll o ms = Ok all ∧ length all = num_records ms).
Proof.
  split_and!.
  - intros ms clock [(_ & _ & Hc & _) _]%reachable_inv.
    unfold Count, GetMaxTasks. lia.
  - intros n. rewrite NewMemoryStorage_eq. split; [|done].
    by eapply num_records_replicate_empty.
  - intros ms now c Hok Heq Hfresh. destruct c as [uuid req|id req|id|]; simpl.
    + destruct (Create ms uuid now req) as [ms' r] eqn:E; simpl.
      destruct (Create_fst _ _ _ _ _ _ E) as [[task ->]| ->]; [|done].
      destruct (proj2 Create_frame_facts _ _ _ _ _ _ Hok E) as (Hc & Hn & _).
      rewrite Hc, Hn; [lia|]. by eapply Hfresh.
    + destruct (Update ms now id req) as [ms' r] eqn:E; simpl.
      destruct (Update_fst _ _ _ _ _ _ E) as [[task ->]| ->]; [|done].
      destruct (Update_frame_facts _ _ _ _ _ _ E) as (_ & -> & -> & _). done.
    + destruct (Delete ms id) as [ms' r] eqn:E; simpl.
      destruct (Delete_fst _ _ _ _ E) as [->| ->]; [|done].
      destruct (proj2 (Delete_removes_one_facts ms id Hok) _ E)
        as (_ & _ & _ & -> & -> & _).
      lia.
    + destruct Hok as (Hwf & _). rewrite (Clear_well_formed ms Hwf); simpl.
      by rewrite (num_records_replicate_empty _ (length (shards ms))).
  - intros ms clock o [Hok _]%reachable_inv Hcap.
    exists (visited o (shards ms)). split.
    + pose proof (num_records_nonneg_counter _ Hok).
      apply GetAll_Ok; [by destruct Hok|]. unfold Count in Hcap. lia.
    + apply length_visited.
Qed.

Lemma counter_tracks_records_witness :
  0 ≤ Z.of_nat (num_records store_AB) ≤ Count store_AB
  ∧ Z.of_nat (num_records (exec store_A 6 (CallCreate "id-B" req_B)))
    = Count (exec store_A 6 (CallCreate "id-B" req_B)).
Proof.
  destruct counter_tracks_records as (H1 & _ & H3 & _). split.
  - exact (proj1 (H1 store_AB 6 reachable_store_AB)).
  - apply H3.
    + exact store_ok_store_A.
    + vm_compute. reflexivity.
    + intros uuid req [= <- <-]. vm_compute. reflexivity.
Defined.

(** ** What GetAll returns *)

Lemma NoDup_join_indexed {A} (g : A → nat) (ls : list (list A)) a :
  (∀ i l, ls !! i = Some l → NoDup l ∧ ∀ x, x ∈ l → g x = (a + i)%nat) →
  NoDup (mjoin ls).
Proof.
  revert a. induction ls as [|l ls IH]; intros a H; simpl; [constructor|].
  apply NoDup_app. split_and!.
  - by apply (H 0%nat l).
  - intros x Hx (l' & Hx' & Hl')%list_elem_of_join.
    apply list_elem_of_lookup in Hl' as [i Hi].
    pose proof (proj2 (H 0%nat l eq_refl) x Hx).
    pose proof (proj2 (H (S i) l' Hi) x Hx'). lia.
  - apply (IH (S a)). intros i l' Hi.
    destruct (H (S i) l' Hi) as [Hnd Hg]. split; [done|].
    intros x Hx. rewrite (Hg x Hx). lia.
Qed.

Lemma fmap_join {A B} (f : A → B) (ls : list (list A)) :
  f <$> mjoin ls = mjoin (fmap f <$> ls).
Proof.
  induction ls as [|l ls IH]; [done|]. csimpl. by rewrite fmap_app, IH.
Qed.

Lemma filter_none {A} (P : A → Prop) `{!∀ x, Decision (P x)} (l : list A) :
  Forall (λ x, ¬ P x) l → filter P l = [].
Proof.
  induction 1 as [|x l Hx _ IH]; [done|].
  rewrite filter_cons. by destruct (decide (P x)).
Qed.

Lemma range_tasks_ids o ms i s :
  store_ok ms → shards ms !! i = Some s →
  NoDup (ID <$> from_option (range_tasks o) [] s)
  ∧ ∀ id, id ∈ ID <$> from_option (range_tasks o) [] s → shard_index ms id = i.
Proof.
  intros (_ & _ & _ & Hpl) Hs. split.
  - destruct s as [[[m|]]|]; simpl; try constructor.
    unfold range_tasks; simpl.
    assert (Hids : ID <$> (enum o m).*2 = (enum o m).*1).
    { assert (Hall : ∀ kt, kt ∈ enum o m → ID kt.2 = kt.1).
      { intros [k t] Hin. rewrite (enum_perm o m) in Hin.
        apply elem_of_map_to_list in Hin.
        destruct (Hpl i k t) as [? _]; [|done].
        exists (Some (mkShard (Some m))). by rewrite shard_map_Some. }
      induction (enum o m) as [|kt l IH]; [done|]. csimpl.
      rewrite (Hall kt) by left. f_equal. apply IH.
      intros ? ?. apply Hall. by right. }
    rewrite Hids, (enum_perm o m). apply NoDup_fst_map_to_list.
  - intros id (task & -> & Hin)%list_elem_of_fmap.
    apply elem_of_range_tasks in Hin as [key Hk].
    destruct (Hpl i key task) as [-> ->]; [|done]. by exists s.
Qed.

Lemma visited_NoDup_ids o ms :
  store_ok ms → NoDup (ID <$> visited o (shards ms)).
Proof.
  intros Hok. unfold visited. rewrite fmap_join, <- list_fmap_compose.
  apply (NoDup_join_indexed (shard_index ms) _ 0).
  intros i l Hi. rewrite list_lookup_fmap in Hi.
  destruct (shards ms !! i) as [s|] eqn:Hs; [|done].
  injection Hi as <-. simpl.
  by apply (range_tasks_ids o ms i s).
Qed.

Lemma reachable_visited_GetByID ms clock o task :
  reachable ms clock →
  task ∈ visited o (shards ms) ↔ GetByID ms (ID task) = Ok task.
Proof.
  intros Hreach. pose proof Hreach as [Hok _]%reachable_inv.
  rewrite elem_of_visited. split.
  - intros (i & key & Hst).
    destruct (reachable_stored_found _ _ _ _ _ Hreach Hst) as (_ & m & Hl & Hk).
    destruct Hok as (_ & _ & _ & Hpl). destruct (Hpl _ _ _ Hst) as [-> _].
    by eapply GetByID_Ok.
  - intros (i & m & Hl & Hk)%GetByID_Ok_inv.
    apply lock_shard_slot in Hl as [_ Hs].
    exists i, (ID task). by eapply stored_slot.
Qed.

(** X6. In every reachable store whose counter is at most [max_cap], the
    largest capacity [make] accepts, [GetAll] returns a result: each
    record [GetByID] finds under its own id and no other record, as many
    records as the shards hold, and no two of them with the same id,
    whatever the order the maps are visited in.  With a counter above
    [max_cap] the call of [make] panics, whatever the shards hold. *)
Theorem GetAll_returns_the_records :
  ∀ ms clock o,
    reachable ms clock →
    (Count ms ≤ max_cap →
     ∃ all, GetAll o ms = Ok all
       ∧ (∀ task, task ∈ all ↔ GetByID ms (ID task) = Ok task)
       ∧ length all = num_records ms
       ∧ NoDup (ID <$> all))
    ∧ (max_cap < Count ms → GetAll o ms = Panic MakeSliceCap).
Proof.
  intros ms clock o Hreach. pose proof Hreach as [Hok _]%reachable_inv.
  split.
  - intros Hcap. exists (visited o (shards ms)). split_and!.
    + pose proof (num_records_nonneg_counter _ Hok).
      apply GetAll_Ok; [by destruct Hok|]. unfold Count in Hcap. lia.
    + intros task. by eapply reachable_visited_GetByID.
    + apply length_visited.
    + by apply visited_NoDup_ids.
  - intros Hcap. apply GetAll_Panic. by right.
Qed.

Lemma GetAll_returns_the_records_witness :
  ∃ all, GetAll canonical_order store_AB = Ok all
    ∧ created "id-A" 5 req_A ∈ all ∧ length all = 2%nat
    ∧ NoDup (ID <$> all).
Proof.
  destruct (proj1 (GetAll_returns_the_records store_AB 6 canonical_order
                     reachable_store_AB))
    as (all & Ha & Hin & Hlen & Hnd).
  { vm_compute. discriminate. }
  exists all. split_and!; [exact Ha| |rewrite Hlen; vm_compute; reflexivity|exact Hnd].
  apply Hin. vm_compute. reflexivity.
Defined.

(** ** GetTasksCreatedAfter *)

(** X7. [GetTasksCreatedAfter] returns the records whose [created_at] is
    strictly after the given time, in the order of the visit.  In a
    reachable store it returns a result, and that result is empty when the
    given time is not before the last reading of the clock. *)
Theorem GetTasksCreatedAfter_filters :
  (∀ o ms after l,
     GetTasksCreatedAfter o ms after = Ok l →
     l = filter (λ task, after < CreatedAt task) (visited o (shards ms))
     ∧ Forall (λ task, after < CreatedAt task) l)
  ∧ (∀ ms clock o after,
     reachable ms clock →
     ∃ l, GetTasksCreatedAfter o ms after = Ok l
       ∧ (∀ task, task ∈ l ↔
            GetByID ms (ID task) = Ok task ∧ after < CreatedAt task)
       ∧ (clock ≤ after → l = [])).
Proof.
  assert (Hfold : ∀ o ms after,
    fold_left (λ tasks task, if after <? CreatedAt task then tasks ++ [task] else tasks)
      (visited o (shards ms)) []
    = filter (λ task, after < CreatedAt task) (visited o (shards ms))).
  { intros. rewrite (fold_append_if (λ task, after < CreatedAt task)); [done|].
    intros x. apply Z.ltb_lt. }
  split.
  - intros o ms after l [_ ->]%range_shards_Ok_inv. rewrite Hfold.
    split; [done|]. apply Forall_forall. by intros task [? _]%list_elem_of_filter.
  - intros ms clock o after Hreach.
    pose proof Hreach as [Hok Hrec]%reachable_inv.
    exists (filter (λ task, after < CreatedAt task) (visited o (shards ms))).
    split_and!.
    + unfold GetTasksCreatedAfter.
      rewrite range_shards_Ok by (apply well_formed_is_Some; by destruct Hok).
      by rewrite Hfold.
    + intros task. rewrite list_elem_of_filter.
      rewrite (reachable_visited_GetByID ms clock o task Hreach). tauto.
    + intros Hle. apply filter_none, Forall_forall.
      intros task (i & key & Hst)%elem_of_visited.
      destruct (Hrec _ _ _ Hst) as [(_ & _ & ?) ?]. lia.
Qed.

Lemma GetTasksCreatedAfter_filters_witness :
  Forall (λ task, 5 < CreatedAt task) [created "id-B" 6 req_B]
  ∧ ∃ l, GetTasksCreatedAfter canonical_order store_AB 6 = Ok l ∧ l = [].
Proof.
  destruct GetTasksCreatedAfter_filters as [H1 H2]. split.
  - refine (proj2 (H1 canonical_order store_AB 5 [created "id-B" 6 req_B] _)).
    vm_compute. reflexivity.
  - destruct (H2 store_AB 6 canonical_order 6 reachable_store_AB)
      as (l & Hl & _ & Hnil).
    exists l. split; [exact Hl|]. apply Hnil. vm_compute. discriminate.
Defined.

(** ** GetStats *)

Lemma GetStats_body_fold (l : list Task) c i :
  0 ≤ c → 0 ≤ i → c + i + Z.of_nat (length l) ≤ MaxInt →
  fold_left GetStats_body l (c, i)
  = (c + Z.of_nat (count_completed l), i + Z.of_nat (count_not_completed l)).
Proof.
  unfold count_completed, count_not_completed.
  revert c i. induction l as [|x l IH]; intros c i Hc Hi Hmax; simpl.
  { f_equal; lia. }
  rewrite !filter_cons. simpl in Hmax.
  assert (Hw : ∀ z, 0 ≤ z → z + 1 ≤ MaxInt → wrap_int (z + 1) = z + 1).
  { intros z ? ?. apply wrap_int_id. unfold is_int, MinInt, MaxInt in *.
    rewrite two_pow_63 in *. lia. }
  destruct (Z.eqb_spec (Status x) TaskStatus.TaskCompleted) as [Heq|Hne].
  - rewrite Hw by lia. rewrite IH by lia.
    rewrite !decide_True by done. rewrite decide_False by (by intros []).
    simpl. f_equal; lia.
  - rewrite Hw by lia. rewrite IH by lia.
    rewrite decide_False by done. rewrite decide_True by done.
    simpl. f_equal; lia.
Qed.

Lemma count_completed_app l1 l2 :
  count_completed (l1 ++ l2) = (count_completed l1 + count_completed l2)%nat
  ∧ count_not_completed (l1 ++ l2)
    = (count_not_completed l1 + count_not_completed l2)%nat.
Proof.
  unfold count_completed, count_not_completed.
  by rewrite !filter_app, !length_app.
Qed.

Lemma count_completed_total l :
  (count_completed l + count_not_completed l = length l)%nat.
Proof.
  unfold count_completed, count_not_completed.
  induction l as [|x l IH]; [done|]. rewrite !filter_cons.
  destruct (decide (Status x = TaskStatus.TaskCompleted)).
  - rewrite decide_False by (by intros []). simpl. lia.
  - rewrite decide_True by done. simpl. lia.
Qed.

Lemma GetStats_loop_Ok o ss c i :
  Forall is_Some ss →
  0 ≤ c → 0 ≤ i → c + i + Z.of_nat (length (visited o ss)) ≤ MaxInt →
  GetStats_loop o ss (c, i)
  = Ok (c + Z.of_nat (count_completed (visited o ss)),
        i + Z.of_nat (count_not_completed (visited o ss))).
Proof.
  intros Hall. revert c i.
  induction Hall as [|s ss [sh ->] _ IH]; intros c i Hc Hi Hmax.
  { simpl. unfold visited, count_completed, count_not_completed; simpl.
    do 2 f_equal; lia. }
  unfold visited in Hmax |- *. csimpl in *. rewrite length_app in Hmax.
  destruct (count_completed_app (range_tasks o sh)
              (mjoin ((λ s, from_option (range_tasks o) [] s) <$> ss)))
    as [-> ->].
  pose proof (count_completed_total (range_tasks o sh)).
  rewrite GetStats_body_fold by lia.
  unfold visited in IH. rewrite IH by lia. do 2 f_equal; lia.
Qed.

(** X8. In every reachable store [GetStats] returns a result: the total is
    the counter, the completed count is the number of records
    [GetTasksByStatus] returns for [TaskCompleted], the incomplete count is
    the number it returns for [TaskIncomplete], and the two counts add up
    to the number of records stored, which is the number of records
    [GetAll] returns when the counter is at most [max_cap], the largest
    capacity [make] accepts. *)
Theorem GetStats_agrees_with_the_filter :
  ∀ ms clock o o1 o2 o3,
    reachable ms clock →
    ∃ stats completed incomplete,
      GetStats o ms = Ok stats
      ∧ GetTasksByStatus o1 ms TaskStatus.TaskCompleted = Ok completed
      ∧ GetTasksByStatus o2 ms TaskStatus.TaskIncomplete = Ok incomplete
      ∧ TotalTasks stats = Count ms
      ∧ CompletedTasks stats = Z.of_nat (length completed)
      ∧ IncompleteTasks stats = Z.of_nat (length incomplete)
      ∧ CompletedTasks stats + IncompleteTasks stats
        = Z.of_nat (num_records ms)
      ∧ (Count ms ≤ max_cap →
         ∃ all,
           GetAll o3 ms = Ok all
           ∧ CompletedTasks stats + IncompleteTasks stats
             = Z.of_nat (length all))
      ∧ StorageType stats = "sharded_memory".
Proof.
  intros ms clock o o1 o2 o3 Hreach.
  pose proof Hreach as [Hok _]%reachable_inv.
  pose proof (num_records_nonneg_counter _ Hok) as Hc.
  pose proof Hok as (Hwf & Hmax & Hcnt & _).
  pose proof (length_visited o ms) as Hlen.
  pose proof (count_completed_total (visited o (shards ms))) as Htot.
  assert (Hinc : count_not_completed (visited o (shards ms))
    = length (filter (λ task, Status task = TaskStatus.TaskIncomplete)
                (visited o (shards ms)))).
  { pose proof (length_filter_status (visited o (shards ms))
                  (reachable_visited_valid_status o ms clock Hreach)) as H.
    unfold count_completed in Htot. lia. }
  eexists _, _, _. split_and!.
  - unfold GetStats.
    rewrite GetStats_loop_Ok; [simpl; reflexivity|by apply well_formed_is_Some|lia..].
  - by apply GetTasksByStatus_Ok.
  - by apply GetTasksByStatus_Ok.
  - done.
  - simpl. unfold count_completed. by rewrite (visited_perm o1 o).
  - simpl. rewrite Hinc. by rewrite (visited_perm o2 o).
  - simpl. lia.
  - intros Hcap. exists (visited o3 (shards ms)). split.
    + apply GetAll_Ok; [done|]. unfold Count in Hcap. lia.
    + simpl. rewrite (visited_perm o3 o). lia.
  - done.
Qed.

Lemma GetStats_agrees_with_the_filter_witness :
  ∃ stats, GetStats canonical_order store_AB = Ok stats
    ∧ TotalTasks stats = 2 ∧ CompletedTasks stats = 1
    ∧ IncompleteTasks stats = 1.
Proof.
  destruct (GetStats_agrees_with_the_filter store_AB 6 canonical_order
              canonical_order canonical_order canonical_order
              reachable_store_AB)
    as (stats & comp & inc & Hs & Hc & Hi & Ht & Hcs & His & _).
  exists stats. split_and!; [exact Hs|exact Ht| |].
  - rewrite Hcs. apply (f_equal Z.of_nat (x := length comp) (y := 1%nat)).
    assert (Ok comp = Ok [created "id-B" 6 req_B]) as Heq
      by (rewrite <- Hc; vm_compute; reflexivity).
    by apply (f_equal (λ r, match r with Ok l => length l | _ => 0%nat end)) in Heq.
  - rewrite His. apply (f_equal Z.of_nat (x := length inc) (y := 1%nat)).
    assert (Ok inc = Ok [created "id-A" 5 req_A]) as Heq
      by (rewrite <- Hi; vm_compute; reflexivity).
    by apply (f_equal (λ r, match r with Ok l => length l | _ => 0%nat end)) in Heq.
Defined.

(** ** HealthCheck *)

Lemma initialized_dec s : initialized s ∨ ¬ initialized s.
Proof.
  destruct s as [[[m|]]|]; [left; by exists m|right..]; by intros [m Hm].
Qed.

Lemma HealthCheck_loop_Err a ss e :
  HealthCheck_loop a ss = Err e ↔
  ∃ j s, e = UnhealthyShard (a + j) ∧ ss !! j = Some s ∧ ¬ initialized s
         ∧ Forall initialized (take j ss).
Proof.
  revert a. induction ss as [|s ss IH]; intros a; simpl.
  { split; [done|]. by intros (j & s & _ & Hs & _). }
  destruct (initialized_dec s) as [[m ->]|Hbad].
  - rewrite IH. split.
    + intros (j & s & -> & Hs & Hbad & Hall). exists (S j), s.
      split_and!; [f_equal; lia|done|done|].
      simpl. constructor; [by exists m|done].
    + intros ([|j] & s & -> & Hs & Hbad & Hall); simpl in *.
      * injection Hs as <-. destruct Hbad. by exists m.
      * exists j, s. split_and!; [f_equal; lia|done|done|].
        by inversion Hall.
  - assert (Hr : match s with
                 | Some {| tasks := Some _ |} => HealthCheck_loop (S a) ss
                 | _ => Err (UnhealthyShard a)
                 end = Err (UnhealthyShard a)).
    { destruct s as [[[m|]]|]; try done. destruct Hbad. by exists m. }
    rewrite Hr. split.
    + intros [= <-]. exists 0%nat, s. split_and!; [f_equal; lia|done|done|].
      simpl. constructor.
    + intros ([|j] & s' & -> & Hs & Hbad' & Hall); simpl in *.
      * f_equal. f_equal. lia.
      * inversion Hall; subst. done.
Qed.

Lemma HealthCheck_loop_not_Panic a ss p : HealthCheck_loop a ss ≠ Panic p.
Proof.
  revert a. induction ss as [|[[[m|]]|] ss IH]; intros a; simpl; try done.
Qed.

(** X9. [HealthCheck] never panics.  It reports no error exactly when
    there is at least one shard and every shard and its map are allocated;
    it reports the error of the missing shards exactly when there is no
    shard; and otherwise the index it reports is that of the first shard
    that is nil or has a nil map.  Every reachable store is healthy. *)
Theorem HealthCheck_reports_first_bad_shard :
  (∀ ms, HealthCheck ms = Ok () ↔ shards ms ≠ [] ∧ Forall initialized (shards ms))
  ∧ (∀ ms, HealthCheck ms = Err UnhealthyNoShards ↔ shards ms = [])
  ∧ (∀ ms i,
     HealthCheck ms = Err (UnhealthyShard i) ↔
     ∃ s, shards ms !! i = Some s ∧ ¬ initialized s
          ∧ Forall initialized (take i (shards ms)))
  ∧ (∀ ms p, HealthCheck ms ≠ Panic p)
  ∧ (∀ ms clock, reachable ms clock → HealthCheck ms = Ok ()).
Proof.
  split_and!.
  - apply HealthCheck_Ok.
  - intros ms. unfold HealthCheck. case_decide as Hlen.
    + apply nil_length_inv in Hlen. done.
    + split.
      * intros (j & s & [=] & _)%HealthCheck_loop_Err.
      * intros Hnil. by rewrite Hnil in Hlen.
  - intros ms i. unfold HealthCheck. case_decide as Hlen.
    + apply nil_length_inv in Hlen. rewrite Hlen. split; [done|].
      by intros (s & Hs & _).
    + rewrite HealthCheck_loop_Err. split.
      * intros (j & s & [= ->] & Hs & Hbad & Hall). by exists s.
      * intros (s & Hs & Hbad & Hall). by exists i, s.
  - intros ms p. unfold HealthCheck. case_decide; [done|].
    apply HealthCheck_loop_not_Panic.
  - intros ms clock [((Hall & Hlen & Hpos) & _) _]%reachable_inv.
    apply HealthCheck_Ok. split; [|done].
    intros Hnil. rewrite Hnil in Hlen. simpl in Hlen. lia.
Qed.

Lemma HealthCheck_reports_first_bad_shard_witness :
  HealthCheck store_AB = Ok ()
  ∧ HealthCheck (mk [] 8 10 0) = Err UnhealthyNoShards
  ∧ HealthCheck (mk [empty_shard; Some (mkShard None); None] 3 10 0)
    = Err (UnhealthyShard 1).
Proof.
  destruct HealthCheck_reports_first_bad_shard as (_ & H2 & H3 & _ & H5).
  split_and!.
  - exact (H5 store_AB 6 reachable_store_AB).
  - apply H2. reflexivity.
  - apply H3. exists (Some (mkShard None)). split_and!.
    + reflexivity.
    + intros [m Hm]. discriminate Hm.
    + repeat constructor. by exists ∅.
Defined.

(** ** Pagination within the range of [int] *)

Lemma page_app allTasks offset a b :
  0 ≤ offset → 0 ≤ a → 0 ≤ b →
  page allTasks offset a ++ page allTasks (offset + a) b
  = page allTasks offset (a + b).
Proof.
  intros Ho Ha Hb. unfold page.
  rewrite !Z2Nat.inj_add by lia.
  rewrite <- drop_drop. apply take_take_drop.
Qed.

(** X10. For [offset >= 0], [limit > 0] and [offset + limit] within the
    range of [int], on a store that satisfies its invariant and whose
    counter is at most [max_cap], the largest capacity [make] accepts,
    [GetTasksPaginated] returns the total number of records and the
    records of the visit at the positions from [offset] up to, and
    without, [offset + limit] or the end: [min limit (max 0 (T - offset))]
    of them.  For one order of the visit, a page followed by the next page
    is the page of the two limits together, and the page from 0 with a
    limit of at least the total is what [GetAll] returns. *)
Theorem GetTasksPaginated_pages :
  ∀ ms o offset limit,
    store_ok ms → Count ms ≤ max_cap →
    0 ≤ offset → 0 < limit → offset + limit ≤ MaxInt →
    let T := Z.of_nat (num_records ms) in
    ∃ p,
      GetTasksPaginated o ms offset limit = Ok (p, T)
      ∧ p = page (visited o (shards ms)) offset limit
      ∧ Z.of_nat (length p) = Z.min limit (Z.max 0 (T - offset))
      ∧ (T ≤ offset → p = [])
      ∧ (offset = 0 → T ≤ limit → GetAll o ms = Ok p)
      ∧ (∀ limit', 0 < limit' → offset + limit + limit' ≤ MaxInt →
           ∃ p' q,
             GetTasksPaginated o ms (offset + limit) limit' = Ok (p', T)
             ∧ GetTasksPaginated o ms offset (limit + limit') = Ok (q, T)
             ∧ q = p ++ p').
Proof.
  intros ms o offset limit Hok Hcap Ho Hl Hmax T.
  pose proof (conj (num_records_nonneg_counter _ Hok) Hcap) as Hc.
  pose proof Hok as (Hwf & _).
  destruct (GetTasksPaginated_in_range o ms offset limit Hwf Hc Ho Hl Hmax)
    as [HP Hlen].
  eexists. split; [exact HP|]. split; [done|]. split; [exact Hlen|].
  split_and!.
  - intros HT. apply nil_length_inv. fold T in Hlen. lia.
  - intros -> HT. rewrite GetAll_Ok by done. f_equal. unfold page.
    rewrite drop_0, take_ge; [done|]. rewrite length_visited. lia.
  - intros limit' Hl' Hmax'.
    destruct (GetTasksPaginated_in_range o ms (offset + limit) limit' Hwf Hc)
      as [HP' _]; [lia..|].
    destruct (GetTasksPaginated_in_range o ms offset (limit + limit') Hwf Hc)
      as [HQ _]; [lia..|].
    eexists _, _. split; [exact HP'|]. split; [exact HQ|].
    symmetry. apply page_app; lia.
Qed.

Lemma GetTasksPaginated_pages_witness :
  ∃ p, GetTasksPaginated canonical_order store_AB 1 5 = Ok (p, 2)
    ∧ Z.of_nat (length p) = 1.
Proof.
  destruct (GetTasksPaginated_pages store_AB canonical_order 1 5
              store_ok_store_AB) as (p & HP & _ & Hlen & _).
  - vm_compute. discriminate.
  - vm_compute. discriminate.
  - vm_compute. reflexivity.
  - vm_compute. discriminate.
  - exists p. split; [exact HP|]. rewrite Hlen. vm_compute. reflexivity.
Defined.

Lemma GetTasksPaginated_Panic o ms offset limit :
  taskCount ms < 0 ∨ max_cap < taskCount ms →
  GetTasksPaginated o ms offset limit = Panic MakeSliceCap.
Proof. intros Hc. unfold GetTasksPaginated. by rewrite make_cap_Panic. Qed.

Lemma GetTasksPaginated_unfold o ms offset limit :
  well_formed ms → 0 ≤ taskCount ms ≤ max_cap →
  GetTasksPaginated o ms offset limit
  = let allTasks := visited o (shards ms) in
    let total := Z.of_nat (length allTasks) in
    if total <=? offset then Ok ([], total)
    else
      let end_ := wrap_int (offset + limit) in
      let end_ := if total <? end_ then total else end_ in
      paginatedTasks ← slice allTasks offset end_;
      Ok (paginatedTasks, total).
Proof.
  intros Hwf Hc. unfold GetTasksPaginated.
  pose proof (GetTasksPaginated_collect o ms Hwf Hc) as Hcol.
  destruct (make_cap (taskCount ms)) as [acc| |]; simpl in *; try done.
  by rewrite Hcol.
Qed.

(** X11. Outside the inputs the contract names, on a store that satisfies
    its invariant.  With a counter of at most [max_cap], the largest
    capacity [make] accepts: an [offset] at or beyond the total gives the
    empty page and the total, whatever the limit; a negative [offset]
    panics, also on an empty store; below the total, a [limit] of zero
    gives the empty page and a negative [limit] panics.  With a counter
    above [max_cap] the call of [make] panics, whatever the offset and the
    limit. *)
Theorem GetTasksPaginated_outside_the_contract :
  ∀ ms o offset limit,
    store_ok ms → is_int limit →
    let T := Z.of_nat (num_records ms) in
    (Count ms ≤ max_cap →
     (T ≤ offset → GetTasksPaginated o ms offset limit = Ok ([], T))
     ∧ (offset < 0 → GetTasksPaginated o ms offset limit = Panic SliceBounds)
     ∧ (0 ≤ offset < T → limit = 0 →
        GetTasksPaginated o ms offset limit = Ok ([], T))
     ∧ (0 ≤ offset < T → limit < 0 →
        GetTasksPaginated o ms offset limit = Panic SliceBounds))
    ∧ (max_cap < Count ms →
       GetTasksPaginated o ms offset limit = Panic MakeSliceCap).
Proof.
  intros ms o offset limit Hok Hlim T.
  split; [|intros Hcap; apply GetTasksPaginated_Panic; by right].
  intros Hcap.
  pose proof (conj (num_records_nonneg_counter _ Hok) Hcap) as Hc.
  pose proof Hok as (Hwf & Hmax & Hcnt & _).
  rewrite (GetTasksPaginated_unfold o ms offset limit Hwf Hc). cbv zeta.
  rewrite length_visited. fold T.
  assert (HT : T ≤ MaxInt) by (unfold T; lia).
  split_and!.
  - intros Hge. by destruct (Z.leb_spec T offset); [|lia].
  - intros Hneg. destruct (Z.leb_spec T offset); [unfold T in *; lia|].
    unfold slice. by rewrite (proj2 (Z.leb_gt 0 offset)).
  - intros Ho ->. destruct (Z.leb_spec T offset); [lia|].
    rewrite Z.add_0_r, wrap_int_id.
    2:{ unfold is_int, MinInt, MaxInt in *. rewrite two_pow_63 in *. lia. }
    destruct (Z.ltb_spec T offset); [lia|]. unfold slice.
    rewrite length_visited. fold T.
    rewrite (proj2 (Z.leb_le 0 offset)), (proj2 (Z.leb_le offset offset)),
      (proj2 (Z.leb_le offset T)) by lia.
    simpl. by rewrite Z.sub_diag.
  - intros Ho Hneg. destruct (Z.leb_spec T offset); [lia|].
    rewrite wrap_int_id.
    2:{ unfold is_int, MinInt, MaxInt in *. rewrite two_pow_63 in *. lia. }
    destruct (Z.ltb_spec T (offset + limit)); [lia|]. unfold slice.
    rewrite (proj2 (Z.leb_le 0 offset)) by lia.
    by rewrite (proj2 (Z.leb_gt offset (offset + limit))) by lia.
Qed.

Lemma GetTasksPaginated_outside_the_contract_witness :
  GetTasksPaginated canonical_order store_AB 2 5 = Ok ([], 2)
  ∧ GetTasksPaginated canonical_order (NewMemoryStorage 2) (-1) 5
    = Panic SliceBounds
  ∧ GetTasksPaginated canonical_order store_AB 1 0 = Ok ([], 2)
  ∧ GetTasksPaginated canonical_order store_AB 1 (-1) = Panic SliceBounds.
Proof.
  assert (H5 : is_int 5) by (vm_compute; split; discriminate).
  assert (H0 : is_int 0) by (vm_compute; split; discriminate).
  assert (Hm1 : is_int (-1)) by (vm_compute; split; discriminate).
  assert (Hnew : store_ok (NewMemoryStorage 2)).
  { apply store_ok_NewMemoryStorage. vm_compute. split; discriminate. }
  assert (HcapAB : Count store_AB ≤ max_cap) by (vm_compute; discriminate).
  assert (Hcapnew : Count (NewMemoryStorage 2) ≤ max_cap)
    by (vm_compute; discriminate).
  destruct (proj1 (GetTasksPaginated_outside_the_contract store_AB
                     canonical_order 2 5 store_ok_store_AB H5) HcapAB)
    as (Hbeyond & _).
  destruct (proj1 (GetTasksPaginated_outside_the_contract (NewMemoryStorage 2)
                     canonical_order (-1) 5 Hnew H5) Hcapnew)
    as (_ & Hneg & _).
  destruct (proj1 (GetTasksPaginated_outside_the_contract store_AB
                     canonical_order 1 0 store_ok_store_AB H0) HcapAB)
    as (_ & _ & Hzero & _).
  destruct (proj1 (GetTasksPaginated_outside_the_contract store_AB
                     canonical_order 1 (-1) store_ok_store_AB Hm1) HcapAB)
    as (_ & _ & _ & Hneglimit).
  split_and!.
  - apply Hbeyond. vm_compute. discriminate.
  - apply Hneg. reflexivity.
  - apply Hzero; [|reflexivity]. vm_compute. split; [discriminate|reflexivity].
  - apply Hneglimit; [|reflexivity].
    vm_compute. split; [discriminate|reflexivity].
Defined.

(** * The rate limiter *)

Lemma checkLimit_config rl1 rl2 identifier limit now records :
  RateLimiter.config rl1 = RateLimiter.config rl2 →
  RateLimiter.checkLimit rl1 identifier limit now records
  = RateLimiter.checkLimit rl2 identifier limit now records.
Proof. intros H. unfold RateLimiter.checkLimit. by rewrite H. Qed.

Lemma check_all_within rl identifier limit times records r first :
  records !! identifier = Some r → RequestRecord.FirstSeen r = first →
  1 ≤ RequestRecord.Count r → limit ≤ MaxInt →
  Forall (λ t, Sub t first
               ≤ RateLimitConfig.WindowSize (RateLimiter.config rl)) times →
  (check_all rl identifier limit times records).2
  = (λ k, bool_decide (RequestRecord.Count r + Z.of_nat k < limit))
    <$> seq 0 (length times).
Proof.
  intros Hr Hf Hc Hlim Hall. revert records r Hr Hf Hc.
  induction Hall as [|now times Hnow _ IH]; intros records r Hr Hf Hc; [done|].
  cbn [check_all]. unfold RateLimiter.checkLimit. rewrite Hr, Hf.
  destruct (Z.ltb_spec (RateLimitConfig.WindowSize (RateLimiter.config rl))
              (Sub now first)); [lia|].
  destruct (Z.leb_spec limit (RequestRecord.Count r)) as [Hfull|Hroom].
  - specialize (IH records r Hr Hf Hc).
    destruct (check_all rl identifier limit times records) as [records' oks].
    cbn [snd length] in *. rewrite IH.
    rewrite <- cons_seq, fmap_cons. rewrite bool_decide_false by lia. f_equal.
    rewrite <- fmap_S_seq, <- list_fmap_compose.
    apply list_fmap_ext. intros ? k _. simpl.
    rewrite !bool_decide_false by lia. done.
  - set (r' := RequestRecord.mk _ _ _).
    assert (Hw : RequestRecord.Count r' = RequestRecord.Count r + 1).
    { simpl. apply wrap_int_id. unfold is_int, MinInt, MaxInt in *.
      rewrite two_pow_63 in *. lia. }
    specialize (IH (<[identifier := r']> records) r' (lookup_insert_eq _ _ _)
                  eq_refl).
    destruct (check_all rl identifier limit times (<[identifier := r']> records))
      as [records' oks].
    cbn [snd length] in *. rewrite IH by lia.
    rewrite <- cons_seq, fmap_cons. rewrite bool_decide_true by lia. f_equal.
    rewrite <- fmap_S_seq, <- list_fmap_compose.
    apply list_fmap_ext. intros ? k _. simpl in Hw |- *. rewrite Hw.
    apply bool_decide_ext. lia.
Qed.

Lemma check_all_first rl identifier limit t1 times records :
  records !! identifier = None → limit ≤ MaxInt →
  Forall (λ t, Sub t t1 ≤ RateLimitConfig.WindowSize (RateLimiter.config rl))
    times →
  (check_all rl identifier limit (t1 :: times) records).2
  = (λ k, bool_decide (Z.of_nat k < Z.max 1 limit))
    <$> seq 0 (S (length times)).
Proof.
  intros Hnone Hlim Hall. cbn [check_all]. unfold RateLimiter.checkLimit.
  rewrite Hnone.
  pose proof (check_all_within rl identifier limit times
                (<[identifier := RequestRecord.mk 1 t1 t1]> records)
                (RequestRecord.mk 1 t1 t1) t1 (lookup_insert_eq _ _ _) eq_refl)
    as H.
  destruct (check_all rl identifier limit times _) as [records' oks].
  cbn [snd] in *. rewrite H; [|simpl; lia|done|done].
  rewrite <- cons_seq, fmap_cons. f_equal.
  { rewrite bool_decide_true; [done|lia]. }
  rewrite <- fmap_S_seq, <- list_fmap_compose.
  apply list_fmap_ext. intros ? k _. simpl. apply bool_decide_ext. lia.
Qed.

Lemma Allow_no_key rl clientIP now :
  RateLimiter.Allow rl clientIP "" now
  = (RateLimiter.mk (RateLimiter.config rl)
       (RateLimiter.checkLimit rl clientIP
          (RateLimitConfig.PerIP (RateLimiter.config rl)) now
          (RateLimiter.ipRecords rl)).1
       (RateLimiter.keyRecords rl),
     (RateLimiter.checkLimit rl clientIP
        (RateLimitConfig.PerIP (RateLimiter.config rl)) now
        (RateLimiter.ipRecords rl)).2).
Proof.
  unfold RateLimiter.Allow, RateLimiter.allow_with.
  destruct (RateLimiter.checkLimit rl clientIP _ now _) as [ips ok].
  by destruct ok.
Qed.

Lemma check_all_config rl1 rl2 identifier limit times records :
  RateLimiter.config rl1 = RateLimiter.config rl2 →
  check_all rl1 identifier limit times records
  = check_all rl2 identifier limit times records.
Proof.
  intros Hcfg. revert records.
  induction times as [|t times IH]; intros records; [done|]. cbn [check_all].
  rewrite (checkLimit_config rl1 rl2) by done.
  destruct (RateLimiter.checkLimit rl2 identifier limit t records) as [recs ok].
  by rewrite IH.
Qed.

Lemma allow_all_no_key rl clientIP times :
  (allow_all rl clientIP "" times).2
  = (check_all rl clientIP (RateLimitConfig.PerIP (RateLimiter.config rl))
       times (RateLimiter.ipRecords rl)).2.
Proof.
  revert rl. induction times as [|now times IH]; intros rl; [done|].
  cbn [allow_all check_all]. rewrite Allow_no_key.
  destruct (RateLimiter.checkLimit rl clientIP _ now _) as [ips ok].
  cbn [fst snd].
  specialize (IH (RateLimiter.mk (RateLimiter.config rl) ips
                    (RateLimiter.keyRecords rl))).
  rewrite (check_all_config _ rl) in IH by done. cbn in IH.
  destruct (allow_all _ clientIP "" times) as [rl' oks].
  destruct (check_all rl clientIP _ times ips) as [recs oks'].
  cbn in *. by rewrite IH.
Qed.

(** X12. A client that sends no API key and has no record yet is allowed
    its first [max 1 PerIP] requests and refused every later one, as long
    as the requests come within [WindowSize] of the first: the k-th answer
    of [Allow] is [true] exactly for [k < max 1 PerIP].  In particular the
    first request of a window is allowed even for a limit of zero or
    less. *)
Theorem Allow_quota_within_window :
  ∀ rl clientIP t1 times,
    RateLimiter.ipRecords rl !! clientIP = None →
    is_int (RateLimitConfig.PerIP (RateLimiter.config rl)) →
    Forall (λ t, Sub t t1 ≤ RateLimitConfig.WindowSize (RateLimiter.config rl))
      times →
    (allow_all rl clientIP "" (t1 :: times)).2
    = (λ k, bool_decide
              (Z.of_nat k < Z.max 1 (RateLimitConfig.PerIP (RateLimiter.config rl))))
      <$> seq 0 (S (length times)).
Proof.
  intros rl clientIP t1 times Hnone [_ Hint] Hall.
  rewrite allow_all_no_key. by apply check_all_first.
Qed.

Lemma Allow_quota_within_window_witness :
  (allow_all
     (RateLimiter.NewRateLimiter (RateLimitConfig.mk true 2 10 (5 * Minute) Minute))
     "10.0.0.1" "" [100; 200; 300; 400]).2
  = [true; true; false; false].
Proof.
  rewrite (Allow_quota_within_window _ "10.0.0.1" 100 [200; 300; 400]).
  - vm_compute. reflexivity.
  - reflexivity.
  - vm_compute. split; discriminate.
  - repeat constructor; vm_compute; discriminate.
Defined.

Lemma checkLimit_cases rl identifier limit now records :
  let W := RateLimitConfig.WindowSize (RateLimiter.config rl) in
  let fresh := RequestRecord.mk 1 now now in
  (records !! identifier = None
   ∧ RateLimiter.checkLimit rl identifier limit now records
     = (<[identifier := fresh]> records, true))
  ∨ (∃ r, records !! identifier = Some r
      ∧ W < Sub now (RequestRecord.FirstSeen r)
      ∧ RateLimiter.checkLimit rl identifier limit now records
        = (<[identifier := fresh]> records, true))
  ∨ (∃ r, records !! identifier = Some r
      ∧ Sub now (RequestRecord.FirstSeen r) ≤ W
      ∧ limit ≤ RequestRecord.Count r
      ∧ RateLimiter.checkLimit rl identifier limit now records = (records, false))
  ∨ (∃ r, records !! identifier = Some r
      ∧ Sub now (RequestRecord.FirstSeen r) ≤ W
      ∧ RequestRecord.Count r < limit
      ∧ RateLimiter.checkLimit rl identifier limit now records
        = (<[identifier :=
               RequestRecord.mk (wrap_int (RequestRecord.Count r + 1))
                 (RequestRecord.FirstSeen r) now]> records, true)).
Proof.
  intros W fresh. unfold RateLimiter.checkLimit.
  destruct (records !! identifier) as [r|]; [|by left].
  right. fold W.
  destruct (Z.ltb_spec W (Sub now (RequestRecord.FirstSeen r))).
  { left. by exists r. }
  right. destruct (Z.leb_spec limit (RequestRecord.Count r)).
  - left. by exists r.
  - right. by exists r.
Qed.

(** X13. [checkLimit] refuses exactly when the identifier has a record
    whose window has not run out ([now - FirstSeen <= WindowSize]) and
    whose count has reached the limit; a refusal leaves the records as they
    are.  An accepted call stamps the record of the identifier with [now],
    and starts a new window with a count of 1 when there was no record or
    the window had run out.  The records of the other identifiers are
    never touched. *)
Theorem checkLimit_answer :
  ∀ rl identifier limit now records records' ok,
    RateLimiter.checkLimit rl identifier limit now records = (records', ok) →
    let W := RateLimitConfig.WindowSize (RateLimiter.config rl) in
    (ok = false ↔
       ∃ r, records !! identifier = Some r
         ∧ Sub now (RequestRecord.FirstSeen r) ≤ W
         ∧ limit ≤ RequestRecord.Count r)
    ∧ (ok = false → records' = records)
    ∧ (ok = true →
       ∃ r', records' !! identifier = Some r' ∧ RequestRecord.LastSeen r' = now)
    ∧ (records !! identifier = None
       ∨ (∃ r, records !! identifier = Some r
            ∧ W < Sub now (RequestRecord.FirstSeen r)) →
       ok = true ∧ records' !! identifier = Some (RequestRecord.mk 1 now now))
    ∧ (∀ other, other ≠ identifier → records' !! other = records !! other).
Proof.
  intros rl identifier limit now records records' ok E W. subst W.
  destruct (checkLimit_cases rl identifier limit now records)
    as [[Hn H]|[(r & Hr & Hw & H)|[(r & Hr & Hw & Hc & H)|(r & Hr & Hw & Hc & H)]]];
    rewrite H in E; injection E as <- <-.
  - split_and!; try done.
    + split; [done|]. intros (r & Hr & _). congruence.
    + intros _. eexists. by rewrite lookup_insert_eq.
    + intros _. by rewrite lookup_insert_eq.
    + intros other Hne. by rewrite lookup_insert_ne.
  - split_and!; try done.
    + split; [done|]. intros (r0 & Hr0 & Hw0 & _).
      rewrite Hr in Hr0. injection Hr0 as <-. lia.
    + intros _. eexists. by rewrite lookup_insert_eq.
    + intros _. by rewrite lookup_insert_eq.
    + intros other Hne. by rewrite lookup_insert_ne.
  - split_and!; try done.
    + split; [|done]. intros _. by exists r.
    + intros [Hn|(r0 & Hr0 & Hw0)]; [congruence|].
      rewrite Hr in Hr0. injection Hr0 as <-. lia.
  - split_and!; try done.
    + split; [done|]. intros (r0 & Hr0 & _ & Hc0).
      rewrite Hr in Hr0. injection Hr0 as <-. lia.
    + intros _. eexists. by rewrite lookup_insert_eq.
    + intros [Hn|(r0 & Hr0 & Hw0)]; [congruence|].
      rewrite Hr in Hr0. injection Hr0 as <-. lia.
    + intros other Hne. by rewrite lookup_insert_ne.
Qed.

Lemma checkLimit_answer_witness :
  (RateLimiter.checkLimit limiter_2 "a" 1 (2 * Minute + 1)
     {[ "a" := RequestRecord.mk 1 0 Minute ]}).2 = true
  ∧ (RateLimiter.checkLimit limiter_2 "a" 1 (2 * Minute + 1)
       {[ "a" := RequestRecord.mk 1 0 Minute ]}).1 !! "a"
    = Some (RequestRecord.mk 1 (2 * Minute + 1) (2 * Minute + 1)).
Proof.
  destruct (checkLimit_answer limiter_2 "a" 1 (2 * Minute + 1)
              {[ "a" := RequestRecord.mk 1 0 Minute ]} _ _
              (surjective_pairing _)) as (_ & _ & _ & H & _).
  apply H. right. exists (RequestRecord.mk 1 0 Minute). split.
  - reflexivity.
  - vm_compute. reflexivity.
Defined.

Lemma allow_with_spec rl ipLimit clientIP apiKey now :
  let ip := RateLimiter.checkLimit rl clientIP ipLimit now (RateLimiter.ipRecords rl) in
  let key :=
    RateLimiter.checkLimit rl apiKey
      (RateLimitConfig.PerAPIKey (RateLimiter.config rl)) now
      (RateLimiter.keyRecords rl) in
  RateLimiter.allow_with rl ipLimit clientIP apiKey now
  = if negb ip.2 then (RateLimiter.mk (RateLimiter.config rl) ip.1
                         (RateLimiter.keyRecords rl), false)
    else if is_empty apiKey
    then (RateLimiter.mk (RateLimiter.config rl) ip.1
            (RateLimiter.keyRecords rl), true)
    else (RateLimiter.mk (RateLimiter.config rl) ip.1 key.1, key.2).
Proof.
  intros ip key. subst ip key. unfold RateLimiter.allow_with.
  destruct (RateLimiter.checkLimit rl clientIP ipLimit now _) as [ips ok].
  cbn [fst snd]. destruct ok; [|done]. cbn [negb].
  destruct (is_empty apiKey); [done|]. cbn [negb RateLimiter.keyRecords
    RateLimiter.config RateLimiter.ipRecords].
  rewrite (checkLimit_config _ rl) by done.
  destruct (RateLimiter.checkLimit rl apiKey _ now _) as [keys ok'].
  by destruct ok'.
Qed.

(** X14. [Allow] and [allowWithCustomLimit] check the IP first and the API
    key second, and only when a key is sent.  The answer is [true] exactly
    when the IP check accepts and the key is empty or the key check
    accepts.  The IP records are those the IP check leaves, so a request
    refused for its API key has still been counted against its IP; the key
    records change only when the key check is reached and accepts. *)
Theorem Allow_checks_the_ip_first :
  (∀ rl clientIP apiKey now,
     RateLimiter.Allow rl clientIP apiKey now
     = RateLimiter.allowWithCustomLimit rl clientIP apiKey
         (RateLimitConfig.PerIP (RateLimiter.config rl)) now)
  ∧ (∀ rl clientIP apiKey customLimit now rl' ok,
     RateLimiter.allowWithCustomLimit rl clientIP apiKey customLimit now
       = (rl', ok) →
     let ip :=
       RateLimiter.checkLimit rl clientIP customLimit now
         (RateLimiter.ipRecords rl) in
     let key :=
       RateLimiter.checkLimit rl apiKey
         (RateLimitConfig.PerAPIKey (RateLimiter.config rl)) now
         (RateLimiter.keyRecords rl) in
     RateLimiter.config rl' = RateLimiter.config rl
     ∧ RateLimiter.ipRecords rl' = ip.1
     ∧ (ok = true ↔ ip.2 = true ∧ (apiKey = "" ∨ key.2 = true))
     ∧ (ip.2 = true → apiKey ≠ "" → RateLimiter.keyRecords rl' = key.1)
     ∧ (ip.2 = false ∨ apiKey = "" ∨ ok = false →
        RateLimiter.keyRecords rl' = RateLimiter.keyRecords rl)
     ∧ (ip.2 = true →
        ∃ r, RateLimiter.ipRecords rl' !! clientIP = Some r
          ∧ RequestRecord.LastSeen r = now)).
Proof.
  split; [done|].
  intros rl clientIP apiKey customLimit now rl' ok E ip key.
  unfold RateLimiter.allowWithCustomLimit in E.
  rewrite allow_with_spec in E. fold ip key in E.
  pose proof (is_empty_true apiKey) as Hempty.
  assert (Hkey : key.2 = false → key.1 = RateLimiter.keyRecords rl).
  { subst key. intros Hk.
    destruct (checkLimit_cases rl apiKey
                (RateLimitConfig.PerAPIKey (RateLimiter.config rl)) now
                (RateLimiter.keyRecords rl))
      as [[_ H]|[(r & _ & _ & H)|[(r & _ & _ & _ & H)|(r & _ & _ & _ & H)]]];
      rewrite H in Hk |- *; done. }
  assert (Hip : ip.2 = true →
    ∃ r, ip.1 !! clientIP = Some r ∧ RequestRecord.LastSeen r = now).
  { subst ip. intros Hk.
    destruct (checkLimit_cases rl clientIP customLimit now
                (RateLimiter.ipRecords rl))
      as [[_ H]|[(r & _ & _ & H)|[(r & _ & _ & _ & H)|(r & _ & _ & _ & H)]]];
      rewrite H in Hk |- *; try done; cbn [fst];
      eexists; by rewrite lookup_insert_eq. }
  destruct ip.2 eqn:Hi; cbn [negb] in E.
  - destruct (is_empty apiKey) eqn:He.
    + injection E as <- <-. cbn.
      split; [done|]. split; [done|]. split; [|split; [|split]].
      * split; [|done]. intros _. split; [done|]. left. by apply Hempty.
      * intros _ Hne. destruct Hne. by apply Hempty.
      * done.
      * by apply Hip.
    + injection E as <- <-. cbn.
      split; [done|]. split; [done|]. split; [|split; [|split]].
      * split; [by intros ->; split; [|right]|].
        intros [_ [Hk|Hk]]; [|done]. apply Hempty in Hk. congruence.
      * done.
      * intros [?|[Hk|Hk]]; [done| |by apply Hkey].
        apply Hempty in Hk. congruence.
      * by apply Hip.
  - injection E as <- <-. cbn.
    split; [done|]. split; [done|]. split; [|split; [|split]].
    + split; [done|]. by intros [? _].
    + done.
    + done.
    + done.
Qed.

Lemma Allow_checks_the_ip_first_witness :
  (RateLimiter.Allow
     (RateLimiter.Allow limiter_2 "ip" "key" 5).1 "ip" "key" 6).2 = false
  ∧ ∃ r,
      RateLimiter.ipRecords
        (RateLimiter.Allow
           (RateLimiter.Allow limiter_2 "ip" "key" 5).1 "ip" "key" 6).1
        !! "ip" = Some r
      ∧ RequestRecord.LastSeen r = 6.
Proof.
  destruct Allow_checks_the_ip_first as [Heq H].
  split; [vm_compute; reflexivity|].
  destruct (H (RateLimiter.Allow limiter_2 "ip" "key" 5).1 "ip" "key" 2 6
              _ _ (surjective_pairing _)) as (_ & _ & _ & _ & _ & Hr).
  apply Hr. vm_compute. reflexivity.
Defined.

(** ** cleanup *)

Lemma Sub_mono t1 t2 u1 u2 : t1 ≤ t2 → u2 ≤ u1 → Sub t1 u1 ≤ Sub t2 u2.
Proof. unfold Sub. lia. Qed.

Lemma hides_insert W tc cleaned records k r :
  hides W tc cleaned records →
  hides W tc (<[k := r]> cleaned) (<[k := r]> records).
Proof.
  intros Hh k'. destruct (decide (k = k')) as [->|Hne].
  - left. by rewrite !lookup_insert_eq.
  - rewrite !lookup_insert_ne by done. apply Hh.
Qed.

Lemma hides_cleanup_map W tc records :
  0 ≤ W → W * 2 ≤ MaxInt →
  (∀ k r, records !! k = Some r →
     RequestRecord.FirstSeen r ≤ RequestRecord.LastSeen r) →
  hides W tc (RateLimiter.cleanup_map tc (wrap_int (W * 2)) records) records.
Proof.
  intros HW Hmax Hwf k. unfold RateLimiter.cleanup_map.
  rewrite wrap_int_id.
  2:{ unfold is_int, MinInt, MaxInt in *. rewrite two_pow_63 in *. lia. }
  destruct (records !! k) as [r|] eqn:Hr.
  - destruct (decide (W * 2 < Sub tc (RequestRecord.LastSeen r))) as [Hexp|Hlive].
    + right. split.
      * apply map_lookup_filter_None. right. intros r' Hr' Hkeep.
        rewrite Hr in Hr'. injection Hr' as <-. by apply Hkeep.
      * exists r. split_and!; [done| |done]. by eapply Hwf.
    + left. by apply map_lookup_filter_Some.
  - left. apply map_lookup_filter_None. by left.
Qed.

Lemma hides_checkLimit rl tc now identifier limit cleaned records :
  let W := RateLimitConfig.WindowSize (RateLimiter.config rl) in
  0 ≤ W → tc ≤ now → hides W tc cleaned records →
  (RateLimiter.checkLimit rl identifier limit now cleaned).2
  = (RateLimiter.checkLimit rl identifier limit now records).2
  ∧ hides W tc (RateLimiter.checkLimit rl identifier limit now cleaned).1
      (RateLimiter.checkLimit rl identifier limit now records).1.
Proof.
  intros W HW Hle Hh. unfold RateLimiter.checkLimit. fold W.
  destruct (Hh identifier) as [Heq|(Hnone & r & Hr & Hfl & Hexp)].
  - rewrite Heq. destruct (records !! identifier) as [r|].
    + destruct (W <? Sub now (RequestRecord.FirstSeen r)).
      { split; [done|]. by apply hides_insert. }
      destruct (limit <=? RequestRecord.Count r); [done|].
      split; [done|]. by apply hides_insert.
    + split; [done|]. by apply hides_insert.
  - rewrite Hnone, Hr.
    pose proof (Sub_mono tc now (RequestRecord.LastSeen r)
                  (RequestRecord.FirstSeen r) Hle Hfl).
    destruct (Z.ltb_spec W (Sub now (RequestRecord.FirstSeen r))); [|lia].
    split; [done|]. by apply hides_insert.
Qed.

Lemma hides_allow_with rl1 rl2 tc ipLimit clientIP apiKey now :
  let W := RateLimitConfig.WindowSize (RateLimiter.config rl2) in
  RateLimiter.config rl1 = RateLimiter.config rl2 →
  0 ≤ W → tc ≤ now →
  hides W tc (RateLimiter.ipRecords rl1) (RateLimiter.ipRecords rl2) →
  hides W tc (RateLimiter.keyRecords rl1) (RateLimiter.keyRecords rl2) →
  let a1 := RateLimiter.allow_with rl1 ipLimit clientIP apiKey now in
  let a2 := RateLimiter.allow_with rl2 ipLimit clientIP apiKey now in
  a1.2 = a2.2
  ∧ RateLimiter.config a1.1 = RateLimiter.config a2.1
  ∧ RateLimiter.config a2.1 = RateLimiter.config rl2
  ∧ hides W tc (RateLimiter.ipRecords a1.1) (RateLimiter.ipRecords a2.1)
  ∧ hides W tc (RateLimiter.keyRecords a1.1) (RateLimiter.keyRecords a2.1).
Proof.
  intros W Hcfg HW Hle Hip Hkey a1 a2. subst a1 a2.
  rewrite !allow_with_spec. rewrite Hcfg.
  rewrite !(checkLimit_config rl1 rl2) by done.
  destruct (hides_checkLimit rl2 tc now clientIP ipLimit _ _ HW Hle Hip)
    as [Hok1 Hh1].
  destruct (hides_checkLimit rl2 tc now apiKey
              (RateLimitConfig.PerAPIKey (RateLimiter.config rl2)) _ _ HW Hle Hkey)
    as [Hok2 Hh2].
  fold W in Hh1, Hh2. rewrite Hok1.
  destruct (RateLimiter.checkLimit rl2 clientIP ipLimit now
              (RateLimiter.ipRecords rl2)).2; cbn [negb]; [|done].
  destruct (is_empty apiKey); [done|]. cbn. by rewrite Hok2.
Qed.

Lemma hides_allow_seq rl1 rl2 tc reqs :
  let W := RateLimitConfig.WindowSize (RateLimiter.config rl2) in
  RateLimiter.config rl1 = RateLimiter.config rl2 →
  0 ≤ W → Forall (λ req, tc ≤ req.2) reqs →
  hides W tc (RateLimiter.ipRecords rl1) (RateLimiter.ipRecords rl2) →
  hides W tc (RateLimiter.keyRecords rl1) (RateLimiter.keyRecords rl2) →
  (allow_seq rl1 reqs).2 = (allow_seq rl2 reqs).2.
Proof.
  intros W Hcfg HW Hall. revert rl1 rl2 W Hcfg HW.
  induction Hall as [|[[clientIP apiKey] now] reqs Hnow _ IH];
    intros rl1 rl2 W Hcfg HW Hip Hkey; [done|].
  cbn [allow_seq]. unfold RateLimiter.Allow. rewrite Hcfg.
  destruct (hides_allow_with rl1 rl2 tc
              (RateLimitConfig.PerIP (RateLimiter.config rl2))
              clientIP apiKey now Hcfg HW Hnow Hip Hkey)
    as (Hok & Hc1 & Hc2 & Hi & Hk).
  destruct (RateLimiter.allow_with rl1 _ clientIP apiKey now) as [rl1' ok1].
  destruct (RateLimiter.allow_with rl2 _ clientIP apiKey now) as [rl2' ok2].
  cbn [fst snd] in *. fold W in Hi, Hk. subst ok2.
  specialize (IH rl1' rl2' Hc1). rewrite Hc2 in IH. specialize (IH HW Hi Hk).
  destruct (allow_seq rl1' reqs) as [? oks1].
  destruct (allow_seq rl2' reqs) as [? oks2].
  cbn in *. by rewrite IH.
Qed.

Lemma records_wf_checkLimit rl identifier limit clock now records :
  records_wf clock records → clock ≤ now →
  records_wf now (RateLimiter.checkLimit rl identifier limit now records).1.
Proof.
  intros Hwf Hle.
  assert (Hmono : records_wf now records).
  { intros k r Hr. destruct (Hwf k r Hr). split; lia. }
  assert (Hins : ∀ r', RequestRecord.FirstSeen r' ≤ RequestRecord.LastSeen r' →
            RequestRecord.LastSeen r' ≤ now →
            records_wf now (<[identifier := r']> records)).
  { intros r' ? ? k r [[_ <-]|[_ Hr]]%lookup_insert_Some; [done|].
    by apply (Hmono k). }
  destruct (checkLimit_cases rl identifier limit now records)
    as [[_ H]|[(r & _ & _ & H)|[(r & _ & _ & _ & H)|(r & Hr & _ & _ & H)]]];
    rewrite H; cbn [fst]; try done.
  - by apply Hins.
  - by apply Hins.
  - destruct (Hwf _ _ Hr). apply Hins; simpl; lia.
Qed.

(** X15. [cleanup] never changes an answer.  When the window is not
    negative, twice the window fits a [Duration], and no record was last
    seen before it was first seen, the answers of [Allow] to any requests
    made from the time of the cleanup on are the same whether [cleanup] ran
    or not.  The condition on the records holds for every limiter that
    starts empty and is used under a clock that does not go back: [Allow]
    and [cleanup] keep it. *)
Theorem cleanup_never_changes_an_answer :
  (∀ rl tc reqs,
     let W := RateLimitConfig.WindowSize (RateLimiter.config rl) in
     0 ≤ W → W * 2 ≤ MaxInt →
     (∀ k r, RateLimiter.ipRecords rl !! k = Some r →
        RequestRecord.FirstSeen r ≤ RequestRecord.LastSeen r) →
     (∀ k r, RateLimiter.keyRecords rl !! k = Some r →
        RequestRecord.FirstSeen r ≤ RequestRecord.LastSeen r) →
     Forall (λ req, tc ≤ req.2) reqs →
     (allow_seq (RateLimiter.cleanup rl tc) reqs).2 = (allow_seq rl reqs).2)
  ∧ (∀ config clock,
     records_wf clock (RateLimiter.ipRecords (RateLimiter.NewRateLimiter config))
     ∧ records_wf clock (RateLimiter.keyRecords (RateLimiter.NewRateLimiter config)))
  ∧ (∀ rl clock clientIP apiKey now,
     records_wf clock (RateLimiter.ipRecords rl) →
     records_wf clock (RateLimiter.keyRecords rl) →
     clock ≤ now →
     records_wf now (RateLimiter.ipRecords (RateLimiter.Allow rl clientIP apiKey now).1)
     ∧ records_wf now (RateLimiter.keyRecords (RateLimiter.Allow rl clientIP apiKey now).1))
  ∧ (∀ rl clock tc,
     records_wf clock (RateLimiter.ipRecords rl) →
     records_wf clock (RateLimiter.keyRecords rl) →
     records_wf clock (RateLimiter.ipRecords (RateLimiter.cleanup rl tc))
     ∧ records_wf clock (RateLimiter.keyRecords (RateLimiter.cleanup rl tc))).
Proof.
  split; [|split; [|split]].
  - intros rl tc reqs W HW Hmax Hip Hkey Hall.
    apply (hides_allow_seq _ rl tc); try done.
    + by apply hides_cleanup_map.
    + by apply hides_cleanup_map.
  - intros config clock.
    split; intros k r Hr; cbn in Hr; by rewrite lookup_empty in Hr.
  - intros rl clock clientIP apiKey now Hip Hkey Hle.
    unfold RateLimiter.Allow. rewrite allow_with_spec.
    pose proof (records_wf_checkLimit rl clientIP
                  (RateLimitConfig.PerIP (RateLimiter.config rl))
                  clock now _ Hip Hle) as Hip'.
    pose proof (records_wf_checkLimit rl apiKey
                  (RateLimitConfig.PerAPIKey (RateLimiter.config rl))
                  clock now _ Hkey Hle) as Hkey'.
    assert (Hkey0 : records_wf now (RateLimiter.keyRecords rl)).
    { intros k r Hr. destruct (Hkey k r Hr). split; lia. }
    repeat case_match; cbn; done.
  - intros rl clock tc Hip Hkey. unfold RateLimiter.cleanup; cbn.
    split; intros k r [Hr _]%map_lookup_filter_Some;
      [exact (Hip k r Hr)|exact (Hkey k r Hr)].
Qed.

Lemma cleanup_never_changes_an_answer_witness :
  (allow_seq (RateLimiter.cleanup (RateLimiter.Allow limiter_2 "ip" "" 5).1
                (3 * Minute))
     [("ip", "", 3 * Minute); ("ip", "", 3 * Minute + 1)]).2
  = (allow_seq (RateLimiter.Allow limiter_2 "ip" "" 5).1
       [("ip", "", 3 * Minute); ("ip", "", 3 * Minute + 1)]).2.
Proof.
  destruct cleanup_never_changes_an_answer as [H _].
  assert (Hip : RateLimiter.ipRecords (RateLimiter.Allow limiter_2 "ip" "" 5).1
                = {[ "ip" := RequestRecord.mk 1 5 5 ]})
    by (vm_compute; reflexivity).
  assert (Hkey : RateLimiter.keyRecords (RateLimiter.Allow limiter_2 "ip" "" 5).1
                 = ∅)
    by (vm_compute; reflexivity).
  apply H.
  - vm_compute. discriminate.
  - vm_compute. discriminate.
  - intros k r Hr. rewrite Hip in Hr.
    apply lookup_singleton_Some in Hr as [_ <-]. vm_compute. discriminate.
  - intros k r Hr. rewrite Hkey in Hr. by rewrite lookup_empty in Hr.
  - repeat constructor; vm_compute; discriminate.
Defined.

(** ** getCustomLimit *)

(** X16. The health paths get five times the per-IP limit whatever the
    method; on every other path [POST], [PUT] and [DELETE] get half of it,
    rounded towards zero, and every other method, [PATCH] included, gets
    the limit itself.  For a limit [p >= 0] with [5 * p] in the range of
    [int], the result always lies between [p / 2] and [5 * p]. *)
Theorem getCustomLimit_bounds :
  ∀ path method cfg,
    let p := RateLimitConfig.PerIP cfg in
    (path = "/health" ∨ path = "/api/v1/health" →
     getCustomLimit path method cfg = wrap_int (p * 5))
    ∧ (path ≠ "/health" → path ≠ "/api/v1/health" →
       (method = "POST" ∨ method = "PUT" ∨ method = "DELETE" →
        getCustomLimit path method cfg = Z.quot p 2)
       ∧ (method ≠ "POST" → method ≠ "PUT" → method ≠ "DELETE" →
          getCustomLimit path method cfg = p))
    ∧ (0 ≤ p → p * 5 ≤ MaxInt →
       Z.quot p 2 ≤ getCustomLimit path method cfg ≤ p * 5
       ∧ 2 * Z.quot p 2 ≤ p ≤ 2 * Z.quot p 2 + 1).
Proof.
  intros path method cfg p. unfold getCustomLimit. fold p.
  split; [|split].
  - intros Hh. by rewrite bool_decide_true.
  - intros Hn1 Hn2. rewrite bool_decide_false by (by intros [?|?]). split.
    + intros Hm. rewrite bool_decide_false.
      2:{ by destruct Hm as [->|[->| ->]]. }
      by rewrite bool_decide_true.
    + intros ? ? ?. case_bool_decide; [done|].
      rewrite bool_decide_false; [done|]. by intros [?|[?|?]].
  - intros Hp Hmax.
    assert (Hw : wrap_int (p * 5) = p * 5).
    { apply wrap_int_id. unfold is_int, MinInt, MaxInt in *.
      rewrite two_pow_63 in *. lia. }
    assert (Hq : 2 * Z.quot p 2 ≤ p ≤ 2 * Z.quot p 2 + 1).
    { rewrite Z.quot_div_nonneg by lia.
      pose proof (Z.div_mod p 2). pose proof (Z.mod_pos_bound p 2). lia. }
    split; [|done]. rewrite Hw. repeat case_bool_decide; lia.
Qed.

Lemma getCustomLimit_bounds_witness :
  getCustomLimit "/api/v1/tasks" "PATCH" DefaultRateLimitConfig = 100
  ∧ getCustomLimit "/api/v1/tasks" "DELETE" DefaultRateLimitConfig = 50
  ∧ (50 ≤ getCustomLimit "/health" "POST" DefaultRateLimitConfig ≤ 500).
Proof.
  destruct (getCustomLimit_bounds "/api/v1/tasks" "PATCH" DefaultRateLimitConfig)
    as (_ & H1 & _).
  destruct (getCustomLimit_bounds "/api/v1/tasks" "DELETE" DefaultRateLimitConfig)
    as (_ & H2 & _).
  destruct (getCustomLimit_bounds "/health" "POST" DefaultRateLimitConfig)
    as (_ & _ & H3).
  split_and!.
  - apply H1; discriminate.
  - apply H2; [discriminate..|]. right. by right.
  - apply H3; vm_compute; discriminate.
  - apply H3; vm_compute; discriminate.
Defined.

(** * The sharded store and the store with a single map *)

Lemma store_ok_disjoint ms :
  store_ok ms →
  map_disjoint_list ((shard_map <$> shards ms) : list (gmap string Task)).
Proof.
  intros (_ & _ & _ & Hpl) j1 j2 m1 m2 Hne H1 H2.
  rewrite list_lookup_fmap in H1, H2.
  destruct (shards ms !! j1) as [s1|] eqn:Hs1; [|done].
  destruct (shards ms !! j2) as [s2|] eqn:Hs2; [|done].
  injection H1 as <-. injection H2 as <-.
  apply map_disjoint_spec. intros k t1 t2 Hk1 Hk2.
  destruct (Hpl j1 k t1) as [_ ->]; [by exists s1|].
  destruct (Hpl j2 k t2) as [_ ->]; [by exists s2|]. done.
Qed.

Lemma flatten_lookup ms key task :
  store_ok ms →
  flatten ms !! key = Some task ↔ ∃ i, stored ms i key task.
Proof.
  intros Hok. unfold flatten.
  rewrite lookup_union_list_Some by by apply store_ok_disjoint.
  split.
  - intros (m & (s & -> & Hs)%list_elem_of_fmap & Hk).
    apply list_elem_of_lookup in Hs as [i Hi]. exists i. by exists s.
  - intros (i & s & Hi & Hk). exists (shard_map s). split; [|done].
    apply list_elem_of_fmap. exists s. split; [done|].
    by eapply list_elem_of_lookup_2.
Qed.

Lemma size_union_list_disjoint (l : list (gmap string Task)) :
  map_disjoint_list l → size (⋃ l) = sum_list (size <$> l).
Proof.
  induction l as [|m l IH]; intros Hd.
  { simpl. apply map_size_empty. }
  apply map_disjoint_list_cons in Hd as [Hm Hd]. csimpl.
  rewrite map_size_disj_union, IH; [done|done|].
  by apply map_disjoint_union_list_r_2.
Qed.

Lemma size_flatten ms : store_ok ms → size (flatten ms) = num_records ms.
Proof.
  intros Hok. unfold flatten, num_records.
  rewrite size_union_list_disjoint by by apply store_ok_disjoint.
  by rewrite <- list_fmap_compose.
Qed.

Lemma flatten_GetByID ms id :
  store_ok ms → GetByID ms id = Memory.GetByID (single ms) id.
Proof.
  intros Hok. pose proof Hok as (Hwf & _ & _ & Hpl).
  destruct (lock_shard_well_formed ms id Hwf) as (m & Hl & Hs).
  unfold Memory.GetByID, Memory.lookup_task; simpl.
  destruct (m !! id) as [task|] eqn:Hk.
  - rewrite (GetByID_Ok _ _ _ _ _ Hl Hk).
    rewrite (proj2 (flatten_lookup ms id task Hok)); [done|].
    eexists. by eapply stored_slot.
  - rewrite (GetByID_absent _ _ _ _ Hl) by done.
    destruct (flatten ms !! id) as [task|] eqn:Hf; [|done].
    apply flatten_lookup in Hf as [i Hst]; [|done].
    destruct (Hpl _ _ _ Hst) as [_ ->].
    destruct Hst as (s & Hs' & Hk'). rewrite Hs in Hs'. injection Hs' as <-.
    rewrite shard_map_Some in Hk'. congruence.
Qed.

Lemma flatten_insert ms ms' i m key task :
  store_ok ms → store_ok ms' →
  shards ms !! i = Some (Some (mkShard (Some m))) → i = shard_index ms key →
  shards ms' = <[i := Some (mkShard (Some (<[key := task]> m)))]> (shards ms) →
  flatten ms' = <[key := task]> (flatten ms).
Proof.
  intros Hok Hok' Hs Hi Hss. apply map_eq. intros k. apply option_eq. intros t.
  rewrite lookup_insert_Some, !flatten_lookup by done.
  assert (Hst' : ∀ j, stored ms' j k t ↔
            (j = i ∧ <[key := task]> m !! k = Some t) ∨ (j ≠ i ∧ stored ms j k t)).
  { intros j. unfold stored. rewrite Hss.
    destruct (decide (j = i)) as [->|Hne].
    - rewrite list_lookup_insert_eq by by eapply lookup_lt_Some.
      split.
      + intros (s & [= <-] & Hk). left. by rewrite shard_map_Some in Hk.
      + intros [[_ Hk]|[? _]]; [|done]. eexists. split; [done|].
        by rewrite shard_map_Some.
    - rewrite list_lookup_insert_ne by done. split; [by right|].
      by intros [[? _]|[_ ?]]. }
  destruct Hok as (_ & _ & _ & Hpl). split.
  - intros [j [[-> Hk]|[Hne Hst]]%Hst'].
    + apply lookup_insert_Some in Hk as [[-> ->]|[Hne Hk]]; [by left|].
      right. split; [done|]. exists i. by eapply stored_slot.
    + right. split; [|by exists j].
      intros <-. destruct (Hpl _ _ _ Hst) as [_ ->]. done.
  - intros [[<- <-]|[Hne [j Hst]]].
    + exists i. apply Hst'. left. split; [done|]. apply lookup_insert_eq.
    + exists j. apply Hst'. destruct (decide (j = i)) as [->|Hji]; [|by right].
      left. split; [done|]. rewrite lookup_insert_ne by done.
      destruct Hst as (s & Hs' & Hk). rewrite Hs in Hs'. injection Hs' as <-.
      by rewrite shard_map_Some in Hk.
Qed.

Lemma flatten_delete ms ms' i m key :
  store_ok ms → store_ok ms' →
  shards ms !! i = Some (Some (mkShard (Some m))) → i = shard_index ms key →
  shards ms' = <[i := Some (mkShard (Some (delete key m)))]> (shards ms) →
  flatten ms' = delete key (flatten ms).
Proof.
  intros Hok Hok' Hs Hi Hss. apply map_eq. intros k. apply option_eq. intros t.
  rewrite lookup_delete_Some, !flatten_lookup by done.
  assert (Hst' : ∀ j, stored ms' j k t ↔
            (j = i ∧ delete key m !! k = Some t) ∨ (j ≠ i ∧ stored ms j k t)).
  { intros j. unfold stored. rewrite Hss.
    destruct (decide (j = i)) as [->|Hne].
    - rewrite list_lookup_insert_eq by by eapply lookup_lt_Some.
      split.
      + intros (s & [= <-] & Hk). left. by rewrite shard_map_Some in Hk.
      + intros [[_ Hk]|[? _]]; [|done]. eexists. split; [done|].
        by rewrite shard_map_Some.
    - rewrite list_lookup_insert_ne by done. split; [by right|].
      by intros [[? _]|[_ ?]]. }
  destruct Hok as (_ & _ & _ & Hpl). split.
  - intros [j [[-> Hk]|[Hne Hst]]%Hst'].
    + apply lookup_delete_Some in Hk as [Hne Hk].
      split; [done|]. exists i. by eapply stored_slot.
    + split; [|by exists j].
      intros <-. destruct (Hpl _ _ _ Hst) as [_ ->]. done.
  - intros [Hne [j Hst]].
    exists j. apply Hst'. destruct (decide (j = i)) as [->|Hji]; [|by right].
    left. split; [done|]. rewrite lookup_delete_ne by done.
    destruct Hst as (s & Hs' & Hk). rewrite Hs in Hs'. injection Hs' as <-.
    by rewrite shard_map_Some in Hk.
Qed.

Lemma flatten_lookup_slot ms id i m :
  store_ok ms → lock_shard ms id = Ok (i, mkShard (Some m)) →
  flatten ms !! id = m !! id.
Proof.
  intros Hok [-> Hs]%lock_shard_slot. apply option_eq. intros t.
  rewrite flatten_lookup by done. split.
  - intros [j Hst]. destruct Hok as (_ & _ & _ & Hpl).
    destruct (Hpl _ _ _ Hst) as [_ ->].
    destruct Hst as (s & Hs' & Hk). rewrite Hs in Hs'. injection Hs' as <-.
    by rewrite shard_map_Some in Hk.
  - intros Hk. eexists. by eapply stored_slot.
Qed.

Lemma flatten_all_empty ms n :
  shards ms = replicate n empty_shard → flatten ms = ∅.
Proof.
  intros Hs. unfold flatten. rewrite Hs. clear Hs.
  induction n as [|n IH]; [done|]. csimpl. rewrite IH.
  unfold empty_shard. rewrite shard_map_Some. apply (left_id_L ∅ (∪)).
Qed.

(** X17. Sharding does not show.  On a sharded store that satisfies its
    invariant, [GetByID], [Update], [Delete] and [Clear] give the answers,
    and leave the records, that the store with a single map of
    [internal/storage/memory.go] gives and leaves when it holds the same
    records; the single map then has as many entries as the shards hold
    records.  [Create] agrees as well when the counter equals the number
    of records and the new id is not stored yet. *)
Theorem sharded_store_refines_single_map :
  ∀ ms,
    store_ok ms →
    (∀ id, GetByID ms id = Memory.GetByID (single ms) id)
    ∧ Memory.Count (single ms) = Z.of_nat (num_records ms)
    ∧ (∀ now id req,
       Memory.Update (single ms) now id req
       = (single (Update ms now id req).1, (Update ms now id req).2))
    ∧ (∀ id,
       Memory.Delete (single ms) id
       = (single (Delete ms id).1, (Delete ms id).2))
    ∧ Memory.Clear (single ms) = single (Clear ms).1
    ∧ (∀ uuid more now req,
       Count ms = Z.of_nat (num_records ms) →
       GetByID ms uuid = Err (NotFound uuid) →
       Memory.Create (single ms) uuid more now req
       = Some (single (Create ms uuid now req).1, (Create ms uuid now req).2)).
Proof.
  intros ms Hok. pose proof Hok as (Hwf & Hmax & Hcnt & Hpl).
  split; [|split; [|split; [|split; [|split]]]].
  - intros id. by apply flatten_GetByID.
  - unfold Memory.Count, Memory.len_tasks; simpl. by rewrite size_flatten.
  - intros now id req.
    destruct (lock_shard_well_formed ms id Hwf) as (m & Hl & Hs).
    pose proof (flatten_lookup_slot ms id _ m Hok Hl) as Hf.
    unfold Update, Memory.Update.
    destruct (UpdateTaskRequest.Validate req); [done|].
    destruct (UpdateTaskRequest.HasUpdates req); simpl; [|done].
    rewrite Hl. unfold lookup_task, Memory.lookup_task; simpl. rewrite Hf.
    destruct (m !! id) as [old|] eqn:Hk; [|done]. simpl.
    f_equal. unfold single; simpl. f_equal. f_equal. symmetry.
    destruct (Hpl (shard_index ms id) id old) as [Hid _];
      [by eapply stored_slot|].
    eapply (flatten_insert ms); try done.
    eapply store_ok_replace; try done. by rewrite ApplyTo_ID.
  - intros id.
    destruct (lock_shard_well_formed ms id Hwf) as (m & Hl & Hs).
    pose proof (flatten_lookup_slot ms id _ m Hok Hl) as Hf.
    unfold Delete, Memory.Delete. rewrite Hl.
    unfold lookup_task, Memory.lookup_task; simpl. rewrite Hf.
    destruct (m !! id) as [old|] eqn:Hk; [|done]. simpl.
    f_equal. unfold single; simpl. f_equal. f_equal. symmetry.
    eapply (flatten_delete ms); try done.
    by eapply store_ok_delete.
  - rewrite (Clear_well_formed ms Hwf). unfold Memory.Clear, single; simpl.
    f_equal. f_equal. symmetry.
    by apply (flatten_all_empty _ (length (shards ms))).
  - intros uuid more now req Hacc (_ & j & sh & Hl' & Hnone)%GetByID_Err_inv.
    destruct (lock_shard_well_formed ms uuid Hwf) as (m & Hl & Hs).
    rewrite Hl in Hl'. injection Hl' as <- <-.
    unfold lookup_task in Hnone; simpl in Hnone.
    pose proof (flatten_lookup_slot ms uuid _ m Hok Hl) as Hf.
    rewrite Hnone in Hf.
    unfold Create, Memory.Create.
    destruct (CreateTaskRequest.Validate req); [done|].
    assert (Hlen : Memory.len_tasks (single ms) = taskCount ms).
    { unfold Memory.len_tasks; simpl. rewrite size_flatten by done.
      unfold Count in Hacc. lia. }
    rewrite Hlen. simpl.
    destruct (Z.leb_spec (maxTasks ms) (taskCount ms)) as [|Hroom]; [done|].
    assert (Hpick : Memory.pick_id (single ms) uuid more = Some uuid).
    { destruct more; simpl; unfold Memory.lookup_task; simpl; by rewrite Hf. }
    rewrite Hpick, Hl. simpl.
    f_equal. f_equal. unfold single; simpl. f_equal. f_equal. symmetry.
    eapply (flatten_insert ms); try done.
    by apply store_ok_insert.
Qed.

Lemma sharded_store_refines_single_map_witness :
  GetByID store_AB "id-A" = Memory.GetByID (single store_AB) "id-A"
  ∧ Memory.Count (single store_AB) = 2
  ∧ Memory.Delete (single store_AB) "id-B"
    = (single (Delete store_AB "id-B").1, Ok ()).
Proof.
  destruct (sharded_store_refines_single_map store_AB store_ok_store_AB)
    as (Hg & Hc & _ & Hd & _).
  split_and!.
  - apply Hg.
  - rewrite Hc. vm_compute. reflexivity.
  - rewrite Hd. f_equal.
Defined.

(** * The store with a single map *)

Lemma pick_id_first_free ms uuid more :
  match Memory.pick_id ms uuid more with
  | Some taskID =>
      ∃ before after,
        uuid :: more = before ++ taskID :: after
        ∧ Forall (λ x, is_Some (Memory.lookup_task ms x)) before
        ∧ Memory.lookup_task ms taskID = None
  | None => Forall (λ x, is_Some (Memory.lookup_task ms x)) (uuid :: more)
  end.
Proof.
  revert uuid. induction more as [|next more IH]; intros uuid; simpl.
  - destruct (Memory.lookup_task ms uuid) eqn:Hk.
    + constructor; [by rewrite Hk|constructor].
    + by exists [], [].
  - destruct (Memory.lookup_task ms uuid) eqn:Hk.
    + specialize (IH next).
      destruct (Memory.pick_id ms next more) as [taskID|].
      * destruct IH as (before & after & Heq & Hall & Hfree).
        exists (uuid :: before), after. split_and!; [|constructor|]; try done.
        by rewrite Heq.
      * constructor; [by rewrite Hk|done].
    + by exists [], (next :: more).
Qed.

(** X18. [Create] in the store with a single map never replaces a record.
    The id of the new record is the first of the values drawn that is not
    in use; the record is added under it and every record held before is
    still held, unchanged; the count grows by exactly one and stays within
    the ceiling.  A call that reports an error leaves the store as it
    was, and the uniqueness loop only goes on while every value drawn so
    far is in use. *)
Theorem Memory_Create_never_replaces :
  ∀ ms m uuid more now req,
    Memory.tasks ms = Some m →
    match Memory.Create ms uuid more now req with
    | Some (ms', Ok task) =>
        (∃ before after,
           uuid :: more = before ++ ID task :: after
           ∧ Forall (λ x, is_Some (m !! x)) before)
        ∧ m !! ID task = None
        ∧ task = created (ID task) now req
        ∧ Memory.tasks ms' = Some (<[ID task := task]> m)
        ∧ (∀ id old, m !! id = Some old →
             Memory.GetByID ms' id = Ok old)
        ∧ Memory.GetByID ms' (ID task) = Ok task
        ∧ Memory.Count ms' = Memory.Count ms + 1
        ∧ Memory.Count ms' ≤ Memory.maxTasks ms'
        ∧ Memory.maxTasks ms' = Memory.maxTasks ms
    | Some (ms', _) => ms' = ms
    | None => Forall (λ x, is_Some (m !! x)) (uuid :: more)
    end.
Proof.
  intros ms m uuid more now req Hm. unfold Memory.Create.
  destruct (CreateTaskRequest.Validate req); [done|].
  unfold Memory.Count, Memory.len_tasks. rewrite Hm.
  destruct (Z.leb_spec (Memory.maxTasks ms) (Z.of_nat (size m)))
    as [|Hroom]; [done|].
  pose proof (pick_id_first_free ms uuid more) as Hpick.
  assert (Hlk : ∀ x, Memory.lookup_task ms x = m !! x).
  { intros x. unfold Memory.lookup_task. by rewrite Hm. }
  destruct (Memory.pick_id ms uuid more) as [taskID|].
  - destruct Hpick as (before & after & Heq & Hall & Hfree).
    rewrite Hlk in Hfree. simpl.
    split_and!; try done.
    + exists before, after. split; [done|].
      eapply Forall_impl; [exact Hall|]. intros x; simpl. by rewrite Hlk.
    + intros id old Hold. unfold Memory.GetByID, Memory.lookup_task; simpl.
      rewrite lookup_insert_ne; [by rewrite Hold|]. intros ->. congruence.
    + unfold Memory.GetByID, Memory.lookup_task; simpl.
      by rewrite lookup_insert_eq.
    + rewrite map_size_insert_None by done. lia.
    + rewrite map_size_insert_None by done. lia.
  - eapply Forall_impl; [exact Hpick|]. intros x; simpl. by rewrite Hlk.
Qed.

Lemma Memory_Create_never_replaces_witness :
  ∃ ms' task,
    Memory.Create store_AB_roomy "id-A" ["id-B"; "id-C"; "id-D"] 7 req_C
    = Some (ms', Ok task)
    ∧ ID task = "id-C"
    ∧ Memory.GetByID ms' "id-A" = Ok (created "id-A" 5 req_A).
Proof.
  pose proof (Memory_Create_never_replaces store_AB_roomy _
                "id-A" ["id-B"; "id-C"; "id-D"] 7 req_C eq_refl) as H.
  destruct (Memory.Create store_AB_roomy "id-A" ["id-B"; "id-C"; "id-D"] 7 req_C)
    as [[ms' [task| |]]|] eqn:HC; try (vm_compute in HC; discriminate).
  exists ms', task. split; [done|].
  destruct H as (_ & _ & _ & _ & Hold & _).
  split.
  - apply (inj Some) in HC. apply (f_equal snd) in HC.
    vm_compute in HC. by injection HC as <-.
  - apply Hold. vm_compute. reflexivity.
Defined.

(** * internal/middleware/cors.go *)

Lemma string_app_cons a (s1 s2 : string) :
  String a s1 +:+ s2 = String a (s1 +:+ s2).
Proof. reflexivity. Qed.

Lemma string_app_nil_r (s : string) : s +:+ "" = s.
Proof.
  induction s as [|a s IH]; [done|]. by rewrite string_app_cons, IH.
Qed.

Lemma string_app_assoc (s1 s2 s3 : string) :
  (s1 +:+ s2) +:+ s3 = s1 +:+ (s2 +:+ s3).
Proof.
  induction s1 as [|a s1 IH]; [done|]. by rewrite !string_app_cons, IH.
Qed.

Lemma string_app_length (s1 s2 : string) :
  String.length (s1 +:+ s2) = (String.length s1 + String.length s2)%nat.
Proof.
  induction s1 as [|a s1 IH]; [done|].
  rewrite string_app_cons. simpl. by rewrite IH.
Qed.

Lemma concat_cons sep x rest :
  String.concat sep (x :: rest)
  = x +:+ foldr (λ y r, sep +:+ (y +:+ r)) "" rest.
Proof.
  revert x. induction rest as [|y rest IH]; intros x; simpl.
  - by rewrite string_app_nil_r.
  - f_equal. f_equal. apply IH.
Qed.

Lemma joinStrings_loop sep (before rest : list string) (result : string) :
  fold_left
    (λ result i, result +:+ (sep +:+ default "" ((before ++ rest) !! i)))
    (seq (length before) (length rest)) result
  = result +:+ foldr (λ y r, sep +:+ (y +:+ r)) "" rest.
Proof.
  revert before result. induction rest as [|y rest IH]; intros before result.
  - simpl. by rewrite string_app_nil_r.
  - simpl. rewrite list_lookup_middle by done. simpl.
    specialize (IH (before ++ [y]) (result +:+ (sep +:+ y))).
    rewrite <- (assoc_L (++)) in IH. simpl in IH.
    rewrite length_app in IH. simpl in IH.
    replace (length before + 1)%nat with (S (length before)) in IH by lia.
    rewrite IH. by rewrite !string_app_assoc.
Qed.

(** X19. [joinStrings] is the usual join: the elements of the slice in
    their order with the separator between each two of them and nowhere
    else, which is what [String.concat] gives. *)
Theorem joinStrings_is_the_usual_join :
  ∀ slice sep, joinStrings slice sep = String.concat sep slice.
Proof.
  intros [|first rest] sep; [done|].
  unfold joinStrings. rewrite concat_cons.
  replace (length (first :: rest) - 1)%nat with (length rest)
    by (simpl; lia).
  apply (joinStrings_loop sep [first] rest first).
Qed.

Lemma digit_value_digit d :
  0 ≤ d ≤ 9 →
  ∃ a, digit d = String a "" ∧ digit_value a = Some d.
Proof.
  intros Hd. exists (Ascii.ascii_of_N (Z.to_N (48 + d))). split; [done|].
  unfold digit_value. rewrite Ascii.N_ascii_embedding by lia.
  rewrite Z2N.id by lia.
  destruct (Z.leb_spec 48 (48 + d)); [|lia].
  destruct (Z.leb_spec (48 + d) 57); [|lia].
  simpl. f_equal. lia.
Qed.

Lemma formatInt_loop_digits fuel :
  ∀ i result,
    0 ≤ i < 2 ^ Z.of_nat fuel →
    ∃ ds,
      formatInt_loop fuel i result = Some (ds +:+ result)
      ∧ (∀ acc rest,
           digits_value acc (ds +:+ rest)
           = digits_value (acc * 10 ^ Z.of_nat (String.length ds) + i) rest)
      ∧ (i = 0 → ds = "")
      ∧ (0 < i →
         ∃ a ds' d, ds = String a ds' ∧ digit_value a = Some d ∧ d ≠ 0).
Proof.
  induction fuel as [|fuel IH]; intros i result Hi.
  - assert (i = 0) as -> by (simpl in Hi; lia).
    exists "". split_and!; try done.
    intros acc rest. simpl. f_equal. lia.
  - destruct (decide (i = 0)) as [->|Hne].
    { exists "". split_and!; try done.
      intros acc rest. simpl. f_equal. lia. }
    assert (Hpos : 0 < i) by lia.
    simpl formatInt_loop. destruct (Z.ltb_spec 0 i) as [_|]; [|lia].
    rewrite Z.quot_div_nonneg, Z.rem_mod_nonneg by lia.
    pose proof (Z.div_mod i 10 ltac:(lia)) as Hdm.
    pose proof (Z.mod_pos_bound i 10 ltac:(lia)) as Hmod.
    assert (Hq : 0 ≤ i `div` 10 < 2 ^ Z.of_nat fuel).
    { split; [apply Z.div_pos; lia|].
      apply Z.div_lt_upper_bound; [lia|].
      rewrite Nat2Z.inj_succ, Z.pow_succ_r in Hi by lia. lia. }
    destruct (digit_value_digit (i `mod` 10)) as (a & Ha & Hva); [lia|].
    destruct (IH (i `div` 10) (digit (i `mod` 10) +:+ result) Hq)
      as (ds' & Hloop & Hval & Hzero & Hfirst).
    exists (ds' +:+ digit (i `mod` 10)). split_and!.
    + by rewrite Hloop, string_app_assoc.
    + intros acc rest. rewrite string_app_assoc, Hval, Ha.
      rewrite string_app_cons. simpl digits_value. rewrite Hva. simpl.
      f_equal. rewrite string_app_length. simpl String.length.
      rewrite Nat2Z.inj_add, Z.pow_add_r by lia.
      change (Z.of_nat 1) with 1. lia.
    + lia.
    + intros _. destruct (decide (i `div` 10 = 0)) as [Hz|Hnz].
      * rewrite (Hzero Hz), Ha. exists a, "", (i `mod` 10).
        split_and!; try done; lia.
      * destruct Hfirst as (b & ds'' & d & -> & Hb & Hd); [lia|].
        exists b, (ds'' +:+ digit (i `mod` 10)), d. by rewrite string_app_cons.
Qed.

Lemma formatInt_facts :
  ∀ i,
    is_int i →
    ∃ s,
      formatInt i = Some s
      ∧ (i = MinInt → s = "-")
      ∧ (i ≠ MinInt →
         numeral_value s = Some i
         ∧ (i ≠ 0 → ∀ rest, s ≠ "0" +:+ rest ∧ s ≠ "-0" +:+ rest)).
Proof.
  intros i Hi. unfold formatInt.
  destruct (Z.eqb_spec i 0) as [->|Hne].
  { exists "0". split_and!; [done|discriminate|done]. }
  destruct (Z.ltb_spec i 0) as [Hneg|Hpos].
  - destruct (decide (i = MinInt)) as [->|Hmin].
    { exists "-". split_and!; [by vm_compute|done|done]. }
    assert (Hopp : is_int (- i)).
    { revert Hi Hmin. unfold is_int, MinInt, MaxInt.
      rewrite two_pow_63. lia. }
    rewrite (wrap_int_id _ Hopp).
    destruct (formatInt_loop_digits 63 (- i) "") as (ds & -> & Hval & _ & Hfirst).
    { revert Hopp. unfold is_int, MinInt, MaxInt. rewrite two_pow_63.
      change (2 ^ Z.of_nat 63) with 9223372036854775808. lia. }
    destruct Hfirst as (a & ds' & d & -> & Ha & Hd); [lia|].
    rewrite string_app_nil_r. simpl mbind.
    eexists. split; [reflexivity|]. split; [done|]. intros _. split.
    + specialize (Hval 0 ""). rewrite string_app_nil_r in Hval.
      change (Z.opp <$> digits_value 0 (String a ds') = Some i).
      rewrite Hval. simpl. f_equal. lia.
    + intros _ rest. split; [done|].
      intros [= -> ->]. vm_compute in Ha. congruence.
  - destruct (formatInt_loop_digits 63 i "") as (ds & -> & Hval & _ & Hfirst).
    { revert Hi. unfold is_int, MinInt, MaxInt. rewrite two_pow_63.
      change (2 ^ Z.of_nat 63) with 9223372036854775808. lia. }
    destruct Hfirst as (a & ds' & d & -> & Ha & Hd); [lia|].
    rewrite string_app_nil_r. simpl mbind.
    eexists. split; [reflexivity|].
    split.
    { intros ->. revert Hpos. unfold MinInt. rewrite two_pow_63. lia. }
    intros _. split.
    + unfold numeral_value.
      rewrite bool_decide_eq_false_2.
      2:{ intros [= ->]. vm_compute in Ha. discriminate. }
      specialize (Hval 0 ""). rewrite string_app_nil_r in Hval.
      rewrite Hval. simpl. f_equal; lia.
    + intros _ rest. split; [|intros [= -> ->]; vm_compute in Ha; discriminate].
      intros [= -> ->]. vm_compute in Ha. congruence.
Qed.

(** X20. [formatInt] writes an [int] in base ten.  For every [int] but the
    least one the loop comes to an end and the string is a numeral whose
    value is the argument, without a zero in front.  For the least [int]
    the negation overflows back to the argument, the loop is not entered
    and the result is the bare minus sign. *)
Theorem formatInt_round_trip :
  ∀ i,
    is_int i →
    ∃ s,
      formatInt i = Some s
      ∧ (i = MinInt → s = "-")
      ∧ (i ≠ MinInt →
         numeral_value s = Some i
         ∧ (i ≠ 0 → ∀ rest, s ≠ "0" +:+ rest ∧ s ≠ "-0" +:+ rest)).
Proof. exact formatInt_facts. Qed.

Lemma formatInt_round_trip_witness :
  formatInt 3600 = Some "3600" ∧ numeral_value "3600" = Some 3600.
Proof.
  destruct (formatInt_round_trip 3600) as (s & Hs & _ & Hv).
  { unfold is_int, MinInt, MaxInt. rewrite two_pow_63. lia. }
  assert (s = "3600") as ->.
  { apply (inj Some). rewrite <- Hs. vm_compute. reflexivity. }
  split; [done|]. apply Hv. unfold MinInt. rewrite two_pow_63. lia.
Defined.

Lemma isOriginAllowed_true origin allowedOrigins :
  isOriginAllowed origin allowedOrigins = true
  ↔ "*" ∈ allowedOrigins ∨ origin ∈ allowedOrigins.
Proof.
  induction allowedOrigins as [|allowed rest IH]; simpl.
  - split; [done|]. intros [H|H]; by apply elem_of_nil in H.
  - rewrite !elem_of_cons. case_bool_decide as Hd.
    + split; [|done]. intros _. destruct Hd as [->| ->]; auto.
    + rewrite IH. split; [tauto|].
      intros [[Hs|?]|[Ho|?]]; auto; exfalso; apply Hd; auto.
Qed.

Lemma only_wildcard (l : list string) :
  (length l =? 1)%nat && bool_decide (l !! 0%nat = Some "*") = true
  ↔ l = ["*"].
Proof.
  split.
  - intros [Hlen Hhd]%andb_true_iff.
    apply Nat.eqb_eq in Hlen. apply bool_decide_eq_true in Hhd.
    destruct l as [|x [|y l]]; simplify_eq/=. done.
  - by intros ->.
Qed.

Lemma other_header_not_allow_origin (b : bool) (k x v : string) :
  k ≠ "Access-Control-Allow-Origin" →
  ("Access-Control-Allow-Origin", v) ∉ (if b then [(k, x)] else []).
Proof.
  intros Hk. destruct b; [|apply not_elem_of_nil].
  rewrite list_elem_of_singleton. intros [= <- _]. done.
Qed.

(** X21. The [Access-Control-Allow-Origin] header of the CORS handler.
    The handler always comes to an end.  It calls [c.Header] for this
    header with ["*"] when the allowed origins are exactly the one entry
    ["*"]; otherwise with the [Origin] of the request, whatever that is,
    when ["*"] or that origin is among the allowed origins; and otherwise
    not at all.  So a wildcard listed beside other origins makes the
    handler repeat any origin, and an origin that is not listed gets no
    header when there is no wildcard.  The request is passed on unless
    its method is [OPTIONS], which ends it with status 204. *)
Theorem CORSWithConfig_allow_origin :
  ∀ config origin method,
    is_int (CORSConfig.MaxAge config) →
    ∃ headers,
      CORSWithConfig config origin method
      = Some (headers,
              if bool_decide (method = "OPTIONS") then AbortWithStatus 204
              else Next)
      ∧ ∀ v,
          ("Access-Control-Allow-Origin", v) ∈ headers
          ↔ (CORSConfig.AllowOrigins config = ["*"] ∧ v = "*")
            ∨ (CORSConfig.AllowOrigins config ≠ ["*"]
               ∧ v = origin
               ∧ ("*" ∈ CORSConfig.AllowOrigins config
                  ∨ origin ∈ CORSConfig.AllowOrigins config)).
Proof.
  intros config origin method Hint. unfold CORSWithConfig.
  assert (∃ maxAge,
    (if 0 <? CORSConfig.MaxAge config
     then s ← formatInt (CORSConfig.MaxAge config);
          Some [("Access-Control-Max-Age", s)]
     else Some []) = Some maxAge
    ∧ ∀ v, ("Access-Control-Allow-Origin", v) ∉ maxAge)
    as (maxAge & -> & Hmax).
  { destruct (0 <? CORSConfig.MaxAge config).
    - destruct (formatInt_facts _ Hint) as (s & -> & _).
      eexists. split; [reflexivity|]. intros v.
      rewrite list_elem_of_singleton. intros [= ?].
    - eexists. split; [reflexivity|]. intros v. apply not_elem_of_nil. }
  simpl. eexists. split; [reflexivity|]. intros v.
  rewrite !elem_of_app.
  pose proof (only_wildcard (CORSConfig.AllowOrigins config)) as Hw.
  pose proof (isOriginAllowed_true origin (CORSConfig.AllowOrigins config))
    as Ha.
  pose proof (other_header_not_allow_origin
    (0 <? length (CORSConfig.AllowMethods config))%nat
    "Access-Control-Allow-Methods"
    (joinStrings (CORSConfig.AllowMethods config) ", ") v ltac:(done)) as H1.
  pose proof (other_header_not_allow_origin
    (0 <? length (CORSConfig.AllowHeaders config))%nat
    "Access-Control-Allow-Headers"
    (joinStrings (CORSConfig.AllowHeaders config) ", ") v ltac:(done)) as H2.
  pose proof (other_header_not_allow_origin
    (0 <? length (CORSConfig.ExposeHeaders config))%nat
    "Access-Control-Expose-Headers"
    (joinStrings (CORSConfig.ExposeHeaders config) ", ") v ltac:(done)) as H3.
  pose proof (other_header_not_allow_origin
    (CORSConfig.AllowCredentials config)
    "Access-Control-Allow-Credentials" "true" v ltac:(done)) as H4.
  specialize (Hmax v).
  destruct ((length (CORSConfig.AllowOrigins config) =? 1)%nat
            && bool_decide (CORSConfig.AllowOrigins config !! 0%nat = Some "*"))
    eqn:Hone.
  - assert (Hl : CORSConfig.AllowOrigins config = ["*"]) by by apply Hw.
    rewrite list_elem_of_singleton. split.
    + intros [[= ->]|[?|[?|[?|[?|?]]]]]; try done. by left.
    + intros [[_ ->]|[? _]]; [by left|done].
  - assert (Hl : CORSConfig.AllowOrigins config ≠ ["*"]).
    { intros Hl. apply Hw in Hl. congruence. }
    destruct (isOriginAllowed origin (CORSConfig.AllowOrigins config)).
    + rewrite list_elem_of_singleton. split.
      * intros [[= ->]|[?|[?|[?|[?|?]]]]]; try done.
        right. split_and!; try done. by apply Ha.
      * intros [[? _]|(_ & -> & _)]; [done|by left].
    + split.
      * intros [?%elem_of_nil|[?|[?|[?|[?|?]]]]]; done.
      * intros [[? _]|(_ & _ & Hin)]; [done|].
        apply Ha in Hin. discriminate.
Qed.

Lemma CORSWithConfig_allow_origin_witness :
  ∃ headers,
    CORSWithConfig (RestrictiveCORS_config ["https://a.example"; "*"])
      "https://evil.example" "GET" = Some (headers, Next)
    ∧ ("Access-Control-Allow-Origin", "https://evil.example") ∈ headers
    ∧ ("Access-Control-Allow-Credentials", "true") ∈ headers.
Proof.
  destruct (CORSWithConfig_allow_origin
              (RestrictiveCORS_config ["https://a.example"; "*"])
              "https://evil.example" "GET") as (headers & Hh & Hv).
  { unfold is_int, MinInt, MaxInt. rewrite two_pow_63. simpl. lia. }
  exists headers. split; [exact Hh|]. split.
  - apply Hv. right. split_and!; [discriminate|done|].
    left. apply list_elem_of_further, list_elem_of_here.
  - apply (inj Some) in Hh. apply (f_equal fst) in Hh.
    cbn [fst] in Hh. rewrite <- Hh. vm_compute.
    do 4 apply list_elem_of_further. apply list_elem_of_here.
Defined.

(** * The request logger *)

Lemma skips_true path skipPaths :
  skips path skipPaths = true ↔ path ∈ skipPaths.
Proof.
  induction skipPaths as [|skipPath rest IH]; simpl.
  - split; [done|]. by intros ?%elem_of_nil.
  - rewrite elem_of_cons. case_bool_decide; [tauto|].
    rewrite IH. tauto.
Qed.

(** X22. Which requests the logger writes.  A request is written exactly
    when its path is not one of the paths to skip and its status is at
    least the status the configured level stands for: any status for
    [LogLevelDebug], 300 for [LogLevelInfo], 400 for [LogLevelWarn] and 500
    for [LogLevelError].  The production logger therefore writes no
    request answered with a status below 300, and none for [/health] or
    [/metrics]; the development logger writes every request. *)
Theorem LoggerWithConfig_writes_iff :
  (∀ config path statusCode,
     LoggerWithConfig_writes config path statusCode = true
     ↔ (path ∉ LoggerConfig.SkipPaths config)
       ∧ (match LoggerConfig.LogLevel config with
          | LogLevelDebug => True
          | LogLevelInfo => 300 ≤ statusCode
          | LogLevelWarn => 400 ≤ statusCode
          | LogLevelError => 500 ≤ statusCode
          end))
  ∧ (∀ path statusCode,
       LoggerWithConfig_writes ProductionLogger_config path statusCode = true
       ↔ path ≠ "/health" ∧ path ≠ "/metrics" ∧ 300 ≤ statusCode)
  ∧ (∀ path statusCode,
       LoggerWithConfig_writes DevelopmentLogger_config path statusCode
       = true).
Proof.
  assert (Hgen : ∀ config path statusCode,
     LoggerWithConfig_writes config path statusCode = true
     ↔ (path ∉ LoggerConfig.SkipPaths config)
       ∧ (match LoggerConfig.LogLevel config with
          | LogLevelDebug => True
          | LogLevelInfo => 300 ≤ statusCode
          | LogLevelWarn => 400 ≤ statusCode
          | LogLevelError => 500 ≤ statusCode
          end)).
  { intros config path statusCode. unfold LoggerWithConfig_writes.
    pose proof (skips_true path (LoggerConfig.SkipPaths config)) as Hs.
    destruct (skips path (LoggerConfig.SkipPaths config)).
    - split; [done|]. intros [Hn _]. exfalso. apply Hn. by apply Hs.
    - assert (Hn : path ∉ LoggerConfig.SkipPaths config).
      { intros Hin. apply Hs in Hin. discriminate. }
      unfold getLogLevelFromStatus.
      destruct (Z.leb_spec 500 statusCode), (Z.leb_spec 400 statusCode),
        (Z.leb_spec 300 statusCode), (LoggerConfig.LogLevel config);
        simpl; split; try done; try lia; intros [_ ?]; lia. }
  split; [exact Hgen|]. split.
  - intros path statusCode. rewrite Hgen. simpl.
    rewrite !not_elem_of_cons. split.
    + intros ((? & ? & _) & ?). done.
    + intros (? & ? & ?). split_and!; try done. apply not_elem_of_nil.
  - intros path statusCode. apply Hgen. simpl. split; [|done].
    apply not_elem_of_nil.
Qed.
